(** * A shallow embedding of the workbook engine of ap-excel-agent

    The development follows [sheet.ts] (class [SheetModel]: the cell store,
    the operation log with undo, the A1 codec, the formula evaluator and
    the import), [types.ts] (the data model), [agent.ts] ([executePlan],
    [cleanToJsonString]), [parser.ts] ([normalize]) and [index.ts] (the
    layout of an ingested statement).

    Conventions of the embedding.
    - Text is a [string] of code units below 128 (ASCII); character classes
      of the regular expressions are written out on [ascii].
    - Row and column indexes are mathematical integers ([Z], or [nat] where
      the code can only see a non-negative index); the code's doubles are
      exact on every index that can address an in-memory array.
      [Binary64.rcToA1] is [rcToA1] on every number, with the roundings of
      binary64.
    - The evaluation of an expression text by the engine is a parameter
      ([Runtime]).  An evaluation that does more than give back a value or
      throw ([JEscapes]) ends the modelled run, and so does a failure
      annotated with the engine's own text.
    - A JavaScript number held in a cell is a binary64 [float].
    - Event ids, workbook ids and timestamps (random and clock values) are
      left out of the records. *)

From Stdlib Require Import ZArith String Ascii Floats.
From stdpp Require Import base list strings gmap.

Local Open Scope Z_scope.

(* ================================================================== *)
(** * Part I: definitions                                               *)
(* ================================================================== *)

(** ** Characters and text *)

Module Text.

Abbreviation text := (list ascii).

Definition code (a : ascii) : Z := Z.of_N (N_of_ascii a).
Definition fromCharCode (n : Z) : ascii := ascii_of_N (Z.to_N n).

Definition between (lo hi : Z) (a : ascii) : bool :=
  (lo <=? code a) && (code a <=? hi).

(** [[0-9]], [[A-Z]], [[a-z]], [[A-Za-z]], [\w] and [\s]. *)
Definition isDigit : ascii -> bool := between 48 57.
Definition isUpper : ascii -> bool := between 65 90.
Definition isLower : ascii -> bool := between 97 122.
Definition isAlpha (a : ascii) : bool := isUpper a || isLower a.
Definition isWord (a : ascii) : bool := isAlpha a || isDigit a || (code a =? 95).
Definition isSpace (a : ascii) : bool := between 9 13 a || (code a =? 32).

Definition toUpper (a : ascii) : ascii :=
  if isLower a then fromCharCode (code a - 32) else a.

Definition eqc (a b : ascii) : bool := code a =? code b.

(** The longest prefix whose characters satisfy [p], and the rest. *)
Fixpoint span (p : ascii -> bool) (l : text) : text * text :=
  match l with
  | a :: l' =>
      if p a then let '(x, y) := span p l' in (a :: x, y) else ([], l)
  | [] => ([], [])
  end.

Definition dropSpace (l : text) : text := snd (span isSpace l).

(** [String.prototype.trim]. *)
Definition trim (l : text) : text := rev (dropSpace (rev (dropSpace l))).

(** [s.split(',')]: never empty, the empty text gives one empty field. *)
Fixpoint splitOn (sep : ascii) (l : text) : list text :=
  match l with
  | [] => [[]]
  | a :: l' =>
      if eqc a sep then [] :: splitOn sep l'
      else match splitOn sep l' with
           | f :: fs => (a :: f) :: fs
           | [] => [[a]]
           end
  end.

(** [term.replace(/,/g, '')]. *)
Definition removeAll (c : ascii) (l : text) : text :=
  filter (fun a => negb (eqc a c) = true) l.

(** Decimal digits of a non-negative integer, most significant first: what
    [String(n)] and string concatenation print for an integer index. *)
Definition digitChar (d : Z) : ascii := fromCharCode (48 + d).

Fixpoint digitsLoop (fuel : nat) (n : Z) (acc : text) : text :=
  match fuel with
  | O => acc
  | S f =>
      let acc' := digitChar (n mod 10) :: acc in
      if n <? 10 then acc' else digitsLoop f (n / 10) acc'
  end.

Definition bits (n : Z) : nat := S (Z.to_nat (Z.log2 n)).

Definition decimalOf (n : Z) : text :=
  if n <? 0 then "-"%char :: digitsLoop (bits (- n)) (- n) []
  else digitsLoop (bits n) n [].

(** [parseInt(digits, 10)] on a run of decimal digits. *)
Definition parseInt (ds : text) : Z :=
  fold_left (fun acc d => acc * 10 + (code d - 48)) ds 0.

(** The prefix [[A-Za-z]+[0-9]+] of a text: the letters, the digits and
    what follows them.  The two classes are disjoint, so the greedy runs are
    the only way the pattern can match. *)
Definition matchA1 (l : text) : option (text * text * text) :=
  let '(letters, r1) := span isAlpha l in
  let '(digits, r2) := span isDigit r1 in
  match letters, digits with
  | _ :: _, _ :: _ => Some (letters, digits, r2)
  | _, _ => None
  end.

(** [/^[A-Za-z]+[0-9]+$/]. *)
Definition matchRef (l : text) : option (text * text) :=
  match matchA1 l with
  | Some (letters, digits, []) => Some (letters, digits)
  | _ => None
  end.

Definition isRef (l : text) : bool :=
  match matchRef l with Some _ => true | None => false end.

(** [/^([A-Z]+)([0-9]+):([A-Z]+)([0-9]+)$/i]: the four groups. *)
Definition matchRange (l : text) : option (text * text * text * text) :=
  match matchA1 l with
  | Some (l1, d1, c :: rest) =>
      if eqc c ":"%char then
        match matchRef rest with
        | Some (l2, d2) => Some (l1, d1, l2, d2)
        | None => None
        end
      else None
  | _ => None
  end.

Definition isRange (l : text) : bool :=
  match matchRange l with Some _ => true | None => false end.

End Text.

(** ** The A1 codec: [SheetModel.a1ToRc] and [SheetModel.rcToA1] *)

Import Text.

(** The [for] loop of [a1ToRc] over the letters of the column. *)
Definition colOf (colStr : text) : Z :=
  fold_left (fun col ch => col * 26 + (code ch - 64)) colStr 0.

(** [a1ToRc]: [None] stands for the thrown [Error("Bad A1 ref: ...")]. *)
Definition a1ToRc_text (ref : text) : option (Z * Z) :=
  match matchRef ref with
  | None => None
  | Some (letters, digits) =>
      let colStr := map toUpper letters in
      let row := parseInt digits - 1 in
      let col := colOf colStr in
      Some (row, col - 1)
  end.

Definition a1ToRc (ref : string) : option (Z * Z) :=
  a1ToRc_text (list_ascii_of_string ref).

(** [rcToA1] on the indexes of an in-memory array.  There every number the
    code computes is an integer below [2^53], and its arithmetic is exact;
    [Binary64.rcToA1] below is the function on every number.

    The [while (n > 0)] loop of [rcToA1]; each turn puts one letter in
    front of [s]. *)
Fixpoint rcToA1_loop (fuel : nat) (n : Z) (s : text) : text :=
  match fuel with
  | O => s
  | S f =>
      if 0 <? n then
        let rem := (n - 1) mod 26 in
        rcToA1_loop f ((n - 1) / 26) (fromCharCode (65 + rem) :: s)
      else s
  end.

Definition rcToA1_text (r c : Z) : text :=
  rcToA1_loop (bits (c + 1)) (c + 1) [] ++ decimalOf (r + 1).

Definition rcToA1 (r c : Z) : string := string_of_list_ascii (rcToA1_text r c).

(** ** [rcToA1] on every number

    A JavaScript number is a binary64: an integer of at most 53 bits times
    a power of two.  The result of an operation is the exact result rounded
    to the nearest such number, to the one with the even mantissa when two
    are as near.  The numbers [rcToA1] meets when it is given integers are
    integers, kept here as [Z]. *)
Module Binary64.

(** [num / den] rounded to the nearest integer, to the even one at a tie
    ([0 <= num], [0 < den]). *)
Definition nearest (num den : Z) : Z :=
  let m := num / den in
  let r := num mod den in
  if (den <? 2 * r) || ((2 * r =? den) && Z.odd m) then m + 1 else m.

(** The integer [z] as a binary64: [x + y] and [x - y] on integers are
    [round (x + y)] and [round (x - y)]. *)
Definition round (z : Z) : Z :=
  let a := Z.abs z in
  let e := Z.log2 a - 52 in
  if e <=? 0 then z else Z.sgn z * (nearest a (2 ^ e) * 2 ^ e).

(** [p / q] in binary64, for integers [0 < p] and [0 < q]: the mantissa [m]
    and the exponent [e] of the quotient [m * 2 ^ e]. *)
Definition quotient (p q : Z) : Z * Z :=
  let scaled e := if 0 <=? e then (p, q * 2 ^ e) else (p * 2 ^ (- e), q) in
  let e0 := Z.log2 p - Z.log2 q - 52 in
  let e := if fst (scaled e0) / snd (scaled e0) <? 2 ^ 52 then e0 - 1 else e0 in
  (nearest (fst (scaled e)) (snd (scaled e)), e).

(** [Math.floor(p / q)] for integers [0 <= p] and [0 < q]: the floor of the
    quotient in binary64. *)
Definition floorDiv (p q : Z) : Z :=
  if p <=? 0 then 0
  else
    let '(m, e) := quotient p q in
    if 0 <=? e then m * 2 ^ e else m / 2 ^ (- e).

(** The [while (n > 0)] loop of [rcToA1]: [(n - 1) % 26] is exact,
    [n - 1] and [(n - 1) / 26] are rounded. *)
Fixpoint rcToA1_loop (fuel : nat) (n : Z) (s : text) : text :=
  match fuel with
  | O => s
  | S f =>
      if 0 <? n then
        let rem := round (n - 1) mod 26 in
        rcToA1_loop f (floorDiv (round (n - 1)) 26) (fromCharCode (65 + rem) :: s)
      else s
  end.

(** [rcToA1(r, c)] for integers [r] and [c] that are binary64 numbers, with
    [r + 1] below [10^21]: up to there [String] prints the decimal digits
    of an integer. *)
Definition rcToA1_text (r c : Z) : text :=
  let n := round (c + 1) in
  rcToA1_loop (bits n) n [] ++ decimalOf (round (r + 1)).

Definition rcToA1 (r c : Z) : string := string_of_list_ascii (rcToA1_text r c).

End Binary64.

(** ** The data model ([types.ts]) *)

Record CellProvenance := mkProv {
  docId : string;
  snippet : option string;
  rationale : option string
}.

(** [string | number | null]. *)
Inductive CellValue :=
| VNull
| VNum (n : float)
| VStr (s : string).

(** JavaScript arrays are objects with identity.  The provenance array of a
    cell is shared by every shallow copy of the cell ([{ ...cell }]) and is
    updated in place by [push], so a cell holds the address of its array in
    a store ([provStore]), not the array.  Cells, rows and sheets are never
    reachable from two places of the live workbook at once and are kept by
    value. *)
Abbreviation ref := nat (only parsing).

Record Cell := mkCell {
  value : CellValue;
  formula : option string;
  provenance : option ref;
  format : option string
}.

(** [{ value: null }]; the object [{}] that spreading [undefined] gives
    reads the same ([cell.value ?? null]) and is identified with it. *)
Definition emptyCell : Cell :=
  {| value := VNull; formula := None; provenance := None; format := None |}.

(** A row is a JavaScript array of cells: [None] is a hole, which reads as
    [undefined]. *)
Abbreviation Row := (list (option Cell)).

Record Sheet := mkSheet {
  name : string;
  rows : list Row
}.

(** A range: a sheet name and the inclusive zero-based corners of a
    rectangle.  Nothing in the engine checks [r1 <= r2] or [c1 <= c2]. *)
Record RangeRef := mkRange {
  sheet : string;
  r1 : nat; c1 : nat; r2 : nat; c2 : nat
}.

(** The argument object of an operation ([args: any]), by the shape each
    case of [dispatch] reads. *)
Inductive Args :=
| ArgsName (name : string)
| ArgsSheet (sheet : Sheet)
| ArgsValues (range : RangeRef) (values : list (list CellValue))
             (provenance : option (list CellProvenance))
| ArgsFormulas (range : RangeRef) (formulas : list (list (option string)))
| ArgsFormat (range : RangeRef) (format : option string)
| ArgsCells (range : RangeRef) (cells : list (list Cell))
| ArgsProv (range : RangeRef) (prov provenance : option (list CellProvenance))
| ArgsEmpty.

Record SheetEvent := mkEvent {
  op : string;
  args : Args;
  inverse : string * Args;
  summary : string
}.

Record Checkpoint := mkCheckpoint {
  id : string;
  atEvent : nat
}.

(** [sheets] is a JavaScript [Map]: keys in insertion order, no key twice. *)
Record Workbook := mkWorkbook {
  sheets : list (string * Sheet);
  checkpoints : list Checkpoint;
  events : list SheetEvent
}.

(** The state of a [SheetModel]: its workbook and the store of provenance
    arrays. *)
Record Model := mkModel {
  wb : Workbook;
  provStore : list (list CellProvenance)
}.

(** ** Thrown errors and the state monad of the methods *)

Inductive exn :=
| Error (message : string)
| TypeError.

(** [(err as Error).message].  The text of a [TypeError] is the engine's
    own: it names the property read and differs from engine to engine, and
    is not modelled ([None]). *)
Definition message (e : exn) : option string :=
  match e with
  | Error m => Some m
  | TypeError => None
  end.

(** What a call leaves behind: a result, a thrown error, or an input the
    embedding does not cover (an argument object of another shape than the
    operation reads, an evaluation out of fuel, or an expression text whose
    evaluation by the engine escapes).  Each carries the state at that
    point: a throw does not roll back what was written before, and nothing
    is said of what comes after an [Unmodelled]. *)
Inductive outcome (St A : Type) :=
| Ok (a : A) (s : St)
| Throw (e : exn) (s : St)
| Unmodelled (s : St).

Arguments Ok {St A} a s.
Arguments Throw {St A} e s.
Arguments Unmodelled {St A} s.

Definition stateOf {St A} (o : outcome St A) : St :=
  match o with
  | Ok _ s | Throw _ s | Unmodelled s => s
  end.

Definition M (St A : Type) := St -> outcome St A.

Definition ret {St A} (a : A) : M St A := fun s => Ok a s.

Definition bind {St A B} (m : M St A) (k : A -> M St B) : M St B :=
  fun s =>
    match m s with
    | Ok a s' => k a s'
    | Throw e s' => Throw e s'
    | Unmodelled s' => Unmodelled s'
    end.

Definition throw {St A} (e : exn) : M St A := fun s => Throw e s.
Definition unmodelled {St A} : M St A := fun s => Unmodelled s.
Definition get {St} : M St St := fun s => Ok s s.
Definition modify {St} (f : St -> St) : M St unit := fun s => Ok tt (f s).

Declare Scope eff_scope.
Delimit Scope eff_scope with eff.
Notation "x <- m ;; k" := (bind m (fun x => k))
  (at level 100, m at next level, right associativity) : eff_scope.
Notation "m ;;; k" := (bind m (fun _ => k))
  (at level 100, right associativity) : eff_scope.
Local Open Scope eff_scope.

(** [for (const x of l) f(i, x)], [i] the index of [x]. *)
Fixpoint forEachFrom {St A} (i : nat) (l : list A) (f : nat -> A -> M St unit) : M St unit :=
  match l with
  | [] => ret tt
  | x :: l' => f i x ;;; forEachFrom (S i) l' f
  end.

Definition forEachI {St A} (l : list A) (f : nat -> A -> M St unit) : M St unit :=
  forEachFrom 0 l f.

Definition forEach {St A} (l : list A) (f : A -> M St unit) : M St unit :=
  forEachFrom 0 l (fun _ => f).

(** [l.map(f)] with an effectful [f], left to right. *)
Fixpoint mapM {St A B} (f : A -> M St B) (l : list A) : M St (list B) :=
  match l with
  | [] => ret []
  | x :: l' => y <- f x ;; ys <- mapM f l' ;; ret (y :: ys)
  end.

(** [for (i = lo; i <= hi; i++)] on naturals. *)
Definition upto (lo hi : nat) : list nat := seq lo (S hi - lo).

(** ** The [Map] of sheets *)

Fixpoint mapGet {V} (k : string) (m : list (string * V)) : option V :=
  match m with
  | [] => None
  | (k', v) :: m' => if String.eqb k k' then Some v else mapGet k m'
  end.

Definition mapHas {V} (k : string) (m : list (string * V)) : bool :=
  match mapGet k m with Some _ => true | None => false end.

(** [Map.set]: an existing key keeps its place. *)
Fixpoint mapSet {V} (k : string) (v : V) (m : list (string * V)) : list (string * V) :=
  match m with
  | [] => [(k, v)]
  | (k', v') :: m' =>
      if String.eqb k k' then (k, v) :: m' else (k', v') :: mapSet k v m'
  end.

Fixpoint mapDelete {V} (k : string) (m : list (string * V)) : list (string * V) :=
  match m with
  | [] => []
  | (k', v') :: m' =>
      if String.eqb k k' then m' else (k', v') :: mapDelete k m'
  end.

(** ** [SheetModel]: helpers *)

(** The methods of [SheetModel] run on the model. *)
Definition Engine := M Model.

Definition setSheets (f : list (string * Sheet) -> list (string * Sheet)) (st : Model) : Model :=
  {| wb := {| sheets := f (sheets (wb st));
              checkpoints := checkpoints (wb st);
              events := events (wb st) |};
     provStore := provStore st |}.

Definition setEvents (f : list SheetEvent -> list SheetEvent) (st : Model) : Model :=
  {| wb := {| sheets := sheets (wb st);
              checkpoints := checkpoints (wb st);
              events := f (events (wb st)) |};
     provStore := provStore st |}.

Definition setCheckpoints (f : list Checkpoint -> list Checkpoint) (st : Model) : Model :=
  {| wb := {| sheets := sheets (wb st);
              checkpoints := f (checkpoints (wb st));
              events := events (wb st) |};
     provStore := provStore st |}.

Definition setStore (f : list (list CellProvenance) -> list (list CellProvenance)) (st : Model) : Model :=
  {| wb := wb st; provStore := f (provStore st) |}.

(** [getSheet]. *)
Definition getSheet (name : string) : Engine Sheet :=
  fun st =>
    match mapGet name (sheets (wb st)) with
    | Some s => Ok s st
    | None => Throw (Error ("Sheet not found: " ++ name)) st
    end.

(** The sheet object found under a key is updated in place: [s.rows] of a
    sheet obtained earlier reads the rows as they are now. *)
Definition setRows (key : string) (f : list Row -> list Row) : Engine unit :=
  modify (setSheets (fun m =>
    match mapGet key m with
    | Some s => mapSet key {| name := name s; rows := f (rows s) |} m
    | None => m
    end)).

(** The two loops of [ensureSize]: rows are added up to [nrows], then every
    row is filled with [{ value: null }] up to [ncols]. *)
Definition padRows (nrows ncols : nat) (g : list Row) : list Row :=
  map (fun r => r ++ replicate (ncols - length r) (Some emptyCell))
      (g ++ replicate (nrows - length g) []).

Definition ensureSize (sheetName : string) (nrows ncols : nat) : Engine unit :=
  _ <- getSheet sheetName ;;
  setRows sheetName (padRows nrows ncols).

(** [row[c]] read as a value: [None] when the entry is a hole or lies past
    the end of the row (both read as [undefined]). *)
Definition rowCell (row : Row) (c : nat) : option Cell :=
  match row !! c with
  | Some (Some x) => Some x
  | _ => None
  end.

(** [s.rows[r][c]] where the row exists; [None] also when it does not. *)
Definition cellAt (g : list Row) (r c : nat) : option Cell :=
  match g !! r with
  | Some row => rowCell row c
  | None => None
  end.

(** [s.rows[r][c]] in a method: reading an index of the missing row
    [s.rows[r]] throws a [TypeError]. *)
Definition readCell (key : string) (r c : nat) : Engine (option Cell) :=
  s <- getSheet key ;;
  match rows s !! r with
  | Some _ => ret (cellAt (rows s) r c)
  | None => throw TypeError
  end.

(** [row[c] = x]: past the end the array grows and leaves holes. *)
Definition setAt (c : nat) (x : Cell) (row : Row) : Row :=
  if (c <? length row)%nat then <[c := Some x]> row
  else row ++ replicate (c - length row) None ++ [Some x].

(** [s.rows[r][c] = x]. *)
Definition writeCell (key : string) (r c : nat) (x : Cell) : Engine unit :=
  s <- getSheet key ;;
  match rows s !! r with
  | Some _ => setRows key (fun g => alter (setAt c x) r g)
  | None => throw TypeError
  end.

(** A new array holding [l]. *)
Definition alloc (l : list CellProvenance) : Engine ref :=
  fun st => Ok (length (provStore st)) (setStore (fun h => h ++ [l]) st).

(** [array.push(...l)] on the array at [a]. *)
Definition pushAll (a : ref) (l : list CellProvenance) : Engine unit :=
  modify (setStore (alter (fun old => old ++ l) a)).

(** [{ ...s.rows[r][c] }]: a shallow copy, which shares the provenance
    array of the original; spreading [undefined] gives an empty object. *)
Definition copyCell (o : option Cell) : Cell :=
  match o with
  | Some x => x
  | None => emptyCell
  end.

(** The two loops of [snapshot]: the rows [r1..r2] by the columns
    [c1..c2].  [ensureSize] has made every row up to [r2] exist, so
    [s.rows[r]] cannot be missing here. *)
Definition snapshotRows (g : list Row) (range : RangeRef) : list (list Cell) :=
  map (fun r => map (fun c => copyCell (cellAt g r c)) (upto (c1 range) (c2 range)))
      (upto (r1 range) (r2 range)).

Definition snapshot (range : RangeRef) : Engine (list (list Cell)) :=
  _ <- getSheet (sheet range) ;;
  ensureSize (sheet range) (r2 range + 1) (c2 range + 1) ;;;
  s <- getSheet (sheet range) ;;
  ret (snapshotRows (rows s) range).

(** ** Events and checkpoints *)

Definition appendEvent (op : string) (args : Args) (inverse : string * Args)
    (summary : string) : Engine SheetEvent :=
  let ev := {| op := op; args := args; inverse := inverse; summary := summary |} in
  modify (setEvents (fun es => es ++ [ev])) ;;;
  ret ev.

Definition checkpoint (id : string) : Engine Checkpoint :=
  st <- get ;;
  let cp := {| id := id; atEvent := length (events (wb st)) |} in
  modify (setCheckpoints (fun cps => cps ++ [cp])) ;;;
  ret cp.

(** ** [SheetModel]: the operations *)

Definition createSheet (name : string) : Engine unit :=
  st <- get ;;
  if mapHas name (sheets (wb st)) then throw (Error "Sheet exists")
  else
    modify (setSheets (mapSet name {| name := name; rows := [] |})) ;;;
    appendEvent "createSheet" (ArgsName name) ("deleteSheet", ArgsName name)
                ("create " ++ name) ;;;
    ret tt.

Definition deleteSheet (name : string) : Engine unit :=
  s <- getSheet name ;;
  modify (setSheets (mapDelete name)) ;;;
  appendEvent "deleteSheet" (ArgsName name) ("restoreSheet", ArgsSheet s)
              ("delete " ++ name) ;;;
  ret tt.

Definition restoreSheet (sheet : Sheet) : Engine unit :=
  modify (setSheets (mapSet (name sheet) sheet)) ;;;
  appendEvent "restoreSheet" (ArgsSheet sheet) ("deleteSheet", ArgsName (name sheet))
              ("restore " ++ name sheet) ;;;
  ret tt.

(** [s.rows[rr][cc] ?? { value: null }]. *)
Definition orEmpty (o : option Cell) : Cell :=
  match o with
  | Some x => x
  | None => emptyCell
  end.

Definition setValues (range : RangeRef) (values : list (list CellValue))
    (prov : option (list CellProvenance)) : Engine unit :=
  before <- snapshot range ;;
  _ <- getSheet (sheet range) ;;
  ensureSize (sheet range) (r2 range + 1) (c2 range + 1) ;;;
  forEachI values (fun r vs =>
    forEachI vs (fun c v =>
      let rr := (r1 range + r)%nat in
      let cc := (c1 range + c)%nat in
      o <- readCell (sheet range) rr cc ;;
      let prev := orEmpty o in
      p <- match prov with
           | Some l => a <- alloc l ;; ret (Some a)
           | None => ret (provenance prev)
           end ;;
      writeCell (sheet range) rr cc
        {| value := v; formula := None; provenance := p; format := format prev |})) ;;;
  appendEvent "setValues" (ArgsValues range values prov)
              ("setCells", ArgsCells range before)
              ("setValues " ++ sheet range ++ "!"
                 ++ rcToA1 (Z.of_nat (r1 range)) (Z.of_nat (c1 range))) ;;;
  ret tt.

Definition setCells (range : RangeRef) (cells : list (list Cell)) : Engine unit :=
  _ <- getSheet (sheet range) ;;
  ensureSize (sheet range) (r2 range + 1) (c2 range + 1) ;;;
  forEachI cells (fun r xs =>
    forEachI xs (fun c x =>
      writeCell (sheet range) (r1 range + r) (c1 range + c) x)) ;;;
  appendEvent "setCells" (ArgsCells range cells) ("noop", ArgsEmpty) "setCells" ;;;
  ret tt.

Definition setFormulas (range : RangeRef) (formulas : list (list (option string))) : Engine unit :=
  before <- snapshot range ;;
  _ <- getSheet (sheet range) ;;
  ensureSize (sheet range) (r2 range + 1) (c2 range + 1) ;;;
  forEachI formulas (fun r fs =>
    forEachI fs (fun c f =>
      let rr := (r1 range + r)%nat in
      let cc := (c1 range + c)%nat in
      o <- readCell (sheet range) rr cc ;;
      let prev := orEmpty o in
      writeCell (sheet range) rr cc
        {| value := VNull; formula := f;
           provenance := provenance prev; format := format prev |})) ;;;
  appendEvent "setFormulas" (ArgsFormulas range formulas)
              ("setCells", ArgsCells range before)
              ("setFormulas " ++ sheet range ++ "!"
                 ++ rcToA1 (Z.of_nat (r1 range)) (Z.of_nat (c1 range))) ;;;
  ret tt.

Definition formatRange (range : RangeRef) (fmt : option string) : Engine unit :=
  before <- snapshot range ;;
  _ <- getSheet (sheet range) ;;
  ensureSize (sheet range) (r2 range + 1) (c2 range + 1) ;;;
  forEach (upto (r1 range) (r2 range)) (fun r =>
    forEach (upto (c1 range) (c2 range)) (fun c =>
      o <- readCell (sheet range) r c ;;
      let prev := orEmpty o in
      writeCell (sheet range) r c
        {| value := value prev; formula := formula prev;
           provenance := provenance prev; format := fmt |})) ;;;
  appendEvent "formatRange" (ArgsFormat range fmt)
              ("setCells", ArgsCells range before)
              ("formatRange " ++ sheet range ++ " "
                 ++ match fmt with Some f => f | None => "clear" end) ;;;
  ret tt.

(** [linkProvenance]: an absent provenance array is created on the cell, then
    the entries are pushed onto the cell's array, in place. *)
Definition linkProvenance (range : RangeRef) (prov : list CellProvenance) : Engine unit :=
  before <- snapshot range ;;
  _ <- getSheet (sheet range) ;;
  forEach (upto (r1 range) (r2 range)) (fun r =>
    forEach (upto (c1 range) (c2 range)) (fun c =>
      o <- readCell (sheet range) r c ;;
      match o with
      | None => throw TypeError
      | Some cell =>
          match provenance cell with
          | Some a => pushAll a prov
          | None =>
              a <- alloc [] ;;
              writeCell (sheet range) r c
                {| value := value cell; formula := formula cell;
                   provenance := Some a; format := format cell |} ;;;
              pushAll a prov
          end
      end)) ;;;
  appendEvent "linkProvenance" (ArgsProv range (Some prov) None)
              ("setCells", ArgsCells range before)
              ("linkProvenance " ++ sheet range) ;;;
  ret tt.

(** ** [dispatch] and [undo] *)

(** The [switch] of [dispatch].  An argument object of another shape than
    the case reads is outside the embedding ([unmodelled]). *)
Definition dispatch (op : string) (args : Args) (internal : bool) : Engine unit :=
  if String.eqb op "createSheet" then
    match args with ArgsName n => createSheet n | _ => unmodelled end
  else if String.eqb op "deleteSheet" then
    match args with ArgsName n => deleteSheet n | _ => unmodelled end
  else if String.eqb op "restoreSheet" then
    match args with ArgsSheet s => restoreSheet s | _ => unmodelled end
  else if String.eqb op "setValues" then
    match args with ArgsValues r vs p => setValues r vs p | _ => unmodelled end
  else if String.eqb op "setFormulas" then
    match args with ArgsFormulas r fs => setFormulas r fs | _ => unmodelled end
  else if String.eqb op "formatRange" then
    match args with ArgsFormat r f => formatRange r f | _ => unmodelled end
  else if String.eqb op "setCells" then
    match args with ArgsCells r cs => setCells r cs | _ => unmodelled end
  else if String.eqb op "linkProvenance" then
    match args with
    | ArgsProv r (Some p) _ => linkProvenance r p
    | ArgsProv r None (Some p) => linkProvenance r p
    | ArgsProv r None None => linkProvenance r []
    | _ => unmodelled
    end
  else if String.eqb op "noop" then ret tt
  else if internal then ret tt
  else throw (Error ("Unknown op " ++ op)).

(** The operation names that have a case in [dispatch]. *)
Definition knownOps : list string :=
  ["createSheet"; "deleteSheet"; "restoreSheet"; "setValues"; "setFormulas";
   "formatRange"; "setCells"; "linkProvenance"; "noop"]%string.

(** [undo]: [events.pop()], then the inverse is dispatched in internal
    mode (which appends an event of its own). *)
Definition undo : Engine (option SheetEvent) :=
  st <- get ;;
  match rev (events (wb st)) with
  | [] => ret None
  | ev :: before =>
      modify (setEvents (fun _ => rev before)) ;;;
      dispatch (fst (inverse ev)) (snd (inverse ev)) true ;;;
      ret (Some ev)
  end.

(** [new SheetModel()]. *)
Definition emptyModel : Model :=
  {| wb := {| sheets := []; checkpoints := []; events := [] |}; provStore := [] |}.

Definition newSheetModel : Engine unit :=
  createSheet "Sheet1" ;;; checkpoint "init" ;;; ret tt.

(** [getProvenance]'s [cell.provenance ?? []], read through the store. *)
Definition provOf (st : Model) (x : Cell) : list CellProvenance :=
  match provenance x with
  | Some a => default [] (provStore st !! a)
  | None => []
  end.

(** The cell at a position of a sheet, if the sheet and the cell exist. *)
Definition lookupCell (st : Model) (key : string) (r c : nat) : option Cell :=
  match mapGet key (sheets (wb st)) with
  | Some s => cellAt (rows s) r c
  | None => None
  end.

(** ** The formula evaluator *)

(** The two regular-expression rewrites of [evaluateCell] cut the
    expression into pieces: text that stays, and matches handed to the
    callback. *)
Inductive piece :=
| Lit (t : text)
| Hit (t : text).

(** A match of [/SUM\(\s*([^)]+?)\s*\)/i] at the head of [l]: the captured
    group and the length of the match.  Between ["SUM("] and the next [")"]
    there must be at least one character; the greedy [\s*] and the lazy
    group leave the trimmed text in the group, or, when the text is all
    white space, its last character. *)
Definition matchSumAt (l : text) : option (text * nat) :=
  match l with
  | s :: u :: m :: p :: rest =>
      if eqc (toUpper s) "S" && eqc (toUpper u) "U" && eqc (toUpper m) "M"
         && eqc p "("
      then
        let '(x, after) := span (fun a => negb (eqc a ")")) rest in
        match after, rev x with
        | _ :: _, lastc :: _ =>
            let t := trim x in
            Some (match t with [] => [lastc] | _ :: _ => t end,
                  (4 + length x + 1)%nat)
        | _, _ => None
        end
      else None
  | _ => None
  end.

(** The matches of the global [SUM] pattern, left to right; [skip] counts
    the characters of the current match still to pass over. *)
Fixpoint findSums (l : text) (skip : nat) : list piece :=
  match l with
  | [] => []
  | a :: l' =>
      match skip with
      | S k => findSums l' k
      | O =>
          match matchSumAt l with
          | Some (g, len) => Hit g :: findSums l' (len - 1)
          | None => Lit [a] :: findSums l' 0
          end
      end
  end.

(** The matches of the global [/\b([A-Za-z]+[0-9]+)\b/]: a maximal run of
    word characters that is letters followed by digits.  [prevWord] tells
    whether the character before [l] is a word character. *)
Fixpoint findRefs (l : text) (prevWord : bool) (skip : nat) : list piece :=
  match l with
  | [] => []
  | a :: l' =>
      match skip with
      | S k => findRefs l' true k
      | O =>
          if negb prevWord && isAlpha a then
            let w := fst (span isWord l) in
            if isRef w then Hit w :: findRefs l' true (length w - 1)
            else Lit [a] :: findRefs l' true 0
          else Lit [a] :: findRefs l' (isWord a) 0
      end
  end.

(** What [Function(`"use strict"; return (${expr})`)()] does with an
    expression text.  The text is a formula with its [SUM] calls and its
    references replaced by numbers and is otherwise handed over as it is
    written, so it can be any JavaScript program.  When all the evaluation
    does is give back a value, that is a number, or a value of another type
    with what [Number(val)] makes of it ([None] when that conversion
    throws).  [JEscapes] stands for every other evaluation: one that does
    not return, one that has an effect on the engine or on the workbook
    (it can reach both through the global objects), and one whose result
    is not a function of the text. *)
Inductive JsValue :=
| JNumber (n : float)
| JOther (asNumber : option float)
| JEscapes.

(** The JavaScript engine under the evaluator: [Number(s)] on a string,
    [String(n)] on a number, and the evaluation of an expression text
    ([None] when all it does is throw).  The engine is not code of the
    repository. *)
Class Runtime := mkRuntime {
  Number_of_string : string -> float;
  String_of_number : float -> string;
  jsEval : string -> option JsValue
}.

(** The key [`${sheet}:${r}:${c}`] of the cycle-detection set, kept as the
    triple it prints (the printing is one-to-one within an evaluation pass,
    where the sheet is fixed). *)
Definition Key := (string * Z * Z)%type.
Definition Seen := gset Key.

(** The evaluator works on the model and the [seen] set of its pass. *)
Definition EV := M (Model * Seen).

Definition liftE {A} (m : Engine A) : EV A :=
  fun '(st, seen) =>
    match m st with
    | Ok a st' => Ok a (st', seen)
    | Throw e st' => Throw e (st', seen)
    | Unmodelled st' => Unmodelled (st', seen)
    end.

Definition hasSeen (k : Key) : EV bool :=
  fun '(st, seen) => Ok (bool_decide (k ∈ seen)) (st, seen).

Definition addSeen (k : Key) : EV unit :=
  fun '(st, seen) => Ok tt (st, {[ k ]} ∪ seen).

(** [getCell]: the sheet is grown to hold the cell first.  [rows[-1]] is
    [undefined], so a negative row throws a [TypeError]; a negative column
    reads [undefined]. *)
Definition getCell (sheet : string) (r c : Z) : Engine (option Cell) :=
  ensureSize sheet (Z.to_nat (r + 1)) (Z.to_nat (c + 1)) ;;;
  s <- getSheet sheet ;;
  if r <? 0 then throw TypeError
  else
    match rows s !! Z.to_nat r with
    | None => throw TypeError
    | Some row =>
        if c <? 0 then ret None
        else ret (cellAt (rows s) (Z.to_nat r) (Z.to_nat c))
    end.

Definition startsWithEq (l : text) : bool :=
  match l with
  | a :: _ => eqc a "="
  | [] => false
  end.

(** [(a, x) => a + x] folded from [init], with an effect per element. *)
Fixpoint foldM {St A B} (f : B -> A -> M St B) (l : list A) (init : B) : M St B :=
  match l with
  | [] => ret init
  | x :: l' => b <- f init x ;; foldM f l' b
  end.

(** [for (i = lo; i <= hi; i++)] on integers. *)
Definition uptoZ (lo hi : Z) : list Z := seqZ lo (hi - lo + 1).

Definition str (t : text) : string := string_of_list_ascii t.
Definition txt (s : string) : text := list_ascii_of_string s.

Section Evaluator.

Context {rt : Runtime}.

(** The methods below call [evaluateCell] recursively; [rec] is that
    call. *)
Variable rec : string -> Z -> Z -> EV CellValue.

Definition evalRef (sheet : string) (a1 : text) : EV float :=
  match a1ToRc_text a1 with
  | None => throw (Error ("Bad A1 ref: " ++ str a1))
  | Some (r, c) =>
      v <- rec sheet r c ;;
      ret (match v with
           | VNum n => n
           | VNull => 0%float
           | VStr s =>
               let n := Number_of_string s in
               if is_nan n then 0%float else n
           end)
  end.

Definition sumRange (sheet : string) (a1range : text) : EV float :=
  match matchRange a1range with
  | None => ret 0%float
  | Some (l1, d1, l2, d2) =>
      match a1ToRc_text (l1 ++ d1), a1ToRc_text (l2 ++ d2) with
      | Some (ar, ac), Some (br, bc) =>
          foldM (fun total r =>
            foldM (fun total c =>
              v <- rec sheet r c ;;
              let n := match v with
                       | VNum n => n
                       | VNull => 0%float
                       | VStr s => Number_of_string s
                       end in
              ret (if is_nan n then total else (total + n)%float))
              (uptoZ (Z.min ac bc) (Z.max ac bc)) total)
            (uptoZ (Z.min ar br) (Z.max ar br)) 0%float
      | None, _ => throw (Error ("Bad A1 ref: " ++ str (l1 ++ d1)))
      | _, None => throw (Error ("Bad A1 ref: " ++ str (l2 ++ d2)))
      end
  end.

Definition sumTerm (sheet : string) (term : text) : EV float :=
  let term := trim term in
  if isRange term then sumRange sheet term
  else if isRef term then evalRef sheet term
  else
    let n := Number_of_string (str (removeAll "," term)) in
    ret (if is_finite n then n else 0%float).

Definition sumArgs (sheet : string) (args : text) : EV float :=
  ns <- mapM (sumTerm sheet) (splitOn "," args) ;;
  ret (fold_left PrimFloat.add ns 0%float).

(** [expr.replace(pattern, callback)] over the pieces of [expr]. *)
Definition replacePieces (ps : list piece) (callback : text -> EV text) : EV text :=
  ts <- mapM (fun p => match p with
                       | Lit t => ret t
                       | Hit t => callback t
                       end) ps ;;
  ret (concat ts).

(** The [try] block: a number stays, another value goes through
    [Number(val) || 0], a throw gives ["#ERROR!"].  An evaluation that
    escapes is where the embedding stops: what the call does from there on
    is not modelled. *)
Definition evalExpr (expr : text) : EV CellValue :=
  match jsEval (str expr) with
  | Some (JNumber n) => ret (VNum n)
  | Some (JOther (Some n)) => ret (VNum (if is_nan n || is_zero n then 0%float else n))
  | Some (JOther None) | None => ret (VStr "#ERROR!")
  | Some JEscapes => unmodelled
  end.

Definition evaluateCell_body (sheet : string) (r c : Z) : EV CellValue :=
  let key : Key := (sheet, r, c) in
  b <- hasSeen key ;;
  if b then ret (VStr "#REF!")
  else
    addSeen key ;;;
    o <- liftE (getCell sheet r c) ;;
    match o with
    | None => throw TypeError
    | Some cell =>
        match formula cell with
        | None | Some EmptyString => ret (value cell)
        | Some ftext =>
            let f := trim (txt ftext) in
            if negb (startsWithEq f) then ret (value cell)
            else
              let expr := drop 1 f in
              expr <- replacePieces (findSums expr 0)
                        (fun args => n <- sumArgs sheet args ;;
                                     ret (txt (String_of_number n))) ;;
              expr <- replacePieces (findRefs expr false 0)
                        (fun a1 => n <- evalRef sheet a1 ;;
                                   ret (txt (String_of_number n))) ;;
              evalExpr expr
        end
    end.

End Evaluator.

(** [evaluateCell]: the recursion of the evaluator, cut at [fuel] nested
    calls. *)
Fixpoint evaluateCell {rt : Runtime} (fuel : nat) (sheet : string) (r c : Z) : EV CellValue :=
  match fuel with
  | O => unmodelled
  | S f => evaluateCell_body (evaluateCell f) sheet r c
  end.

(** A top-level call, [evaluateCell(sheet, r, c, new Set())]: the set is
    dropped when the call is over. *)
Definition evaluateTop {rt : Runtime} (fuel : nat) (sheet : string) (r c : Z) : Engine CellValue :=
  fun st =>
    match evaluateCell fuel sheet r c (st, ∅) with
    | Ok v (st', _) => Ok v st'
    | Throw e (st', _) => Throw e st'
    | Unmodelled (st', _) => Unmodelled st'
    end.

(** The two index loops of [evaluateAll] on the sheet under [key]: the
    lengths are read again at every turn, so cells added by an evaluation
    are visited too.  [turns] bounds the turns of the loops, [fuel] the
    nested calls of each evaluation. *)
Fixpoint evaluateSheet {rt : Runtime} (fuel turns : nat) (key : string) (r c : nat) : Engine unit :=
  match turns with
  | O => unmodelled
  | S t =>
      s <- getSheet key ;;
      match rows s !! r with
      | None => ret tt
      | Some row =>
          if (c <? length row)%nat then
            evaluateTop fuel (name s) (Z.of_nat r) (Z.of_nat c) ;;;
            evaluateSheet fuel t key r (S c)
          else evaluateSheet fuel t key (S r) 0
      end
  end.

Definition evaluateAll {rt : Runtime} (fuel : nat) : Engine unit :=
  st <- get ;;
  forEach (map fst (sheets (wb st))) (fun key => evaluateSheet fuel fuel key 0 0).

(** ** The plan executor ([executePlan]) *)

(** A range as a plan writes it: [r2] and [c2] may come under the legacy
    names [r3] and [c3]. *)
Record PlanRange := mkPlanRange {
  p_sheet : string;
  p_r1 : nat; p_c1 : nat;
  p_r2 : option nat; p_c2 : option nat;
  p_r3 : option nat; p_c3 : option nat
}.

Inductive PlanArgs :=
| PName (name : string)
| PValues (range : PlanRange) (values : list (list CellValue))
          (provenance : option (list CellProvenance))
| PFormulas (range : PlanRange) (formulas : list (list (option string)))
| PFormat (range : PlanRange) (format : option string)
| PProv (range : PlanRange) (prov provenance : option (list CellProvenance))
| PEmpty.

Record PlanStep := mkStep {
  step_op : string;
  step_args : PlanArgs;
  explain : option string
}.

Record Plan := mkPlan {
  steps : list PlanStep
}.

(** [JSON.parse(JSON.stringify(v))] on a cell value: a number that is not
    finite comes back as [null], and [-0] as [0]. *)
Definition jsonValue (v : CellValue) : CellValue :=
  match v with
  | VNum n => if is_finite n then (if is_zero n then VNum 0%float else VNum n) else VNull
  | _ => v
  end.

(** The renaming of [r3] to [r2] and of [c3] to [c2]; a range that is left
    without [r2] or [c2] is not a [RangeRef]. *)
Definition sanitizeRange (p : PlanRange) : option RangeRef :=
  let r2' := match p_r2 p with Some x => Some x | None => p_r3 p end in
  let c2' := match p_c2 p with Some x => Some x | None => p_c3 p end in
  match r2', c2' with
  | Some x, Some y =>
      Some {| sheet := p_sheet p; r1 := p_r1 p; c1 := p_c1 p; r2 := x; c2 := y |}
  | _, _ => None
  end.

Definition sanitizeArgs (a : PlanArgs) : option Args :=
  match a with
  | PName n => Some (ArgsName n)
  | PValues r vs p =>
      r' ← sanitizeRange r; Some (ArgsValues r' (map (map jsonValue) vs) p)
  | PFormulas r fs => r' ← sanitizeRange r; Some (ArgsFormulas r' fs)
  | PFormat r f => r' ← sanitizeRange r; Some (ArgsFormat r' f)
  | PProv r p q => r' ← sanitizeRange r; Some (ArgsProv r' p q)
  | PEmpty => Some ArgsEmpty
  end.

(** The body of the [try]: sanitize, then dispatch (not in internal mode). *)
Definition runStep (step : PlanStep) : Engine unit :=
  match sanitizeArgs (step_args step) with
  | Some a => dispatch (step_op step) a false
  | None => unmodelled
  end.

(** [{ ...step, explain: `FAILED: ${message}` }]. *)
Definition failed (step : PlanStep) (m : string) : PlanStep :=
  {| step_op := step_op step; step_args := step_args step;
     explain := Some ("FAILED: " ++ m)%string |}.

(** The [for] loop with its [try]/[catch]/[break].  A step that fails with
    a [TypeError] is annotated with the engine's text: the embedding stops
    there. *)
Fixpoint planLoop (todo executed : list PlanStep) : Engine (list PlanStep) :=
  match todo with
  | [] => ret executed
  | step :: rest =>
      fun st =>
        match runStep step st with
        | Ok _ st' => planLoop rest (executed ++ [step]) st'
        | Throw err st' =>
            match message err with
            | Some m => Ok (executed ++ [failed step m]) st'
            | None => Unmodelled st'
            end
        | Unmodelled st' => Unmodelled st'
        end
  end.

Definition executePlan {rt : Runtime} (fuel : nat) (plan : Plan) : Engine (list PlanStep) :=
  executed <- planLoop (steps plan) [] ;;
  evaluateAll fuel ;;;
  checkpoint "agent" ;;;
  ret executed.

(** ** A sample engine for closed examples

    [sampleRuntime] agrees with JavaScript on the texts the examples of
    this file hand to it: [Number] on an unsigned decimal integer below
    [2^53], on the empty text and on a text that is no numeric literal
    (["x"], ["#REF!"]); [String] on an integer below [2^53]; the evaluation
    of a sum of unsigned decimal integers.  Every other expression text is
    left to [JEscapes]: the sample says nothing of it.  Theorems about the
    evaluator hold for every [Runtime]; the sample only instantiates
    them. *)

Definition floatOfZ (z : Z) : float := PrimFloat.of_uint63 (Uint63.of_Z z).

Definition sampleNumber (s : string) : float :=
  let t := trim (txt s) in
  match t with
  | [] => 0%float
  | _ :: _ => if forallb isDigit t then floatOfZ (parseInt t) else nan
  end.

Definition sampleString (n : float) : string :=
  match Prim2SF n with
  | S754_zero _ => "0"
  | S754_nan => "NaN"
  | S754_infinity false => "Infinity"
  | S754_infinity true => "-Infinity"
  | S754_finite sg m e =>
      let z := if 0 <=? e then Z.pos m * 2 ^ e else Z.pos m / 2 ^ (- e) in
      str (decimalOf (if sg then - z else z))
  end.

Definition sampleEval (s : string) : option JsValue :=
  let parts := splitOn "+" (txt s) in
  if forallb (fun p => match p with [] => false | _ :: _ => forallb isDigit p end) parts
  then Some (JNumber (fold_left (fun acc p => (acc + floatOfZ (parseInt p))%float)
                                (tail parts) (floatOfZ (parseInt (hd [] parts)))))
  else Some JEscapes.

Definition sampleRuntime : Runtime :=
  {| Number_of_string := sampleNumber;
     String_of_number := sampleString;
     jsEval := sampleEval |}.

(** Cells and one-sheet models for the examples. *)
Definition literal (v : CellValue) : Cell :=
  {| value := v; formula := None; provenance := None; format := None |}.

Definition withFormula (f : string) : Cell :=
  {| value := VNull; formula := Some f; provenance := None; format := None |}.

Definition oneSheet (g : list Row) : Model :=
  {| wb := {| sheets := [("Sheet1"%string, {| name := "Sheet1"; rows := g |})];
              checkpoints := []; events := [] |};
     provStore := [] |}.

(** ** Relations between the state before and after a call *)

(** [keeps R m]: whatever [m] does from a state (return, throw or leave the
    embedding), the state it leaves is [R]-related to the one it started
    from. *)
Definition keeps {St A} (R : St -> St -> Prop) (m : M St A) : Prop :=
  forall s, R s (stateOf (m s)).

(** A relation on models, read on the model of an evaluator state. *)
Definition onModel (R : Model -> Model -> Prop) (p q : Model * Seen) : Prop :=
  R (fst p) (fst q).

(** The state in which the rows of the sheet under [key] are [f] of what
    they were. *)
Definition withRows (key : string) (f : list Row -> list Row) (st : Model) : Model :=
  setSheets (fun m =>
    match mapGet key m with
    | Some s => mapSet key {| name := name s; rows := f (rows s) |} m
    | None => m
    end) st.

(** [g'] is [g] with empty cells appended to rows and rows of empty cells
    appended to the grid. *)
Definition grownRows (g g' : list Row) : Prop :=
  (length g <= length g')%nat /\
  (forall r row, g !! r = Some row ->
     exists ext, g' !! r = Some (row ++ ext) /\ Forall (eq (Some emptyCell)) ext) /\
  (forall r row', g !! r = None -> g' !! r = Some row' ->
     Forall (eq (Some emptyCell)) row').

(** [st'] is [st] up to growth of its sheets: the same log, checkpoints and
    provenance store, the same sheets under the same keys in the same
    order, each with its rows grown. *)
Definition grown (st st' : Model) : Prop :=
  events (wb st') = events (wb st) /\
  checkpoints (wb st') = checkpoints (wb st) /\
  provStore st' = provStore st /\
  map fst (sheets (wb st')) = map fst (sheets (wb st)) /\
  forall key,
    match mapGet key (sheets (wb st)), mapGet key (sheets (wb st')) with
    | Some s, Some s' => name s' = name s /\ grownRows (rows s) (rows s')
    | None, None => True
    | _, _ => False
    end.

(** The position [(r, c)] of the sheet under [key] holds the literal [v]:
    a cell with that value and no formula, or, for [null], no cell at all
    (a position past the end of its row or of the grid; not a hole). *)
Definition holdsLiteral (st : Model) (key : string) (r c : nat) (v : CellValue) : Prop :=
  match mapGet key (sheets (wb st)) with
  | None => False
  | Some s =>
      match rows s !! r with
      | None => v = VNull
      | Some row =>
          match row !! c with
          | None => v = VNull
          | Some None => False
          | Some (Some x) => value x = v /\ formula x = None
          end
      end
  end.

(** ** Frames *)

(** A set of positions: sheet key, row, column. *)
Definition Positions := string -> nat -> nat -> Prop.

(** [st'] differs from [st] at most at the positions [W]: every other cell
    of [st] is the same cell in [st'] (same value, formula, format and
    provenance array), every other cell of [st'] is a cell of [st] or an
    empty cell added by growth, and every provenance array of [st] holds the
    same entries in [st']. *)
Definition frame (W : Positions) (st st' : Model) : Prop :=
  (forall key r c x, ~ W key r c ->
     lookupCell st key r c = Some x -> lookupCell st' key r c = Some x) /\
  (forall key r c x, ~ W key r c ->
     lookupCell st' key r c = Some x ->
     lookupCell st key r c = Some x \/ x = emptyCell) /\
  (forall a l, provStore st !! a = Some l -> provStore st' !! a = Some l).

(** Provenance is only added to: every cell of [st] is still there in
    [st'], and its provenance list in [st] is a prefix of its list in
    [st']. *)
Definition additive (st st' : Model) : Prop :=
  forall key r c x,
    lookupCell st key r c = Some x ->
    exists x', lookupCell st' key r c = Some x' /\
               provOf st x `prefix_of` provOf st' x'.

(** The positions [setValues], [setFormulas] and [setCells] write: the
    offsets of the entries of the data array from the top-left corner of
    the range. *)
Definition written {A} (range : RangeRef) (data : list (list A)) : Positions :=
  fun key r c =>
    key = sheet range /\
    exists i j row, data !! i = Some row /\ (j < length row)%nat /\
                    r = (r1 range + i)%nat /\ c = (c1 range + j)%nat.

(** The rectangle of a range. *)
Definition inRange (range : RangeRef) : Positions :=
  fun key r c =>
    key = sheet range /\ (r1 range <= r <= r2 range)%nat
    /\ (c1 range <= c <= c2 range)%nat.

(** ** Models for the examples on provenance and undo *)

Definition doc (d : string) : CellProvenance :=
  {| docId := d; snippet := None; rationale := None |}.

Definition cellA1 : RangeRef :=
  {| sheet := "Sheet1"; r1 := 0; c1 := 0; r2 := 0; c2 := 0 |}.

(** [new SheetModel()], then [setValues] of [1] into [A1] with the
    provenance [[d1]]. *)
Definition stampedModel : Model :=
  stateOf ((newSheetModel ;;; setValues cellA1 [[VNum 1%float]] (Some [doc "d1"]))
             emptyModel).

(** A literal cell with a provenance array. *)
Definition literalWith (v : CellValue) (a : ref) : Cell :=
  {| value := v; formula := None; provenance := Some a; format := None |}.

(** The provenance list read at a position, if there is a cell. *)
Definition provAt (st : Model) (key : string) (r c : nat) : option (list CellProvenance) :=
  provOf st <$> lookupCell st key r c.

(** [n] calls of [undo()], one after the other; a call that throws leaves
    the state it has reached. *)
Fixpoint undoTimes (n : nat) (st : Model) : Model :=
  match n with
  | O => st
  | S k => undoTimes k (stateOf (undo st))
  end.

(** [stampedModel], a checkpoint, then [linkProvenance] of [[d2]] on
    [A1]. *)
Definition checkpointedModel : Model :=
  stateOf (checkpoint "cp" stampedModel).

Definition linkedModel : Model :=
  stateOf (linkProvenance cellA1 [doc "d2"] checkpointedModel).

(** A plan of three steps: a formula that refers to row 0, a write to a
    sheet that does not exist, and a write that is never reached. *)
Definition planRange (key : string) (r c : nat) : PlanRange :=
  {| p_sheet := key; p_r1 := r; p_c1 := c;
     p_r2 := Some r; p_c2 := Some c; p_r3 := None; p_c3 := None |}.

Definition rowZeroPlan : Plan :=
  {| steps :=
       [ {| step_op := "setFormulas";
            step_args := PFormulas (planRange "Sheet1" 0 0) [[Some "=A0"%string]];
            explain := None |};
         {| step_op := "setValues";
            step_args := PValues (planRange "Nope" 0 0) [[VNum 2%float]] None;
            explain := None |};
         {| step_op := "setValues";
            step_args := PValues (planRange "Sheet1" 1 0) [[VNum 3%float]] None;
            explain := None |} ] |}.

(** The model of [new SheetModel()]. *)
Definition freshModel : Model := stateOf (newSheetModel emptyModel).

(** The steps of a plan that all dispatch without failure, one after the
    other. *)
Fixpoint runSteps (todo : list PlanStep) (st : Model) : option Model :=
  match todo with
  | [] => Some st
  | step :: rest =>
      match runStep step st with
      | Ok _ st' => runSteps rest st'
      | _ => None
      end
  end.

(** ** Undo of one operation *)

(** [st'] has the log and the checkpoints of [st], and every sheet of [st]
    under its key with at least as many rows. *)
Definition sameLog (st st' : Model) : Prop :=
  events (wb st') = events (wb st) /\
  checkpoints (wb st') = checkpoints (wb st) /\
  forall key s, mapGet key (sheets (wb st)) = Some s ->
    exists s', mapGet key (sheets (wb st')) = Some s' /\
               (length (rows s) <= length (rows s'))%nat.

(** A data array is no larger than the rectangle of a range. *)
Definition fits {A} (range : RangeRef) (data : list (list A)) : Prop :=
  (length data <= r2 range + 1 - r1 range)%nat /\
  Forall (fun row => (length row <= c2 range + 1 - c1 range)%nat) data.

(** The shape the three range operations share: the pre-image of the range
    is taken, the sheet is sized, the loop of the operation runs, and the
    event is logged with [setCells] of the pre-image as its inverse. *)
Definition withPreImage (range : RangeRef) (loop : Engine unit)
    (op : string) (args : Args) (summary : string) : Engine unit :=
  before <- snapshot range ;;
  _ <- getSheet (sheet range) ;;
  ensureSize (sheet range) (r2 range + 1) (c2 range + 1) ;;;
  loop ;;;
  appendEvent op args ("setCells", ArgsCells range before) summary ;;;
  ret tt.

(** The sheet under [key] is there with at least [n] rows. *)
Definition hasRows (key : string) (n : nat) (st : Model) : Prop :=
  exists s, mapGet key (sheets (wb st)) = Some s /\ (n <= length (rows s))%nat.

(** [st'] has every cell of [st] (same value, formula, format, provenance
    array), every provenance array of [st] with the same entries, the same
    checkpoints, and the log of [st] followed by the event [ev]. *)
Definition restored (ev : SheetEvent) (st st' : Model) : Prop :=
  (forall key r c x, lookupCell st key r c = Some x -> lookupCell st' key r c = Some x) /\
  (forall a l, provStore st !! a = Some l -> provStore st' !! a = Some l) /\
  checkpoints (wb st') = checkpoints (wb st) /\
  events (wb st') = events (wb st) ++ [ev].

(** A plan of three steps whose second step fails on a missing sheet. *)
Definition stoppedPlan : Plan :=
  {| steps :=
       [ {| step_op := "setValues";
            step_args := PValues (planRange "Sheet1" 0 0) [[VNum 1%float]] None;
            explain := None |};
         {| step_op := "setValues";
            step_args := PValues (planRange "Nope" 0 0) [[VNum 2%float]] None;
            explain := None |};
         {| step_op := "setValues";
            step_args := PValues (planRange "Sheet1" 1 0) [[VNum 3%float]] None;
            explain := None |} ] |}.

(** ** The log *)

(** The operation names whose case in [dispatch] appends an event. *)
Definition loggingOps : list string :=
  ["createSheet"; "deleteSheet"; "restoreSheet"; "setValues"; "setFormulas";
   "formatRange"; "setCells"; "linkProvenance"]%string.

(** [st'] has the event log and the checkpoints of [st]. *)
Definition sameEvents (st st' : Model) : Prop :=
  events (wb st') = events (wb st) /\ checkpoints (wb st') = checkpoints (wb st).

(** What a call does to the log when it is the operation [o]: checkpoints
    are never touched; a call that returns has appended one event, named
    [o], whose inverse is an operation that [dispatch] knows; a call that
    does not return has left the log as it was. *)
Definition logs (o : string) (m : Engine unit) : Prop :=
  forall st,
    checkpoints (wb (stateOf (m st))) = checkpoints (wb st) /\
    match m st with
    | Ok _ st' =>
        exists ev, events (wb st') = events (wb st) ++ [ev] /\
                   op ev = o /\ fst (inverse ev) ∈ knownOps
    | Throw _ st' | Unmodelled st' => events (wb st') = events (wb st)
    end.

(** ** [getProvenance] *)

(** [getProvenance(sheet, a1)]: the reference is decoded, the cell is
    fetched through [getCell] (which grows the sheet to hold it), and its
    provenance array is returned, or [[]] when it has none. *)
Definition getProvenance (sheet : string) (a1 : string) : Engine (list CellProvenance) :=
  match a1ToRc a1 with
  | None => throw (Error ("Bad A1 ref: " ++ a1))
  | Some (r, c) =>
      o <- getCell sheet r c ;;
      match o with
      | None => throw TypeError
      | Some cell => st <- get ;; ret (provOf st cell)
      end
  end.

(** ** Formula cells *)

(** A cell that [evaluateCell] goes on to evaluate: its formula is there
    and is not the empty text. *)
Definition hasFormula (x : Cell) : bool :=
  match formula x with
  | Some (String _ _) => true
  | _ => false
  end.

(** The keys of the cells of the sheet under [key] that hold a formula. *)
Definition formulaKeys (st : Model) (key : string) : gset Key :=
  match mapGet key (sheets (wb st)) with
  | None => ∅
  | Some s =>
      list_to_set
        (concat (imap (fun r row =>
           concat (imap (fun c o =>
             match o with
             | Some x => if hasFormula x then [(key, Z.of_nat r, Z.of_nat c)] else []
             | None => []
             end) row)) (rows s)))
  end.

(** [o] is what [o'] is, unless it has left the embedding. *)
Definition refines {St A} (o o' : outcome St A) : Prop :=
  match o with
  | Unmodelled _ => True
  | _ => o = o'
  end.

(** The engine [rt] with every expression text that escapes made to throw
    instead. *)
Definition tame (rt : Runtime) : Runtime :=
  {| Number_of_string := Number_of_string;
     String_of_number := String_of_number;
     jsEval := fun s => match jsEval s with
                        | Some JEscapes => None
                        | o => o
                        end |}.

(** ** What a reference reads *)

(** The number that [evalRef] makes of the value of the cell referred to:
    a number stays, [null] is [0], a text goes through [Number], and [NaN]
    becomes [0]. *)
Definition refNumber {rt : Runtime} (v : CellValue) : float :=
  match v with
  | VNum n => n
  | VNull => 0%float
  | VStr s => let n := Number_of_string s in if is_nan n then 0%float else n
  end.

(** ** Workbooks without formulas *)

(** A row without holes whose cells hold no formula. *)
Definition plainRow (row : Row) : Prop :=
  Forall (fun o => exists x, o = Some x /\ hasFormula x = false) row.

(** Every sheet is stored under its own name, and its rows are plain. *)
Definition plain (st : Model) : Prop :=
  forall key s, mapGet key (sheets (wb st)) = Some s ->
    name s = key /\ Forall plainRow (rows s).

(** Every sheet has at most [N] rows of at most [L] cells. *)
Definition within (N L : nat) (st : Model) : Prop :=
  forall key s, mapGet key (sheets (wb st)) = Some s ->
    (length (rows s) <= N)%nat /\ Forall (fun row => (length row <= L)%nat) (rows s).

(** All rows have the same length. *)
Definition rectangular (g : list Row) : Prop :=
  forall row1 row2, row1 ∈ g -> row2 ∈ g -> length row1 = length row2.

(** The length of the longest row. *)
Definition widest (g : list Row) : nat := max_list (length <$> g).

(** A row filled with empty cells up to the length [w]. *)
Definition padRow (w : nat) (row : Row) : Row :=
  row ++ replicate (w - length row) (Some emptyCell).

(** Where the two loops of [evaluateAll] stand on a sheet without formulas,
    before the turn at row [r] and column [c]: no row is shorter than a row
    already passed, nor than the part of row [r] already passed. *)
Definition swept (r c : nat) (g : list Row) : Prop :=
  (forall r1 row1 row2, (r1 < r)%nat -> g !! r1 = Some row1 -> row2 ∈ g ->
     (length row1 <= length row2)%nat) /\
  (forall rowr row2, g !! r = Some rowr -> row2 ∈ g ->
     (c `min` length rowr <= length row2)%nat).

(** ** [loadFromJSON] *)

(** The workbook data of an import: for each sheet a name and rows of
    cells.  A row can be [null], and so can a cell or its value. *)
Record SheetData := mkSheetData {
  sd_name : string;
  sd_rows : list (option (list (option CellValue)))
}.

(** [{ value: cell?.value ?? null, formula: undefined, ... }]. *)
Definition loadCell (o : option CellValue) : Cell :=
  {| value := default VNull o; formula := None; provenance := None; format := None |}.

(** [(row || []).map(cell => ...)]. *)
Definition loadRow (o : option (list (option CellValue))) : Row :=
  map (fun c => Some (loadCell c)) (default [] o).

Definition loadSheet (s : SheetData) : Sheet :=
  {| name := sd_name s; rows := map loadRow (sd_rows s) |}.

(** [loadFromJSON]: the sheets are replaced by the sheets of the data (or by
    one empty [Sheet1] when there are none), the history is reset to one
    checkpoint, and the workbook is recomputed. *)
Definition loadFromJSON {rt : Runtime} (fuel : nat) (data : list SheetData) : Engine unit :=
  modify (setSheets (fun _ => [])) ;;;
  forEach data (fun s => modify (setSheets (mapSet (sd_name s) (loadSheet s)))) ;;;
  st <- get ;;
  (if (length (sheets (wb st)) =? 0)%nat then createSheet "Sheet1" else ret tt) ;;;
  modify (setEvents (fun _ => [])) ;;;
  modify (setCheckpoints (fun _ => [])) ;;;
  checkpoint "import" ;;;
  evaluateAll fuel.

(** The sheets that the loop of [loadFromJSON] builds. *)
Definition loadedSheets (data : list SheetData) : list (string * Sheet) :=
  fold_left (fun m s => mapSet (sd_name s) (loadSheet s) m) data [].

(** The model that [loadFromJSON] hands to the recomputation. *)
Definition loadedModel (data : list SheetData) (st : Model) : Model :=
  {| wb := {| sheets := match loadedSheets data with
                        | [] => [("Sheet1"%string, {| name := "Sheet1"; rows := [] |})]
                        | m => m
                        end;
              checkpoints := [{| id := "import"; atEvent := 0 |}];
              events := [] |};
     provStore := provStore st |}.

(** ** The parsed statements ([types.ts]) and their ingestion *)

Record Line := mkLine {
  line_name : string;
  line_values : list float
}.

Record Statement := mkStatement {
  title : string;
  periods : list string;
  lines : list Line;
  scale : option string;
  currency : option string
}.

(** [values.slice(0, n).concat(Array(Math.max(0, n - values.length)).fill(0))]
    ([parser.ts]). *)
Definition normalizeValues (n : nat) (vs : list float) : list float :=
  take n vs ++ replicate (n - length vs) 0%float.

(** [normalize] of [parseTenKToStructured]: every line is cut or padded to
    the number of periods. *)
Definition normalize (st : Statement) : Statement :=
  {| title := title st;
     periods := periods st;
     lines := map (fun l => {| line_name := line_name l;
                               line_values := normalizeValues (length (periods st))
                                                              (line_values l) |})
                  (lines st);
     scale := scale st;
     currency := currency st |}.

(** [try { model.deleteSheet(name) } catch {}]. *)
Definition tryDeleteSheet (n : string) : Engine unit :=
  fun st =>
    match deleteSheet n st with
    | Ok _ st' | Throw _ st' => Ok tt st'
    | Unmodelled st' => Unmodelled st'
    end.

(** The range of one row of a statement table: [{ sheet, r1: r, c1: 0,
    r2: r, c2: header.length - 1 }]. *)
Definition tableRow (n : string) (r ncols : nat) : RangeRef :=
  {| sheet := n; r1 := r; c1 := 0; r2 := r; c2 := ncols - 1 |}.

(** The ingestion of one statement into the sheet [n] ([index.ts],
    [/api/ingest-10k]): the sheet is made anew, the header row is written,
    then one row per line. *)
Definition ingestStatement (n : string) (s : Statement) : Engine unit :=
  let header := VStr "Line item" :: map VStr (periods s) in
  tryDeleteSheet n ;;;
  createSheet n ;;;
  setValues (tableRow n 0 (length header)) [header] None ;;;
  forEachI (lines s) (fun i l =>
    setValues (tableRow n (i + 1) (length header))
              [VStr (line_name l) :: map VNum (line_values l)] None).

(** ** [cleanToJsonString] ([agent.ts])

    The first replacement of the function removes a byte-order mark, a code
    unit that the texts of this embedding do not contain. *)

(** [/^```(?:json)?\s*/i] removed from the head of the text. *)
Definition stripOpeningFence (l : text) : text :=
  match l with
  | a :: b :: c :: rest =>
      if eqc a "`" && eqc b "`" && eqc c "`" then
        dropSpace
          match rest with
          | j :: s :: o :: n :: rest' =>
              if eqc (toUpper j) "J" && eqc (toUpper s) "S"
                 && eqc (toUpper o) "O" && eqc (toUpper n) "N"
              then rest' else rest
          | _ => rest
          end
      else l
  | _ => l
  end.

(** [/```$/i] removed from the end of the text. *)
Definition stripClosingFence (l : text) : text :=
  match rev l with
  | a :: b :: c :: rest =>
      if eqc a "`" && eqc b "`" && eqc c "`" then rev rest else l
  | _ => l
  end.

(** [cleanToJsonString] ([agent.ts]).  The byte-order mark that its first
    pattern removes is no ASCII character: on the texts of this embedding
    that pattern matches nothing. *)
Definition cleanToJsonString (raw : text) : text :=
  trim (stripClosingFence (stripOpeningFence raw)).

(** A text that starts and ends with a character that is no white space. *)
Definition trimmed (l : text) : Prop :=
  match l, rev l with
  | a :: _, b :: _ => isSpace a = false /\ isSpace b = false
  | _, _ => False
  end.

Definition fence : text := ["`"; "`"; "`"]%char.

(** ** What [linkProvenance] changes *)

(** The entries [prov], pushed [k] times. *)
Definition pushes (k : nat) (prov : list CellProvenance) : list CellProvenance :=
  concat (replicate k prov).

(** [st'] differs from [st] at most by the cells at the positions [W] and by
    pushes of [prov]: every other cell of [st] is the same cell in [st'],
    every other cell of [st'] is a cell of [st] or an empty cell added by
    growth, and every provenance array of [st] holds in [st'] the entries
    it had, followed by [prov] pushed some number of times. *)
Definition linked (W : Positions) (prov : list CellProvenance) (st st' : Model) : Prop :=
  (forall key r c x, ~ W key r c ->
     lookupCell st key r c = Some x -> lookupCell st' key r c = Some x) /\
  (forall key r c x, ~ W key r c ->
     lookupCell st' key r c = Some x ->
     lookupCell st key r c = Some x \/ x = emptyCell) /\
  (forall a l, provStore st !! a = Some l ->
     exists k, provStore st' !! a = Some (l ++ pushes k prov)).

(** No row of the sheet has a hole inside the rectangle. *)
Definition noHoles (range : RangeRef) (st : Model) : Prop :=
  forall s r row c,
    mapGet (sheet range) (sheets (wb st)) = Some s -> rows s !! r = Some row ->
    (r1 range <= r <= r2 range)%nat -> (c1 range <= c <= c2 range)%nat ->
    row !! c <> Some None.

(* ================================================================== *)
(** * Part II: theorems                                                 *)
(* ================================================================== *)

Example rcToA1_0_0 : rcToA1 0 0 = "A1"%string.
Proof. reflexivity. Qed.

Example rcToA1_0_26 : rcToA1 0 26 = "AA1"%string.
Proof. reflexivity. Qed.

Example rcToA1_701 : rcToA1 98 701 = "ZZ99"%string.
Proof. reflexivity. Qed.

Example a1ToRc_zz99 : a1ToRc "zz99" = Some (98, 701).
Proof. reflexivity. Qed.

Example a1ToRc_row0 : a1ToRc "A0" = Some (-1, 0).
Proof. reflexivity. Qed.

Example a1ToRc_bad : a1ToRc "A1:" = None.
Proof. reflexivity. Qed.

(** ** The A1 codec *)

Section Codec.

Lemma code_fromCharCode n : 0 <= n < 256 -> code (fromCharCode n) = n.
Proof.
  intros H. unfold code, fromCharCode.
  rewrite N_ascii_embedding; lia.
Qed.

Lemma span_app p x y :
  Forall (fun a => p a = true) x ->
  match y with [] => True | b :: _ => p b = false end ->
  span p (x ++ y) = (x, y).
Proof.
  intros Hx Hy. induction Hx as [|a x Ha _ IH]; simpl.
  - destruct y as [|b y]; [reflexivity|]. simpl. now rewrite Hy.
  - now rewrite Ha, IH.
Qed.

Lemma digitsLoop_acc fuel : forall n acc,
  digitsLoop fuel n acc = digitsLoop fuel n [] ++ acc.
Proof.
  induction fuel as [|f IH]; intros n acc; simpl; [reflexivity|].
  destruct (n <? 10); [reflexivity|].
  rewrite IH. rewrite (IH _ [_]). now rewrite <- app_assoc.
Qed.

Lemma digitChar_digit d :
  0 <= d < 10 -> isDigit (digitChar d) = true /\ code (digitChar d) - 48 = d.
Proof.
  intros H. unfold isDigit, between, digitChar. rewrite code_fromCharCode by lia.
  split; [|lia]. apply andb_true_intro; split; apply Z.leb_le; lia.
Qed.

Lemma digitsLoop_S f n acc :
  digitsLoop (S f) n acc =
  if n <? 10 then digitChar (n mod 10) :: acc
  else digitsLoop f (n / 10) (digitChar (n mod 10) :: acc).
Proof. reflexivity. Qed.

Lemma rcToA1_loop_S f n s :
  rcToA1_loop (S f) n s =
  if 0 <? n then rcToA1_loop f ((n - 1) / 26) (fromCharCode (65 + (n - 1) mod 26) :: s)
  else s.
Proof. reflexivity. Qed.

(** With enough fuel the digit loop prints the decimal digits of [n]:
    [parseInt] reads them back. *)
Lemma digitsLoop_spec fuel : forall n,
  0 <= n < 2 ^ Z.of_nat (S fuel) ->
  let ds := digitsLoop (S fuel) n [] in
  Forall (fun a => isDigit a = true) ds /\ ds <> [] /\ parseInt ds = n.
Proof.
  induction fuel as [|f IH]; intros n Hn;
    assert (Hd : 0 <= n mod 10 < 10) by (apply Z.mod_pos_bound; lia);
    destruct (digitChar_digit _ Hd) as [D1 D2];
    rewrite digitsLoop_S;
    destruct (Z.ltb_spec n 10) as [Hlt|Hge].
  1,3: repeat split; [by constructor | done |];
      unfold parseInt; simpl; rewrite D2; rewrite Z.mod_small; lia.
  - exfalso. change (2 ^ Z.of_nat 1) with 2 in Hn. lia.
  - rewrite digitsLoop_acc.
    assert (Hq : 0 <= n / 10 < 2 ^ Z.of_nat (S f)).
    { split; [apply Z.div_pos; lia|].
      rewrite (Nat2Z.inj_succ (S f)), Z.pow_succ_r in Hn by lia.
      apply Z.div_lt_upper_bound; lia. }
    destruct (IH _ Hq) as (F & NE & P).
    repeat split.
    + apply Forall_app; split; [exact F | by constructor].
    + intros E. apply app_eq_nil in E. destruct E; discriminate.
    + unfold parseInt in *. rewrite fold_left_app; cbn [fold_left]. rewrite P, D2.
      pose proof (Z.div_mod n 10). lia.
Qed.

Lemma bits_enough n :
  0 <= n -> exists f, bits n = S f /\ 0 <= n < 2 ^ Z.of_nat (S f).
Proof.
  intros H. exists (Z.to_nat (Z.log2 n)). split; [reflexivity|].
  split; [exact H|].
  rewrite Nat2Z.inj_succ, Z2Nat.id by apply Z.log2_nonneg.
  destruct (Z.eq_dec n 0) as [->|]; [reflexivity|].
  apply Z.log2_spec; lia.
Qed.

Lemma rcToA1_loop_acc fuel : forall n s,
  rcToA1_loop fuel n s = rcToA1_loop fuel n [] ++ s.
Proof.
  induction fuel as [|f IH]; intros n s; simpl; [reflexivity|].
  destruct (0 <? n); [|reflexivity].
  rewrite IH. rewrite (IH _ [_]). now rewrite <- app_assoc.
Qed.

Lemma letter_upper k :
  0 <= k < 26 ->
  isUpper (fromCharCode (65 + k)) = true /\ code (fromCharCode (65 + k)) - 64 = k + 1.
Proof.
  intros H. unfold isUpper, between. rewrite code_fromCharCode by lia.
  split; [|lia]. apply andb_true_intro; split; apply Z.leb_le; lia.
Qed.

(** With enough fuel the letter loop of [rcToA1] ends because [n] reaches
    [0], and its letters are the bijective base-26 numeral of [n]. *)
Lemma rcToA1_loop_spec fuel : forall n,
  0 <= n < 2 ^ Z.of_nat fuel ->
  let ls := rcToA1_loop fuel n [] in
  Forall (fun a => isUpper a = true) ls /\ (0 < n -> ls <> []) /\ colOf ls = n.
Proof.
  induction fuel as [|f IH]; intros n Hn.
  - change (2 ^ Z.of_nat 0) with 1 in Hn. assert (n = 0) by lia; subst.
    simpl. repeat split; [constructor | lia].
  - rewrite rcToA1_loop_S.
    destruct (Z.ltb_spec 0 n) as [Hpos|Hz].
    + assert (Hr : 0 <= (n - 1) mod 26 < 26) by (apply Z.mod_pos_bound; lia).
      destruct (letter_upper _ Hr) as [U1 U2].
      rewrite rcToA1_loop_acc.
      assert (Hq : 0 <= (n - 1) / 26 < 2 ^ Z.of_nat f).
      { split; [apply Z.div_pos; lia|].
        rewrite Nat2Z.inj_succ, Z.pow_succ_r in Hn by lia.
        apply Z.div_lt_upper_bound; lia. }
      destruct (IH _ Hq) as (F & _ & P).
      repeat split.
      * apply Forall_app; split; [exact F | by constructor].
      * intros _ E. apply app_eq_nil in E. destruct E; discriminate.
      * unfold colOf in *. rewrite fold_left_app; cbn [fold_left]. rewrite P, U2.
        pose proof (Z.div_mod (n - 1) 26). lia.
    + assert (n = 0) by lia; subst. simpl. repeat split; [constructor | lia].
Qed.

Lemma upper_alpha a : isUpper a = true -> isAlpha a = true.
Proof. unfold isAlpha. intros ->. reflexivity. Qed.

Lemma upper_toUpper a : isUpper a = true -> toUpper a = a.
Proof.
  unfold toUpper, isUpper, isLower, between. intros H.
  apply andb_prop in H as [H1 H2]. apply Z.leb_le in H1, H2.
  destruct (97 <=? code a) eqn:E; [apply Z.leb_le in E; lia|]. reflexivity.
Qed.

Lemma digit_not_alpha a : isDigit a = true -> isAlpha a = false.
Proof.
  unfold isAlpha, isUpper, isLower, isDigit, between. intros H.
  apply andb_prop in H as [H1 H2]. apply Z.leb_le in H1, H2.
  destruct (65 <=? code a) eqn:E1; [apply Z.leb_le in E1; lia|].
  destruct (97 <=? code a) eqn:E2; [apply Z.leb_le in E2; lia|]. reflexivity.
Qed.

Lemma matchRef_app ls ds :
  Forall (fun a => isAlpha a = true) ls -> ls <> [] ->
  Forall (fun a => isDigit a = true) ds -> ds <> [] ->
  matchRef (ls ++ ds) = Some (ls, ds).
Proof.
  intros Hl Hln Hd Hdn. unfold matchRef, matchA1.
  rewrite (span_app isAlpha ls ds Hl).
  2:{ destruct Hd as [|d ds' Hd0 _]; [done|]. simpl. now apply digit_not_alpha. }
  rewrite <- (app_nil_r ds) at 1. rewrite (span_app isDigit ds [] Hd I).
  destruct ls; [done|]. destruct ds; [done|]. reflexivity.
Qed.

Lemma map_toUpper_upper l :
  Forall (fun a => isUpper a = true) l -> map toUpper l = l.
Proof.
  induction 1 as [|a l Ha _ IH]; [reflexivity|]. simpl. now rewrite upper_toUpper, IH.
Qed.

Lemma a1ToRc_rcToA1 (r c : Z) :
  0 <= r -> 0 <= c -> a1ToRc (rcToA1 r c) = Some (r, c).
Proof.
  intros Hr Hc. unfold a1ToRc, rcToA1.
  rewrite list_ascii_of_string_of_list_ascii. unfold rcToA1_text, a1ToRc_text.
  destruct (bits_enough (c + 1)) as (fc & Ec & Bc); [lia|].
  destruct (bits_enough (r + 1)) as (fr & Er & Br); [lia|].
  destruct (rcToA1_loop_spec (bits (c + 1)) (c + 1)) as (LU & LN & LC).
  { rewrite Ec. exact Bc. }
  unfold decimalOf. destruct (Z.ltb_spec (r + 1) 0) as [?|_]; [lia|].
  rewrite Er. destruct (digitsLoop_spec fr (r + 1) Br) as (DD & DN & DP).
  rewrite matchRef_app; try done.
  - f_equal. f_equal; [lia|].
    rewrite (map_toUpper_upper _ LU). lia.
  - eapply Forall_impl; [exact LU|]. intros a. apply upper_alpha.
  - apply LN. lia.
Qed.

End Codec.

(** *** [rcToA1] in binary64 *)

Lemma round_small z : 0 <= z <= 2 ^ 53 -> Binary64.round z = z.
Proof.
  intros [H0 H1]. unfold Binary64.round.
  destruct (Z.eq_dec z (2 ^ 53)) as [->|Hne]; [reflexivity|].
  rewrite Z.abs_eq by exact H0.
  destruct (Z.eq_dec z 0) as [->|Hz]; [reflexivity|].
  assert (Z.log2 z < 53) by (apply Z.log2_lt_pow2; lia).
  destruct (Z.leb_spec (Z.log2 z - 52) 0); [reflexivity|lia].
Qed.

(** Below [2^57] the scaled quotient by [26] has at least four binary
    places, and the part left over, at least [1/26], keeps the rounding
    from reaching the next integer. *)
Lemma nearest_floor p s :
  0 <= p -> 4 <= s -> Binary64.nearest (p * 2 ^ s) 26 / 2 ^ s = p / 26.
Proof.
  intros Hp Hs. unfold Binary64.nearest.
  assert (HN : 16 <= 2 ^ s).
  { change 16 with (2 ^ 4). apply Z.pow_le_mono_r; lia. }
  set (N := 2 ^ s) in *.
  pose proof (Z.div_mod p 26 ltac:(lia)) as Dp.
  pose proof (Z.mod_pos_bound p 26 ltac:(lia)) as Bp.
  set (k := p / 26) in *. set (rho := p mod 26) in *.
  pose proof (Z.div_mod (rho * N) 26 ltac:(lia)) as Dx.
  pose proof (Z.mod_pos_bound (rho * N) 26 ltac:(lia)) as Bx.
  set (t := rho * N / 26) in *. set (r := (rho * N) mod 26) in *.
  assert (HX : 0 <= rho * N <= 25 * N) by nia.
  assert (Ht : 0 <= t <= N - 1) by lia.
  assert (Enum : p * N = 26 * (k * N + t) + r) by nia.
  assert (Em : p * N / 26 = k * N + t).
  { symmetry. apply (Z.div_unique_pos _ _ _ r); [lia|exact Enum]. }
  assert (Er : (p * N) mod 26 = r).
  { symmetry. apply (Z.mod_unique_pos _ _ (k * N + t)); [lia|exact Enum]. }
  rewrite Em, Er.
  destruct ((26 <? 2 * r) || ((2 * r =? 26) && Z.odd (k * N + t))) eqn:Eup.
  - assert (Hr : 13 <= r).
    { apply orb_prop in Eup as [H|H]; [apply Z.ltb_lt in H; lia|].
      apply andb_prop in H as [H _]. apply Z.eqb_eq in H. lia. }
    symmetry. apply (Z.div_unique_pos _ _ _ (t + 1)); [lia|lia].
  - symmetry. apply (Z.div_unique_pos _ _ _ t); [lia|lia].
Qed.

Lemma quotient_small p :
  0 < p < 2 ^ 53 ->
  exists s, 4 <= s /\ Binary64.quotient p 26 = (Binary64.nearest (p * 2 ^ s) 26, - s).
Proof.
  intros [H0 H1]. unfold Binary64.quotient. cbv zeta. change (Z.log2 26) with 4.
  assert (Hl : 0 <= Z.log2 p < 53).
  { split; [apply Z.log2_nonneg|apply Z.log2_lt_pow2; lia]. }
  set (e0 := Z.log2 p - 4 - 52).
  destruct (Z.leb_spec 0 e0) as [?|_]; [unfold e0 in *; lia|]. cbn [fst snd].
  destruct (p * 2 ^ (- e0) / 26 <? 2 ^ 52).
  - destruct (Z.leb_spec 0 (e0 - 1)) as [?|_]; [unfold e0 in *; lia|]. cbn [fst snd].
    exists (- (e0 - 1)). split; [unfold e0; lia|]. now rewrite Z.opp_involutive.
  - destruct (Z.leb_spec 0 e0) as [?|_]; [unfold e0 in *; lia|]. cbn [fst snd].
    exists (- e0). split; [unfold e0; lia|]. now rewrite Z.opp_involutive.
Qed.

Lemma floorDiv_small p : 0 <= p < 2 ^ 53 -> Binary64.floorDiv p 26 = p / 26.
Proof.
  intros [H0 H1]. unfold Binary64.floorDiv.
  destruct (Z.leb_spec p 0) as [Hz|Hpos].
  { assert (p = 0) as -> by lia. reflexivity. }
  destruct (quotient_small p) as (s & Hs & ->); [lia|].
  destruct (Z.leb_spec 0 (- s)) as [?|_]; [lia|].
  rewrite Z.opp_involutive. apply nearest_floor; lia.
Qed.

Lemma rcToA1_loop_small fuel : forall n s,
  n <= 2 ^ 53 -> Binary64.rcToA1_loop fuel n s = rcToA1_loop fuel n s.
Proof.
  induction fuel as [|f IH]; intros n s Hn; [reflexivity|].
  cbn [Binary64.rcToA1_loop rcToA1_loop].
  destruct (Z.ltb_spec 0 n) as [Hpos|]; [|reflexivity]. cbv zeta.
  rewrite round_small by lia. rewrite floorDiv_small by lia.
  apply IH. pose proof (Z.div_le_upper_bound (n - 1) 26 (2 ^ 53)). lia.
Qed.

(** On the integers up to [2^53 - 1] the arithmetic of [rcToA1] is exact. *)
Lemma rcToA1_small r c :
  0 <= r <= 2 ^ 53 - 1 -> 0 <= c <= 2 ^ 53 - 1 -> Binary64.rcToA1 r c = rcToA1 r c.
Proof.
  intros Hr Hc. unfold Binary64.rcToA1, rcToA1, Binary64.rcToA1_text, rcToA1_text.
  cbv zeta. rewrite !round_small by lia. now rewrite rcToA1_loop_small by lia.
Qed.

(** C8, as the code has it.  [rcToA1(0,0)] is ["A1"], [rcToA1(0,26)] is
    ["AA1"], and for every integer row [r] and column [c] from [0] to
    [2^53 - 1], where [r + 1] and [c + 1] are exact in binary64,
    [a1ToRc(rcToA1(r,c))] returns exactly [{r, c}]. *)
Theorem a1ToRc_left_inverse_of_rcToA1 :
  Binary64.rcToA1 0 0 = "A1"%string /\
  Binary64.rcToA1 0 26 = "AA1"%string /\
  forall r c : Z, 0 <= r <= 2 ^ 53 - 1 -> 0 <= c <= 2 ^ 53 - 1 ->
    a1ToRc (Binary64.rcToA1 r c) = Some (r, c).
Proof.
  split; [reflexivity|]. split; [reflexivity|]. intros r c Hr Hc.
  rewrite (rcToA1_small r c Hr Hc). apply a1ToRc_rcToA1; lia.
Qed.

Lemma a1ToRc_left_inverse_witness :
  a1ToRc (Binary64.rcToA1 41 730) = Some (41, 730).
Proof.
  apply (proj2 (proj2 a1ToRc_left_inverse_of_rcToA1)); lia.
Defined.

(** C8, as stated, fails: [2^53 + 1] is no binary64 and rounds to [2^53],
    so [rcToA1(2^53, 0)] prints the row [9007199254740992], which [a1ToRc]
    reads as the row [2^53 - 1]. *)
Lemma a1ToRc_misses_row_2_53 :
  Binary64.rcToA1 (2 ^ 53) 0 = "A9007199254740992"%string /\
  a1ToRc (Binary64.rcToA1 (2 ^ 53) 0) = Some (2 ^ 53 - 1, 0).
Proof. split; vm_compute; reflexivity. Qed.

(** ** Structural errors *)

Lemma not_known_eqb op k :
  op ∉ knownOps -> k ∈ knownOps -> String.eqb op k = false.
Proof.
  intros Hn Hk. apply String.eqb_neq. intros ->. exact (Hn Hk).
Qed.

Lemma dispatch_unknown op args st :
  op ∉ knownOps ->
  dispatch op args false st = Throw (Error ("Unknown op " ++ op)) st.
Proof.
  intros H. unfold dispatch.
  rewrite !(not_known_eqb op) by (exact H || (unfold knownOps; set_solver)).
  reflexivity.
Qed.

Lemma createSheet_exists name st :
  mapHas name (sheets (wb st)) = true ->
  createSheet name st = Throw (Error "Sheet exists") st.
Proof.
  intros H. unfold createSheet, bind, get. now rewrite H.
Qed.

Lemma deleteSheet_absent name st :
  mapHas name (sheets (wb st)) = false ->
  deleteSheet name st = Throw (Error ("Sheet not found: " ++ name)) st.
Proof.
  intros H. unfold deleteSheet, bind, getSheet. unfold mapHas in H.
  destruct (mapGet name (sheets (wb st))); [discriminate|reflexivity].
Qed.

(** C9.  [createSheet] with a name that exists, [deleteSheet] with a name
    that is absent, and [dispatch] of an operation name without a case (not
    in internal mode) each throw to the caller, called directly or through
    [dispatch]; the model in which the error is thrown is the model before
    the call: sheets, checkpoints, event log and provenance store are the
    same. *)
Theorem structural_errors_leave_model_unchanged :
  (forall st name internal,
      mapHas name (sheets (wb st)) = true ->
      createSheet name st = Throw (Error "Sheet exists") st /\
      dispatch "createSheet" (ArgsName name) internal st
        = Throw (Error "Sheet exists") st) /\
  (forall st name internal,
      mapHas name (sheets (wb st)) = false ->
      deleteSheet name st = Throw (Error ("Sheet not found: " ++ name)) st /\
      dispatch "deleteSheet" (ArgsName name) internal st
        = Throw (Error ("Sheet not found: " ++ name)) st) /\
  (forall st op args,
      op ∉ knownOps ->
      dispatch op args false st = Throw (Error ("Unknown op " ++ op)) st).
Proof.
  split; [|split].
  - intros st name internal H. split; now apply createSheet_exists.
  - intros st name internal H. split; now apply deleteSheet_absent.
  - intros st op args H. now apply dispatch_unknown.
Qed.

Lemma structural_errors_witness :
  createSheet "Sheet1" (oneSheet [])
    = Throw (Error "Sheet exists") (oneSheet []) /\
  deleteSheet "Nope" (oneSheet [])
    = Throw (Error "Sheet not found: Nope") (oneSheet []) /\
  dispatch "sortRange" ArgsEmpty false (oneSheet [])
    = Throw (Error "Unknown op sortRange") (oneSheet []).
Proof.
  destruct structural_errors_leave_model_unchanged as (H1 & H2 & H3).
  split; [|split].
  - apply (H1 (oneSheet []) "Sheet1"%string false). reflexivity.
  - apply (H2 (oneSheet []) "Nope"%string false). reflexivity.
  - apply (H3 (oneSheet []) "sortRange"%string ArgsEmpty).
    unfold knownOps. intros H. repeat (apply elem_of_cons in H as [H|H]; [discriminate|]).
    by apply elem_of_nil in H.
Defined.

(** ** The map of sheets, rows and cells *)

Section MapFacts.
Context {V : Type}.
Implicit Types (m : list (string * V)) (k : string) (v : V).

Lemma mapGet_mapSet_eq k v m : mapGet k (mapSet k v m) = Some v.
Proof.
  induction m as [|[k' v'] m IH]; simpl.
  - now rewrite String.eqb_refl.
  - destruct (String.eqb_spec k k') as [->|Hne]; simpl.
    + now rewrite String.eqb_refl.
    + destruct (String.eqb_spec k k'); [done|]. exact IH.
Qed.

Lemma mapGet_mapSet_ne k k' v m : k <> k' -> mapGet k' (mapSet k v m) = mapGet k' m.
Proof.
  intros Hne. induction m as [|[k0 v0] m IH]; simpl.
  - destruct (String.eqb_spec k' k); [congruence|reflexivity].
  - destruct (String.eqb_spec k k0) as [->|Hk]; simpl.
    + destruct (String.eqb_spec k' k0); [congruence|reflexivity].
    + destruct (String.eqb_spec k' k0); [reflexivity|exact IH].
Qed.

Lemma mapSet_keys k v m :
  is_Some (mapGet k m) -> map fst (mapSet k v m) = map fst m.
Proof.
  induction m as [|[k0 v0] m IH]; simpl; intros [x Hx]; [discriminate|].
  destruct (String.eqb_spec k k0) as [->|Hk]; simpl; [reflexivity|].
  f_equal. apply IH. eauto.
Qed.

End MapFacts.

Lemma cellAt_row g r c :
  cellAt g r c = match g !! r with Some row => rowCell row c | None => None end.
Proof. reflexivity. Qed.

Lemma rowCell_app_l row ext c x : rowCell row c = Some x -> rowCell (row ++ ext) c = Some x.
Proof.
  unfold rowCell. destruct (row !! c) as [o|] eqn:E; [|discriminate].
  intros H. now rewrite (lookup_app_l_Some _ _ _ _ E).
Qed.

Lemma padRows_length n m g : length (padRows n m g) = (length g `max` n)%nat.
Proof. unfold padRows. rewrite length_map, length_app, length_replicate. lia. Qed.

Lemma padRows_lookup_old n m g r row :
  g !! r = Some row ->
  padRows n m g !! r = Some (row ++ replicate (m - length row) (Some emptyCell)).
Proof.
  intros H. unfold padRows. rewrite list_lookup_fmap.
  now rewrite (lookup_app_l_Some _ _ _ _ H).
Qed.

Lemma padRows_lookup_new n m g r :
  (length g <= r < n)%nat ->
  padRows n m g !! r = Some (replicate m (Some emptyCell)).
Proof.
  intros H. unfold padRows. rewrite list_lookup_fmap.
  rewrite lookup_app_r by lia. rewrite lookup_replicate_2 by lia. simpl.
  now rewrite Nat.sub_0_r.
Qed.

Lemma padRows_lookup_none n m g r :
  (length g <= r)%nat -> (n <= r)%nat -> padRows n m g !! r = None.
Proof.
  intros H1 H2. apply lookup_ge_None. rewrite padRows_length. lia.
Qed.

Lemma cellAt_padRows_old n m g r c x :
  cellAt g r c = Some x -> cellAt (padRows n m g) r c = Some x.
Proof.
  rewrite !cellAt_row. destruct (g !! r) as [row|] eqn:E; [|discriminate].
  rewrite (padRows_lookup_old _ _ _ _ _ E). apply rowCell_app_l.
Qed.

Lemma rowCell_pad row m c :
  rowCell (row ++ replicate (m - length row) (Some emptyCell)) c =
  if (c <? length row)%nat then rowCell row c
  else if (c <? m)%nat then Some emptyCell else None.
Proof.
  unfold rowCell. destruct (Nat.ltb_spec c (length row)) as [Hlt|Hge].
  - now rewrite lookup_app_l by lia.
  - rewrite lookup_app_r by lia.
    destruct (Nat.ltb_spec c m) as [Hm|Hm].
    + now rewrite lookup_replicate_2 by lia.
    + now rewrite lookup_ge_None_2 by (rewrite length_replicate; lia).
Qed.

(** Every cell of a padded grid is a cell of the grid or an empty cell. *)
Lemma cellAt_padRows_inv n m g r c x :
  cellAt (padRows n m g) r c = Some x -> cellAt g r c = Some x \/ x = emptyCell.
Proof.
  rewrite !cellAt_row. destruct (g !! r) as [row|] eqn:E.
  - rewrite (padRows_lookup_old _ _ _ _ _ E), rowCell_pad.
    destruct (c <? length row)%nat; [by left|].
    destruct (c <? m)%nat; [|discriminate]. intros [= <-]. by right.
  - apply lookup_ge_None in E.
    destruct (Nat.lt_ge_cases r n) as [Hn|Hn].
    + rewrite padRows_lookup_new by lia. unfold rowCell.
      destruct (replicate m (Some emptyCell) !! c) as [o|] eqn:Er; [|discriminate].
      apply lookup_replicate in Er as [-> _]. intros [= <-]. by right.
    + rewrite padRows_lookup_none by lia. discriminate.
Qed.

Lemma cellAt_padRows_in n m g r c :
  (r < n)%nat -> (c < m)%nat ->
  match g !! r with Some row => (length row <= c)%nat | None => True end ->
  cellAt (padRows n m g) r c = Some emptyCell.
Proof.
  intros Hr Hc Hrow. rewrite cellAt_row. destruct (g !! r) as [row|] eqn:E.
  - rewrite (padRows_lookup_old _ _ _ _ _ E), rowCell_pad.
    destruct (Nat.ltb_spec c (length row)); [lia|].
    destruct (Nat.ltb_spec c m); [reflexivity|lia].
  - apply lookup_ge_None in E. rewrite padRows_lookup_new by lia.
    unfold rowCell. now rewrite lookup_replicate_2 by lia.
Qed.

Lemma rowCell_setAt c x row c' :
  rowCell (setAt c x row) c' = if decide (c' = c) then Some x else rowCell row c'.
Proof.
  unfold rowCell, setAt. destruct (Nat.ltb_spec c (length row)) as [Hlt|Hge].
  - destruct (decide (c' = c)) as [->|Hne].
    + now rewrite list_lookup_insert_eq.
    + now rewrite list_lookup_insert_ne.
  - destruct (decide (c' = c)) as [->|Hne].
    + rewrite lookup_app_r by lia. rewrite lookup_app_r by (rewrite length_replicate; lia).
      rewrite length_replicate. now replace (c - length row - (c - length row))%nat with 0%nat by lia.
    + destruct (Nat.lt_ge_cases c' (length row)) as [H1|H1].
      * now rewrite lookup_app_l by lia.
      * rewrite (proj2 (lookup_ge_None row c')) by lia.
        rewrite lookup_app_r by lia.
        destruct (Nat.lt_ge_cases c' c) as [H2|H2].
        -- rewrite lookup_app_l by (rewrite length_replicate; lia).
           now rewrite lookup_replicate_2 by lia.
        -- rewrite lookup_app_r by (rewrite length_replicate; lia).
           rewrite length_replicate.
           destruct (c' - length row - (c - length row))%nat as [|k] eqn:Ek; [lia|].
           reflexivity.
Qed.

(** ** Composing what a call keeps *)

Section Keeps.

Context {St : Type} (R : St -> St -> Prop) `{!PreOrder R}.

Lemma keeps_ret {A} (a : A) : keeps R (ret a).
Proof. intros s. simpl. reflexivity. Qed.

Lemma keeps_throw {A} e : keeps R (throw (A:=A) e).
Proof. intros s. simpl. reflexivity. Qed.

Lemma keeps_unmodelled {A} : keeps R (unmodelled (A:=A)).
Proof. intros s. simpl. reflexivity. Qed.

Lemma keeps_get : keeps R get.
Proof. intros s. simpl. reflexivity. Qed.

Lemma keeps_modify f : (forall s, R s (f s)) -> keeps R (modify f).
Proof. intros H s. apply H. Qed.

Lemma keeps_bind {A B} (m : M St A) (k : A -> M St B) :
  keeps R m -> (forall a, keeps R (k a)) -> keeps R (bind m k).
Proof.
  intros Hm Hk s. unfold bind. specialize (Hm s).
  destruct (m s) as [a s'|e s'|s']; simpl in *; [|exact Hm|exact Hm].
  transitivity s'; [exact Hm | apply Hk].
Qed.

Lemma keeps_forEachFrom {A} (l : list A) (f : nat -> A -> M St unit) : forall i,
  (forall j x, l !! j = Some x -> keeps R (f (i + j)%nat x)) ->
  keeps R (forEachFrom i l f).
Proof.
  induction l as [|x l IH]; intros i H; simpl.
  - apply keeps_ret.
  - apply keeps_bind.
    + specialize (H 0%nat x eq_refl). now rewrite Nat.add_0_r in H.
    + intros _. apply IH. intros j y Hj.
      replace (S i + j)%nat with (i + S j)%nat by lia. now apply H.
Qed.

Lemma keeps_forEachI {A} (l : list A) (f : nat -> A -> M St unit) :
  (forall j x, l !! j = Some x -> keeps R (f j x)) -> keeps R (forEachI l f).
Proof. intros H. apply keeps_forEachFrom. exact H. Qed.

Lemma keeps_forEach {A} (l : list A) (f : A -> M St unit) :
  (forall x, x ∈ l -> keeps R (f x)) -> keeps R (forEach l f).
Proof.
  intros H. apply keeps_forEachFrom. intros j x Hj. apply H.
  eapply list_elem_of_lookup_2, Hj.
Qed.

Lemma keeps_mapM {A B} (f : A -> M St B) (l : list A) :
  (forall x, keeps R (f x)) -> keeps R (mapM f l).
Proof.
  intros H. induction l as [|x l IH]; simpl; [apply keeps_ret|].
  apply keeps_bind; [apply H|]. intros y.
  apply keeps_bind; [exact IH|]. intros ys. apply keeps_ret.
Qed.

Lemma keeps_foldM {A B} (f : B -> A -> M St B) (l : list A) :
  (forall b x, keeps R (f b x)) -> forall init, keeps R (foldM f l init).
Proof.
  intros H. induction l as [|x l IH]; intros init; simpl; [apply keeps_ret|].
  apply keeps_bind; [apply H|]. intros b. apply IH.
Qed.

End Keeps.

#[local] Instance onModel_preorder R `{!PreOrder R} : PreOrder (onModel R).
Proof.
  split.
  - intros [st seen]. unfold onModel; simpl. reflexivity.
  - intros [a ?] [b ?] [c ?]. unfold onModel; simpl. apply transitivity.
Qed.

Lemma keeps_liftE R {A} (m : Engine A) : keeps R m -> keeps (onModel R) (liftE m).
Proof.
  intros H [st seen]. unfold liftE, onModel. specialize (H st).
  destruct (m st); simpl in *; exact H.
Qed.

Lemma keeps_hasSeen R `{!PreOrder R} k : keeps (onModel R) (hasSeen k).
Proof. intros [st seen]. unfold onModel; simpl. reflexivity. Qed.

Lemma keeps_addSeen R `{!PreOrder R} k : keeps (onModel R) (addSeen k).
Proof. intros [st seen]. unfold onModel; simpl. reflexivity. Qed.

(** ** Growth of a sheet *)

Lemma grownRows_refl g : grownRows g g.
Proof.
  split; [lia|]. split.
  - intros r row H. exists []. rewrite app_nil_r. split; [exact H|constructor].
  - intros r row' H1 H2. congruence.
Qed.

Lemma grownRows_trans g1 g2 g3 : grownRows g1 g2 -> grownRows g2 g3 -> grownRows g1 g3.
Proof.
  intros (L1 & O1 & N1) (L2 & O2 & N2). split; [lia|]. split.
  - intros r row H. destruct (O1 _ _ H) as (e1 & H1 & F1).
    destruct (O2 _ _ H1) as (e2 & H2 & F2).
    exists (e1 ++ e2). rewrite app_assoc. split; [exact H2|]. now apply Forall_app.
  - intros r row3 H H3. destruct (g2 !! r) as [row2|] eqn:E2.
    + destruct (O2 _ _ E2) as (e2 & H2 & F2).
      rewrite H2 in H3. injection H3 as <-. apply Forall_app. split; [|exact F2].
      eapply N1; eauto.
    + eapply N2; eauto.
Qed.

Lemma grownRows_padRows n m g : grownRows g (padRows n m g).
Proof.
  split; [rewrite padRows_length; lia|]. split.
  - intros r row H. eexists. split; [apply padRows_lookup_old, H|].
    apply Forall_replicate. reflexivity.
  - intros r row' H1 H2. apply lookup_ge_None in H1.
    destruct (Nat.lt_ge_cases r n) as [Hn|Hn].
    + rewrite padRows_lookup_new in H2 by lia. injection H2 as <-.
      apply Forall_replicate. reflexivity.
    + rewrite padRows_lookup_none in H2 by lia. discriminate.
Qed.

#[local] Instance grown_preorder : PreOrder grown.
Proof.
  split.
  - intros st. repeat split. intros key.
    destruct (mapGet key (sheets (wb st))); [|exact I].
    split; [reflexivity|apply grownRows_refl].
  - intros a b c (E1 & C1 & P1 & K1 & S1) (E2 & C2 & P2 & K2 & S2).
    repeat split; try congruence. intros key.
    specialize (S1 key). specialize (S2 key).
    destruct (mapGet key (sheets (wb a))), (mapGet key (sheets (wb b))),
      (mapGet key (sheets (wb c))); try done.
    destruct S1 as [N1 G1], S2 as [N2 G2]. split; [congruence|].
    eapply grownRows_trans; eauto.
Qed.

Lemma grown_withRows key f st :
  (forall g, grownRows g (f g)) -> grown st (withRows key f st).
Proof.
  intros Hf. unfold withRows, grown, setSheets; simpl. repeat split.
  - destruct (mapGet key (sheets (wb st))) as [s|] eqn:E; [|reflexivity].
    apply mapSet_keys. eauto.
  - intros k. destruct (mapGet key (sheets (wb st))) as [s|] eqn:E.
    + destruct (decide (key = k)) as [->|Hne].
      * rewrite E, mapGet_mapSet_eq. simpl. split; [reflexivity|apply Hf].
      * rewrite mapGet_mapSet_ne by exact Hne.
        destruct (mapGet k (sheets (wb st))); [|exact I].
        split; [reflexivity|apply grownRows_refl].
    + destruct (mapGet k (sheets (wb st))); [|exact I].
      split; [reflexivity|apply grownRows_refl].
Qed.

Lemma keeps_getSheet R `{!PreOrder R} key : keeps R (getSheet key).
Proof.
  intros st. unfold getSheet. destruct (mapGet key (sheets (wb st))); simpl; reflexivity.
Qed.

Lemma setRows_withRows key f st : setRows key f st = Ok tt (withRows key f st).
Proof. reflexivity. Qed.

Lemma keeps_ensureSize_grown key n m : keeps grown (ensureSize key n m).
Proof.
  unfold ensureSize. apply keeps_bind; [apply _|apply keeps_getSheet; apply _|].
  intros _ st. rewrite setRows_withRows. simpl.
  apply grown_withRows. intros g. apply grownRows_padRows.
Qed.

Lemma keeps_getCell_grown key r c : keeps grown (getCell key r c).
Proof.
  unfold getCell. apply keeps_bind; [apply _|apply keeps_ensureSize_grown|]. intros _.
  apply keeps_bind; [apply _|apply keeps_getSheet; apply _|]. intros s.
  destruct (r <? 0); [apply keeps_throw; apply _|].
  destruct (rows s !! Z.to_nat r); [|apply keeps_throw; apply _].
  destruct (c <? 0); apply keeps_ret; apply _.
Qed.

(** ** What the evaluator keeps *)

Section EvaluatorKeeps.

Context {rt : Runtime}.
Context (R : Model -> Model -> Prop) `{!PreOrder R}.
Hypothesis getCell_keeps : forall key r c, keeps R (getCell key r c).

Let R' := onModel R.

Section Body.

Variable rec : string -> Z -> Z -> EV CellValue.
Hypothesis rec_keeps : forall sheet r c, keeps R' (rec sheet r c).

Lemma keeps_evalRef sheet a1 : keeps R' (evalRef rec sheet a1).
Proof.
  unfold evalRef. destruct (a1ToRc_text a1) as [[r c]|].
  - apply keeps_bind; [apply _|apply rec_keeps|]. intros v. apply keeps_ret; apply _.
  - apply keeps_throw; apply _.
Qed.

Lemma keeps_sumRange sheet a1range : keeps R' (sumRange rec sheet a1range).
Proof.
  unfold sumRange. destruct (matchRange a1range) as [[[[l1 d1] l2] d2]|];
    [|apply keeps_ret; apply _].
  destruct (a1ToRc_text (l1 ++ d1)) as [[ar ac]|]; [|apply keeps_throw; apply _].
  destruct (a1ToRc_text (l2 ++ d2)) as [[br bc]|]; [|apply keeps_throw; apply _].
  apply keeps_foldM; [apply _|]. intros total r.
  apply keeps_foldM; [apply _|]. intros total' c.
  apply keeps_bind; [apply _|apply rec_keeps|]. intros v. apply keeps_ret; apply _.
Qed.

Lemma keeps_sumTerm sheet term : keeps R' (sumTerm rec sheet term).
Proof.
  unfold sumTerm. destruct (isRange (trim term)); [apply keeps_sumRange|].
  destruct (isRef (trim term)); [apply keeps_evalRef|]. apply keeps_ret; apply _.
Qed.

Lemma keeps_sumArgs sheet args : keeps R' (sumArgs rec sheet args).
Proof.
  unfold sumArgs. apply keeps_bind; [apply _| |intros ns; apply keeps_ret; apply _].
  apply keeps_mapM; [apply _|]. intros t. apply keeps_sumTerm.
Qed.

Lemma keeps_replacePieces ps callback :
  (forall t, keeps R' (callback t)) -> keeps R' (replacePieces ps callback).
Proof.
  intros H. unfold replacePieces.
  apply keeps_bind; [apply _| |intros ts; apply keeps_ret; apply _].
  apply keeps_mapM; [apply _|]. intros [t|t]; [apply keeps_ret; apply _|apply H].
Qed.

Lemma keeps_evalExpr expr : keeps R' (evalExpr expr).
Proof.
  unfold evalExpr. destruct (jsEval (str expr)) as [[n|[n|]|]|];
    try (apply keeps_ret; apply _). apply keeps_unmodelled; apply _.
Qed.

Lemma keeps_evaluateCell_body sheet r c : keeps R' (evaluateCell_body rec sheet r c).
Proof.
  unfold evaluateCell_body.
  apply keeps_bind; [apply _|apply keeps_hasSeen; apply _|]. intros [|];
    [apply keeps_ret; apply _|].
  apply keeps_bind; [apply _|apply keeps_addSeen; apply _|]. intros _.
  apply keeps_bind; [apply _|apply keeps_liftE, getCell_keeps|]. intros [cell|];
    [|apply keeps_throw; apply _].
  destruct (formula cell) as [[|a ftext]|]; try (apply keeps_ret; apply _).
  destruct (negb _); [apply keeps_ret; apply _|].
  apply keeps_bind; [apply _| |].
  { apply keeps_replacePieces. intros t.
    apply keeps_bind; [apply _|apply keeps_sumArgs|]. intros n. apply keeps_ret; apply _. }
  intros expr. apply keeps_bind; [apply _| |intros e2; apply keeps_evalExpr].
  apply keeps_replacePieces. intros t.
  apply keeps_bind; [apply _|apply keeps_evalRef|]. intros n. apply keeps_ret; apply _.
Qed.

End Body.

Lemma keeps_evaluateCell fuel : forall sheet r c, keeps R' (evaluateCell fuel sheet r c).
Proof.
  induction fuel as [|f IH]; intros sheet r c; simpl.
  - apply keeps_unmodelled; apply _.
  - apply keeps_evaluateCell_body. exact IH.
Qed.

Lemma keeps_evaluateTop fuel sheet r c : keeps R (evaluateTop fuel sheet r c).
Proof.
  intros st. unfold evaluateTop.
  pose proof (keeps_evaluateCell fuel sheet r c (st, ∅)) as H.
  destruct (evaluateCell fuel sheet r c (st, ∅)) as [v [st' sn]|e [st' sn]|[st' sn]];
    exact H.
Qed.

Lemma keeps_evaluateSheet fuel turns :
  forall key r c, keeps R (evaluateSheet fuel turns key r c).
Proof.
  induction turns as [|f IH]; intros key r c.
  - apply keeps_unmodelled; apply _.
  - cbn [evaluateSheet].
    apply keeps_bind; [apply _|apply keeps_getSheet; apply _|]. intros s.
    destruct (rows s !! r) as [row|]; [|apply keeps_ret; apply _].
    destruct (c <? length row)%nat; [|apply IH].
    apply keeps_bind; [apply _|apply keeps_evaluateTop|]. intros _. apply IH.
Qed.

Lemma keeps_evaluateAll fuel : keeps R (evaluateAll fuel).
Proof.
  unfold evaluateAll. apply keeps_bind; [apply _|apply keeps_get; apply _|].
  intros st. apply keeps_forEach; [apply _|]. intros key _. apply keeps_evaluateSheet.
Qed.

End EvaluatorKeeps.

Lemma grown_lookupCell st st' key r c x :
  grown st st' -> lookupCell st key r c = Some x -> lookupCell st' key r c = Some x.
Proof.
  intros (_ & _ & _ & _ & HS). unfold lookupCell. specialize (HS key).
  destruct (mapGet key (sheets (wb st))) as [s|]; [|discriminate].
  destruct (mapGet key (sheets (wb st'))) as [s'|]; [|done].
  destruct HS as [_ (_ & HO & _)]. rewrite !cellAt_row.
  destruct (rows s !! r) as [row|] eqn:E; [|discriminate].
  destruct (HO _ _ E) as (ext & -> & _). apply rowCell_app_l.
Qed.

Lemma grown_new_cells st st' key r c x :
  grown st st' -> lookupCell st' key r c = Some x ->
  lookupCell st key r c = Some x \/ x = emptyCell.
Proof.
  intros (_ & _ & _ & _ & HS). unfold lookupCell. specialize (HS key).
  destruct (mapGet key (sheets (wb st'))) as [s'|]; [|discriminate].
  destruct (mapGet key (sheets (wb st))) as [s|]; [|done].
  destruct HS as [_ (_ & HO & HN)]. rewrite !cellAt_row.
  destruct (rows s' !! r) as [row'|] eqn:E'; [|discriminate].
  unfold rowCell. destruct (row' !! c) as [[y|]|] eqn:Ec; try discriminate.
  intros [= ->].
  destruct (rows s !! r) as [row|] eqn:E.
  - destruct (HO _ _ E) as (ext & E2 & F). rewrite E' in E2. injection E2 as ->.
    destruct (Nat.lt_ge_cases c (length row)) as [Hc|Hc].
    + rewrite lookup_app_l in Ec by lia. rewrite Ec. by left.
    + rewrite lookup_app_r in Ec by lia. right.
      eapply Forall_lookup_1 in F; [|exact Ec]. congruence.
  - right. specialize (HN _ _ E E').
    eapply Forall_lookup_1 in HN; [|exact Ec]. congruence.
Qed.

(** ** The evaluator and the workbook state *)



(** ** Running the evaluator on a given model *)

Lemma getSheet_Some key s st :
  mapGet key (sheets (wb st)) = Some s -> getSheet key st = Ok s st.
Proof. intros H. unfold getSheet. now rewrite H. Qed.

Lemma withRows_mapGet key f s st :
  mapGet key (sheets (wb st)) = Some s ->
  mapGet key (sheets (wb (withRows key f st)))
    = Some {| name := name s; rows := f (rows s) |}.
Proof.
  intros H. unfold withRows, setSheets; simpl. rewrite H. apply mapGet_mapSet_eq.
Qed.

Lemma ensureSize_Some key n m s st :
  mapGet key (sheets (wb st)) = Some s ->
  ensureSize key n m st = Ok tt (withRows key (padRows n m) st).
Proof.
  intros H. unfold ensureSize, bind. now rewrite (getSheet_Some _ _ _ H).
Qed.

Lemma getCell_Some key (r c : nat) s st :
  mapGet key (sheets (wb st)) = Some s ->
  getCell key (Z.of_nat r) (Z.of_nat c) st
    = Ok (cellAt (padRows (r + 1) (c + 1) (rows s)) r c)
         (withRows key (padRows (r + 1) (c + 1)) st).
Proof.
  intros H. unfold getCell, bind.
  replace (Z.to_nat (Z.of_nat r + 1)) with (r + 1)%nat by lia.
  replace (Z.to_nat (Z.of_nat c + 1)) with (c + 1)%nat by lia.
  rewrite (ensureSize_Some _ _ _ _ _ H).
  rewrite (getSheet_Some _ _ _ (withRows_mapGet _ _ _ _ H)). simpl.
  destruct (Z.ltb_spec (Z.of_nat r) 0); [lia|]. rewrite Nat2Z.id.
  destruct (padRows (r + 1) (c + 1) (rows s) !! r) as [row|] eqn:E.
  - destruct (Z.ltb_spec (Z.of_nat c) 0); [lia|]. now rewrite Nat2Z.id.
  - apply lookup_ge_None in E. rewrite padRows_length in E. lia.
Qed.

Section Run.

Context {rt : Runtime}.
Variable rec : string -> Z -> Z -> EV CellValue.

(** A cell already in [seen] gives ["#REF!"] and touches nothing. *)
Lemma evaluateCell_body_seen key r c st (seen : Seen) :
  (key, r, c) ∈ seen ->
  evaluateCell_body rec key r c (st, seen) = Ok (VStr "#REF!") (st, seen).
Proof.
  intros H. unfold evaluateCell_body, bind, hasSeen.
  now rewrite bool_decide_eq_true_2.
Qed.

(** The evaluation of a cell not yet seen, once [getCell] has found it. *)
Lemma evaluateCell_body_cell key (r c : nat) s cell st (seen : Seen) :
  (key, Z.of_nat r, Z.of_nat c) ∉ seen ->
  mapGet key (sheets (wb st)) = Some s ->
  cellAt (padRows (r + 1) (c + 1) (rows s)) r c = Some cell ->
  evaluateCell_body rec key (Z.of_nat r) (Z.of_nat c) (st, seen) =
  (match formula cell with
   | None | Some EmptyString => ret (value cell)
   | Some ftext =>
       let f := trim (txt ftext) in
       if negb (startsWithEq f) then ret (value cell)
       else
         let expr := drop 1 f in
         expr <- replacePieces (findSums expr 0)
                   (fun args => n <- sumArgs rec key args ;;
                                ret (txt (String_of_number n))) ;;
         expr <- replacePieces (findRefs expr false 0)
                   (fun a1 => n <- evalRef rec key a1 ;;
                              ret (txt (String_of_number n))) ;;
         evalExpr expr
   end) (withRows key (padRows (r + 1) (c + 1)) st,
         {[ (key, Z.of_nat r, Z.of_nat c) ]} ∪ seen).
Proof.
  intros Hs Hm Hc. unfold evaluateCell_body at 1. unfold bind at 1. unfold hasSeen.
  rewrite bool_decide_eq_false_2 by exact Hs.
  unfold bind at 1. unfold addSeen. unfold bind at 1. unfold liftE.
  rewrite (getCell_Some _ _ _ _ _ Hm), Hc. reflexivity.
Qed.

End Run.

Lemma holdsLiteral_grown st st' key r c v :
  grown st st' -> holdsLiteral st key r c v -> holdsLiteral st' key r c v.
Proof.
  intros (_ & _ & _ & _ & HS). unfold holdsLiteral. specialize (HS key).
  destruct (mapGet key (sheets (wb st))) as [s|]; [|done].
  destruct (mapGet key (sheets (wb st'))) as [s'|]; [|done].
  destruct HS as [_ (_ & HO & HN)].
  destruct (rows s !! r) as [row|] eqn:E.
  - destruct (HO _ _ E) as (ext & -> & F).
    destruct (row !! c) as [o|] eqn:Ec.
    + now rewrite (lookup_app_l_Some _ _ _ _ Ec).
    + intros ->. apply lookup_ge_None in Ec. rewrite lookup_app_r by lia.
      destruct (ext !! (c - length row)%nat) as [o|] eqn:Ee; [|reflexivity].
      eapply Forall_lookup_1 in F; [|exact Ee]. subst o. now split.
  - intros ->. destruct (rows s' !! r) as [row'|] eqn:E'; [|reflexivity].
    specialize (HN _ _ E E').
    destruct (row' !! c) as [o|] eqn:Ec; [|reflexivity].
    eapply Forall_lookup_1 in HN; [|exact Ec]. subst o. now split.
Qed.

(** Evaluating a position that holds a literal gives the literal. *)
Lemma evaluateCell_literal {rt : Runtime} fuel key (r c : nat) v st (seen : Seen) :
  holdsLiteral st key r c v ->
  (key, Z.of_nat r, Z.of_nat c) ∉ seen ->
  exists st',
    evaluateCell (S fuel) key (Z.of_nat r) (Z.of_nat c) (st, seen)
      = Ok v (st', {[ (key, Z.of_nat r, Z.of_nat c) ]} ∪ seen) /\
    grown st st'.
Proof.
  intros H Hs. unfold holdsLiteral in H.
  destruct (mapGet key (sheets (wb st))) as [s|] eqn:Hm; [|done].
  exists (withRows key (padRows (r + 1) (c + 1)) st). split.
  2:{ apply grown_withRows. intros g. apply grownRows_padRows. }
  cbn [evaluateCell].
  assert (Hc : exists x, cellAt (padRows (r + 1) (c + 1) (rows s)) r c = Some x
                         /\ value x = v /\ formula x = None).
  { destruct (rows s !! r) as [row|] eqn:E.
    - destruct (row !! c) as [[x|]|] eqn:Ec; [| done |].
      + exists x. split; [|exact H]. apply cellAt_padRows_old.
        rewrite cellAt_row, E. unfold rowCell. now rewrite Ec.
      + exists emptyCell. subst v. split; [|done]. apply cellAt_padRows_in; [lia|lia|].
        rewrite E. now apply lookup_ge_None in Ec.
    - exists emptyCell. subst v. split; [|done]. apply cellAt_padRows_in; [lia|lia|].
      now rewrite E. }
  destruct Hc as (x & Hc & Hv & Hf).
  rewrite (evaluateCell_body_cell _ _ _ _ _ _ _ _ Hs Hm Hc), Hf, Hv. reflexivity.
Qed.

Section RunFormula.

Context {rt : Runtime}.
Variable rec : string -> Z -> Z -> EV CellValue.

(** The evaluation of a cell that holds a formula starting with [=], from
    the pieces of its [SUM] rewrite on. *)
Lemma evaluateCell_body_formula key (r c : nat) s cell ftext sums st (seen : Seen) :
  (key, Z.of_nat r, Z.of_nat c) ∉ seen ->
  mapGet key (sheets (wb st)) = Some s ->
  cellAt (rows s) r c = Some cell ->
  formula cell = Some ftext ->
  ftext <> EmptyString ->
  startsWithEq (trim (txt ftext)) = true ->
  findSums (drop 1 (trim (txt ftext))) 0 = sums ->
  evaluateCell_body rec key (Z.of_nat r) (Z.of_nat c) (st, seen) =
  (expr <- replacePieces sums
             (fun args => n <- sumArgs rec key args ;;
                          ret (txt (String_of_number n))) ;;
   expr <- replacePieces (findRefs expr false 0)
             (fun a1 => n <- evalRef rec key a1 ;;
                        ret (txt (String_of_number n))) ;;
   evalExpr expr)
    (withRows key (padRows (r + 1) (c + 1)) st,
     {[ (key, Z.of_nat r, Z.of_nat c) ]} ∪ seen).
Proof.
  intros Hs Hm Hc Hf Hne Heq Hsum.
  rewrite (evaluateCell_body_cell rec _ _ _ _ _ _ _ Hs Hm (cellAt_padRows_old _ _ _ _ _ _ Hc)).
  rewrite Hf. destruct ftext as [|a ftext]; [done|].
  cbv zeta. rewrite Heq, Hsum. reflexivity.
Qed.

End RunFormula.

Lemma lookupCell_Some st key r c x :
  lookupCell st key r c = Some x ->
  exists s, mapGet key (sheets (wb st)) = Some s /\ cellAt (rows s) r c = Some x.
Proof.
  unfold lookupCell. destruct (mapGet key (sheets (wb st))) as [s|]; [|discriminate].
  intros H. eauto.
Qed.

(** The [SUM] of the range [A1:A3], given what the three nested
    evaluations return. *)
Lemma sumArgs_A1_A3 {rt : Runtime} (rec : string -> Z -> Z -> EV CellValue)
    (key : string) (s0 s1 s2 s3 : Model * Seen) :
  rec key 0 0 s0 = Ok (VNum 1) s1 ->
  rec key 1 0 s1 = Ok (VStr "x") s2 ->
  rec key 2 0 s2 = Ok VNull s3 ->
  is_nan (Number_of_string "x") = true ->
  sumArgs rec key (txt "A1:A3") s0 = Ok 1%float s3.
Proof.
  intros E1 E2 E3 Hnan.
  unfold sumArgs.
  change (splitOn "," (txt "A1:A3")) with [txt "A1:A3"].
  cbn [mapM]. unfold sumTerm.
  change (trim (txt "A1:A3")) with (txt "A1:A3").
  change (isRange (txt "A1:A3")) with true. cbv iota.
  unfold sumRange.
  change (matchRange (txt "A1:A3")) with (Some (txt "A", txt "1", txt "A", txt "3")).
  cbv iota beta.
  change (a1ToRc_text (txt "A" ++ txt "1")) with (Some (0, 0)).
  change (a1ToRc_text (txt "A" ++ txt "3")) with (Some (2, 0)).
  cbv iota beta.
  change (uptoZ (Z.min 0 2) (Z.max 0 2)) with [0; 1; 2].
  change (uptoZ (Z.min 0 0) (Z.max 0 0)) with [0].
  cbn [foldM]. unfold bind, ret. rewrite E1, E2, E3. cbv zeta. rewrite Hnan.
  vm_compute. reflexivity.
Qed.

(** The evaluation of [=SUM(A1:A3)] from its [SUM] rewrite on, given what
    the three nested evaluations return. *)
Lemma run_sum_A1_A3 {rt : Runtime} (rec : string -> Z -> Z -> EV CellValue)
    (key : string) (s0 s1 s2 s3 : Model * Seen) :
  rec key 0 0 s0 = Ok (VNum 1) s1 ->
  rec key 1 0 s1 = Ok (VStr "x") s2 ->
  rec key 2 0 s2 = Ok VNull s3 ->
  is_nan (Number_of_string "x") = true ->
  String_of_number 1 = "1"%string ->
  jsEval "1" = Some (JNumber 1) ->
  (expr <- replacePieces [Hit (txt "A1:A3")]
             (fun args => n <- sumArgs rec key args ;;
                          ret (txt (String_of_number n))) ;;
   expr <- replacePieces (findRefs expr false 0)
             (fun a1 => n <- evalRef rec key a1 ;;
                        ret (txt (String_of_number n))) ;;
   evalExpr expr) s0 = Ok (VNum 1) s3.
Proof.
  intros E1 E2 E3 Hnan Hstr Hev.
  unfold replacePieces at 1. cbn [mapM]. unfold bind at 1 2 3 4.
  rewrite (sumArgs_A1_A3 rec key s0 s1 s2 s3 E1 E2 E3 Hnan).
  unfold bind at 1, ret at 1 2 3 4. rewrite Hstr.
  change (concat [txt "1"]) with (txt "1").
  change (findRefs (txt "1") false 0) with [Lit (txt "1")].
  unfold replacePieces, evalExpr. cbn [mapM]. unfold bind, ret.
  change (str (concat [txt "1"])) with "1"%string. rewrite Hev. reflexivity.
Qed.

(** C7.  A cell outside [A1:A3] holds the formula [=SUM(A1:A3)], and [A1],
    [A2], [A3] hold the literals [1], ["x"] and [null] (or [A3] is absent).
    Then the evaluation of the cell returns the number [1], with any fuel
    from two nested calls on.  The three facts on the engine are
    JavaScript's: [Number("x")] is [NaN], [String(1)] is ["1"], and the
    expression [1] evaluates to [1]. *)
Theorem sum_coerces_text_and_null_to_zero {rt : Runtime}
    (st : Model) (sheet : string) (r c : nat) (cell : Cell) (fuel : nat) :
  lookupCell st sheet r c = Some cell ->
  formula cell = Some "=SUM(A1:A3)"%string ->
  (c <> 0%nat \/ (2 < r)%nat) ->
  holdsLiteral st sheet 0 0 (VNum 1) ->
  holdsLiteral st sheet 1 0 (VStr "x") ->
  holdsLiteral st sheet 2 0 VNull ->
  is_nan (Number_of_string "x") = true ->
  String_of_number 1 = "1"%string ->
  jsEval "1" = Some (JNumber 1) ->
  exists st',
    evaluateTop (S (S fuel)) sheet (Z.of_nat r) (Z.of_nat c) st = Ok (VNum 1) st'.
Proof.
  intros Hl Hf Hout H1 H2 H3 Hnan Hstr Hev.
  destruct (lookupCell_Some _ _ _ _ _ Hl) as (s & Hm & Hc).
  set (st1 := withRows sheet (padRows (r + 1) (c + 1)) st).
  set (k := (sheet, Z.of_nat r, Z.of_nat c)).
  assert (G1 : grown st st1).
  { apply grown_withRows. intros g. apply grownRows_padRows. }
  assert (K0 : (sheet, Z.of_nat 0, Z.of_nat 0) <> k) by (subst k; intros [=]; lia).
  assert (K1 : (sheet, Z.of_nat 1, Z.of_nat 0) <> k) by (subst k; intros [=]; lia).
  assert (K2 : (sheet, Z.of_nat 2, Z.of_nat 0) <> k) by (subst k; intros [=]; lia).
  destruct (evaluateCell_literal fuel sheet 0 0 (VNum 1) st1 ({[ k ]} ∪ ∅))
    as (st2 & E1 & G2).
  { eapply holdsLiteral_grown; eauto. }
  { rewrite elem_of_union, elem_of_singleton, elem_of_empty. tauto. }
  destruct (evaluateCell_literal fuel sheet 1 0 (VStr "x") st2
              ({[ (sheet, Z.of_nat 0, Z.of_nat 0) ]} ∪ ({[ k ]} ∪ ∅)))
    as (st3 & E2 & G3).
  { eapply holdsLiteral_grown; [|eassumption]. etransitivity; eauto. }
  { rewrite !elem_of_union, !elem_of_singleton, elem_of_empty.
    intros [[=]|[?|[]]]. done. }
  destruct (evaluateCell_literal fuel sheet 2 0 VNull st3
              ({[ (sheet, Z.of_nat 1, Z.of_nat 0) ]}
                 ∪ ({[ (sheet, Z.of_nat 0, Z.of_nat 0) ]} ∪ ({[ k ]} ∪ ∅))))
    as (st4 & E3 & G4).
  { eapply holdsLiteral_grown; [|eassumption].
    etransitivity; [|eassumption]. etransitivity; eauto. }
  { rewrite !elem_of_union, !elem_of_singleton, elem_of_empty.
    intros [[=]|[[=]|[?|[]]]]. done. }
  exists st4. unfold evaluateTop.
  change (evaluateCell (S (S fuel))) with (evaluateCell_body (evaluateCell (S fuel))).
  rewrite (evaluateCell_body_formula _ _ _ _ _ _ _ [Hit (txt "A1:A3")] _ _
             (not_elem_of_empty _) Hm Hc Hf); [|done|reflexivity|reflexivity].
  fold st1. fold k.
  rewrite (run_sum_A1_A3 _ _ _ _ _ _ E1 E2 E3 Hnan Hstr Hev). reflexivity.
Qed.

Lemma sum_coerces_witness :
  exists st',
    evaluateTop (rt:=sampleRuntime) 2 "Sheet1" (Z.of_nat 0) (Z.of_nat 1)
      (oneSheet [[Some (literal (VNum 1)); Some (withFormula "=SUM(A1:A3)")];
                 [Some (literal (VStr "x"))]])
    = Ok (VNum 1) st'.
Proof.
  apply (sum_coerces_text_and_null_to_zero (rt:=sampleRuntime)
           (oneSheet [[Some (literal (VNum 1)); Some (withFormula "=SUM(A1:A3)")];
                      [Some (literal (VStr "x"))]])
           "Sheet1" 0 1 (withFormula "=SUM(A1:A3)") 0).
  - reflexivity.
  - reflexivity.
  - left. discriminate.
  - split; reflexivity.
  - split; reflexivity.
  - reflexivity.
  - reflexivity.
  - reflexivity.
  - reflexivity.
Defined.

(** ** A formula that refers to its own cell *)

(** The evaluation of [=A1+1] from its [SUM] rewrite on, given that the
    nested evaluation of [A1] returns ["#REF!"]. *)
Lemma run_A1_plus_1 {rt : Runtime} (rec : string -> Z -> Z -> EV CellValue)
    (key : string) (s0 : Model * Seen) :
  rec key 0 0 s0 = Ok (VStr "#REF!") s0 ->
  is_nan (Number_of_string "#REF!") = true ->
  String_of_number 0 = "0"%string ->
  jsEval "0+1" = Some (JNumber 1) ->
  (expr <- replacePieces (findSums (txt "A1+1") 0)
             (fun args => n <- sumArgs rec key args ;;
                          ret (txt (String_of_number n))) ;;
   expr <- replacePieces (findRefs expr false 0)
             (fun a1 => n <- evalRef rec key a1 ;;
                        ret (txt (String_of_number n))) ;;
   evalExpr expr) s0 = Ok (VNum 1) s0.
Proof.
  destruct rt as [num2 str2 ev2]. intros E1 Hnan Hstr Hev.
  vm_compute in Hnan, Hstr, Hev. vm_compute. rewrite E1.
  vm_compute. rewrite Hnan, Hstr. vm_compute. rewrite Hev. reflexivity.
Qed.

(** C2 at the failing input.  The cell [A1] of a sheet holds [=A1+1].  Its
    evaluation ends, with any fuel from two nested calls on: the nested
    evaluation of the reference [A1] finds the cell in the [seen] set and
    returns ["#REF!"] without going further, the error text that branch is
    there to give.  But [evalRef] turns that text into [0], and the result
    of the cell is the number [1], the value of [0+1], where the claim has
    ["#REF!"].  The three facts on the engine are JavaScript's:
    [Number("#REF!")] is [NaN], [String(0)] is ["0"], and [0+1] evaluates
    to [1]. *)
Theorem self_reference_ends_with_one {rt : Runtime}
    (st : Model) (sheet : string) (cell : Cell) (fuel : nat) :
  lookupCell st sheet 0 0 = Some cell ->
  formula cell = Some "=A1+1"%string ->
  is_nan (Number_of_string "#REF!") = true ->
  String_of_number 0 = "0"%string ->
  jsEval "0+1" = Some (JNumber 1) ->
  exists st',
    evaluateTop (S (S fuel)) sheet 0 0 st = Ok (VNum 1) st' /\
    evaluateCell (S fuel) sheet 0 0 (st', {[ (sheet, 0, 0) ]} ∪ ∅)
      = Ok (VStr "#REF!") (st', {[ (sheet, 0, 0) ]} ∪ ∅).
Proof.
  intros Hl Hf Hnan Hstr Hev.
  destruct (lookupCell_Some _ _ _ _ _ Hl) as (s & Hm & Hc).
  exists (withRows sheet (padRows (0 + 1) (0 + 1)) st).
  assert (E1 : forall st1,
    evaluateCell (S fuel) sheet 0 0 (st1, {[ (sheet, 0, 0) ]} ∪ ∅)
      = Ok (VStr "#REF!") (st1, {[ (sheet, 0, 0) ]} ∪ ∅)).
  { intros st1. cbn [evaluateCell]. apply evaluateCell_body_seen.
    apply elem_of_union_l, elem_of_singleton. reflexivity. }
  split; [|apply E1].
  unfold evaluateTop.
  change (evaluateCell (S (S fuel))) with (evaluateCell_body (evaluateCell (S fuel))).
  change 0 with (Z.of_nat 0) at 1 2.
  rewrite (evaluateCell_body_formula _ _ _ _ _ _ _ (findSums (txt "A1+1") 0) _ _
             (not_elem_of_empty _) Hm Hc Hf); [|done|reflexivity|reflexivity].
  change (Z.of_nat 0) with 0.
  rewrite (run_A1_plus_1 _ _ _ (E1 _) Hnan Hstr Hev). reflexivity.
Qed.

Lemma self_reference_witness :
  exists st',
    evaluateTop (rt:=sampleRuntime) 2 "Sheet1" 0 0
      (oneSheet [[Some (withFormula "=A1+1")]]) = Ok (VNum 1) st' /\
    evaluateCell (rt:=sampleRuntime) 1 "Sheet1" 0 0
      (st', {[ ("Sheet1"%string, 0, 0) ]} ∪ ∅)
      = Ok (VStr "#REF!") (st', {[ ("Sheet1"%string, 0, 0) ]} ∪ ∅).
Proof.
  apply (self_reference_ends_with_one (rt:=sampleRuntime)
           (oneSheet [[Some (withFormula "=A1+1")]]) "Sheet1"
           (withFormula "=A1+1") 0); reflexivity.
Defined.

(** The same on the sample engine: the evaluation of [A1] holding [=A1+1]
    returns the number [1], not ["#REF!"]. *)
Lemma self_reference_is_not_REF :
  evaluateTop (rt:=sampleRuntime) 2 "Sheet1" 0 0
    (oneSheet [[Some (withFormula "=A1+1")]])
  = Ok (VNum 1) (oneSheet [[Some (withFormula "=A1+1")]]).
Proof. vm_compute. reflexivity. Qed.

(** ** The corners of a [SUM] range *)

Lemma span_spec p l :
  let '(x, y) := span p l in
  l = x ++ y /\ Forall (fun a => p a = true) x /\
  match y with [] => True | b :: _ => p b = false end.
Proof.
  induction l as [|a l IH]; simpl; [repeat split; constructor|].
  destruct (p a) eqn:Ea.
  - destruct (span p l) as [x y]. destruct IH as (-> & F & N).
    repeat split; [by constructor|exact N].
  - repeat split; [constructor|exact Ea].
Qed.

Lemma matchRef_spec l ls ds :
  matchRef l = Some (ls, ds) ->
  l = ls ++ ds /\ Forall (fun a => isAlpha a = true) ls /\ ls <> [] /\
  Forall (fun a => isDigit a = true) ds /\ ds <> [].
Proof.
  unfold matchRef, matchA1.
  pose proof (span_spec isAlpha l) as H1. destruct (span isAlpha l) as [x y].
  pose proof (span_spec isDigit y) as H2. destruct (span isDigit y) as [d z].
  destruct H1 as (-> & F1 & _), H2 as (-> & F2 & _).
  destruct x as [|a x]; [discriminate|]. destruct d as [|b d]; [discriminate|].
  destruct z; [|discriminate]. intros [= <- <-]. rewrite app_nil_r.
  repeat split; done.
Qed.

Lemma matchRange_corners x y lx dx ly dy :
  matchRef x = Some (lx, dx) -> matchRef y = Some (ly, dy) ->
  matchRange (x ++ ":"%char :: y) = Some (lx, dx, ly, dy).
Proof.
  intros Hx Hy. destruct (matchRef_spec _ _ _ Hx) as (-> & F1 & N1 & F2 & N2).
  unfold matchRange, matchA1. rewrite <- app_assoc.
  rewrite (span_app isAlpha lx _ F1).
  2:{ destruct F2 as [|d ds' Hd0 _]; [done|]. simpl. now apply digit_not_alpha. }
  rewrite (span_app isDigit dx (":"%char :: y) F2 eq_refl).
  destruct lx; [done|]. destruct dx; [done|].
  change (eqc ":" ":") with true. cbv iota. now rewrite Hy.
Qed.

Lemma a1ToRc_text_parts x lx dx :
  matchRef x = Some (lx, dx) -> a1ToRc_text (lx ++ dx) = a1ToRc_text x.
Proof.
  intros Hx. destruct (matchRef_spec _ _ _ Hx) as (-> & _). reflexivity.
Qed.

(** C10.  For two A1-style references [x] and [y], the range ["x:y"] and
    the range ["y:x"] sum the same cells in the same order: [sumRange]
    returns the same result, leaves the same workbook and the same [seen]
    set, whatever the recursive evaluation [rec] does. *)
Theorem sumRange_corner_order {rt : Runtime}
    (rec : string -> Z -> Z -> EV CellValue) (sheet : string) (x y : text)
    (s : Model * Seen) :
  isRef x = true -> isRef y = true ->
  sumRange rec sheet (x ++ ":"%char :: y) s = sumRange rec sheet (y ++ ":"%char :: x) s.
Proof.
  unfold isRef. intros Hx Hy.
  destruct (matchRef x) as [[lx dx]|] eqn:Ex; [|discriminate].
  destruct (matchRef y) as [[ly dy]|] eqn:Ey; [|discriminate].
  unfold sumRange.
  rewrite (matchRange_corners _ _ _ _ _ _ Ex Ey), (matchRange_corners _ _ _ _ _ _ Ey Ex).
  rewrite (a1ToRc_text_parts _ _ _ Ex), (a1ToRc_text_parts _ _ _ Ey).
  unfold a1ToRc_text. rewrite Ex, Ey.
  rewrite (Z.min_comm (colOf (map toUpper ly) - 1)), (Z.max_comm (colOf (map toUpper ly) - 1)).
  rewrite (Z.min_comm (parseInt dy - 1)), (Z.max_comm (parseInt dy - 1)).
  reflexivity.
Qed.

Lemma sumRange_corner_order_witness :
  sumRange (rt:=sampleRuntime) (evaluateCell (rt:=sampleRuntime) 2) "Sheet1"
    (txt "B2:A1")
    (oneSheet [[Some (literal (VNum 1)); Some (literal (VNum 2))];
               [Some (literal (VNum 3)); Some (literal (VNum 4))]], ∅)
  = sumRange (rt:=sampleRuntime) (evaluateCell (rt:=sampleRuntime) 2) "Sheet1"
    (txt "A1:B2")
    (oneSheet [[Some (literal (VNum 1)); Some (literal (VNum 2))];
               [Some (literal (VNum 3)); Some (literal (VNum 4))]], ∅).
Proof.
  exact (sumRange_corner_order (rt:=sampleRuntime) (evaluateCell (rt:=sampleRuntime) 2)
           "Sheet1" (txt "B2") (txt "A1") _ eq_refl eq_refl).
Defined.

Example sumRange_reversed_corners :
  match sumRange (rt:=sampleRuntime) (evaluateCell (rt:=sampleRuntime) 2) "Sheet1"
          (txt "B2:A1")
          (oneSheet [[Some (literal (VNum 1)); Some (literal (VNum 2))];
                     [Some (literal (VNum 3)); Some (literal (VNum 4))]], ∅)
  with
  | Ok total (st, _) => Some (total, st)
  | _ => None
  end
  = Some (10%float,
          oneSheet [[Some (literal (VNum 1)); Some (literal (VNum 2))];
                    [Some (literal (VNum 3)); Some (literal (VNum 4))]]).
Proof. vm_compute. reflexivity. Qed.

(** ** What the primitives of the cell store do *)

Lemma lookupCell_withRows key f st key' r c :
  lookupCell (withRows key f st) key' r c =
  if decide (key' = key) then
    match mapGet key (sheets (wb st)) with
    | Some s => cellAt (f (rows s)) r c
    | None => None
    end
  else lookupCell st key' r c.
Proof.
  unfold lookupCell, withRows, setSheets; simpl.
  destruct (mapGet key (sheets (wb st))) as [s|] eqn:E.
  - destruct (decide (key' = key)) as [->|Hne].
    + now rewrite mapGet_mapSet_eq.
    + now rewrite mapGet_mapSet_ne by congruence.
  - destruct (decide (key' = key)) as [->|Hne]; [now rewrite E|reflexivity].
Qed.

Lemma cellAt_write g r c x r' c' :
  is_Some (g !! r) ->
  cellAt (alter (setAt c x) r g) r' c' =
  if decide (r' = r /\ c' = c) then Some x else cellAt g r' c'.
Proof.
  intros [row Hrow]. rewrite !cellAt_row.
  destruct (decide (r' = r)) as [->|Hr].
  - rewrite list_lookup_alter_eq, Hrow. simpl. rewrite rowCell_setAt.
    destruct (decide (c' = c)) as [->|Hc].
    + now rewrite decide_True.
    + rewrite decide_False by tauto. reflexivity.
  - rewrite list_lookup_alter_ne by congruence.
    rewrite decide_False by tauto. reflexivity.
Qed.

Lemma writeCell_run key r c x st :
  writeCell key r c x st =
  match mapGet key (sheets (wb st)) with
  | None => Throw (Error ("Sheet not found: " ++ key)) st
  | Some s =>
      match rows s !! r with
      | Some _ => Ok tt (withRows key (alter (setAt c x) r) st)
      | None => Throw TypeError st
      end
  end.
Proof.
  unfold writeCell, bind, getSheet.
  destruct (mapGet key (sheets (wb st))) as [s|]; [|reflexivity].
  destruct (rows s !! r); reflexivity.
Qed.

Lemma readCell_run key r c st :
  readCell key r c st =
  match mapGet key (sheets (wb st)) with
  | None => Throw (Error ("Sheet not found: " ++ key)) st
  | Some s =>
      match rows s !! r with
      | Some _ => Ok (lookupCell st key r c) st
      | None => Throw TypeError st
      end
  end.
Proof.
  unfold readCell, bind, getSheet, lookupCell.
  destruct (mapGet key (sheets (wb st))) as [s|]; [|reflexivity].
  destruct (rows s !! r); reflexivity.
Qed.

(** After a write that returns, the cell written is read back, and every
    other position reads as before. *)
Lemma writeCell_lookup key r c x st st' key' r' c' :
  writeCell key r c x st = Ok tt st' ->
  lookupCell st' key' r' c' =
  if decide (key' = key /\ r' = r /\ c' = c) then Some x
  else lookupCell st key' r' c'.
Proof.
  rewrite writeCell_run.
  destruct (mapGet key (sheets (wb st))) as [s|] eqn:E; [|discriminate].
  destruct (rows s !! r) as [row|] eqn:Er; [|discriminate].
  intros [= <-]. rewrite lookupCell_withRows.
  destruct (decide (key' = key)) as [->|Hk].
  - rewrite E, cellAt_write by eauto.
    destruct (decide (r' = r /\ c' = c)) as [[-> ->]|Hn].
    + now rewrite decide_True.
    + rewrite decide_False by tauto. unfold lookupCell. now rewrite E.
  - rewrite decide_False by tauto. reflexivity.
Qed.

Lemma writeCell_rest key r c x st :
  provStore (stateOf (writeCell key r c x st)) = provStore st /\
  events (wb (stateOf (writeCell key r c x st))) = events (wb st) /\
  checkpoints (wb (stateOf (writeCell key r c x st))) = checkpoints (wb st).
Proof.
  rewrite writeCell_run.
  destruct (mapGet key (sheets (wb st))) as [s|]; [|done].
  destruct (rows s !! r); done.
Qed.

(** ** Frames are kept *)

#[local] Instance frame_preorder W : PreOrder (frame W).
Proof.
  split.
  - intros st. repeat split; auto.
  - intros a b c (C1 & N1 & S1) (C2 & N2 & S2). split; [|split].
    + intros key r c0 x Hn Hx. eauto.
    + intros key r c0 x Hn Hx. destruct (N2 _ _ _ _ Hn Hx) as [H|H]; eauto.
    + eauto.
Qed.

#[local] Instance additive_preorder : PreOrder additive.
Proof.
  split.
  - intros st key r c x H. exists x. split; [exact H|reflexivity].
  - intros a b c H1 H2 key r c0 x Hx.
    destruct (H1 _ _ _ _ Hx) as (x1 & Hx1 & P1).
    destruct (H2 _ _ _ _ Hx1) as (x2 & Hx2 & P2).
    exists x2. split; [exact Hx2|]. etransitivity; eauto.
Qed.

Lemma grown_frame W st st' : grown st st' -> frame W st st'.
Proof.
  intros G. repeat split.
  - intros key r c x _. now apply grown_lookupCell.
  - intros key r c x _. now apply grown_new_cells.
  - destruct G as (_ & _ & -> & _). auto.
Qed.

Lemma grown_additive st st' : grown st st' -> additive st st'.
Proof.
  intros G key r c x Hx. exists x. split; [eapply grown_lookupCell; eauto|].
  destruct G as (_ & _ & Hp & _). unfold provOf. now rewrite Hp.
Qed.

Lemma keeps_weaken {St A} (R R' : St -> St -> Prop) (m : M St A) :
  (forall s s', R s s' -> R' s s') -> keeps R m -> keeps R' m.
Proof. intros H Hm s. apply H, Hm. Qed.

Lemma keeps_ensureSize_frame W key n m : keeps (frame W) (ensureSize key n m).
Proof.
  eapply keeps_weaken; [apply grown_frame|apply keeps_ensureSize_grown].
Qed.

Lemma keeps_readCell R `{!PreOrder R} key r c : keeps R (readCell key r c).
Proof.
  intros st. rewrite readCell_run.
  destruct (mapGet key (sheets (wb st))) as [s|]; [|simpl; reflexivity].
  destruct (rows s !! r); simpl; reflexivity.
Qed.

Lemma keeps_snapshot_grown range : keeps grown (snapshot range).
Proof.
  unfold snapshot.
  apply keeps_bind; [apply _|apply keeps_getSheet; apply _|]. intros _.
  apply keeps_bind; [apply _|apply keeps_ensureSize_grown|]. intros _.
  apply keeps_bind; [apply _|apply keeps_getSheet; apply _|]. intros s.
  apply keeps_ret; apply _.
Qed.

Lemma keeps_writeCell_frame (W : Positions) key r c x :
  W key r c -> keeps (frame W) (writeCell key r c x).
Proof.
  intros HW st.
  assert (L : forall key' r' c', ~ W key' r' c' ->
            lookupCell (stateOf (writeCell key r c x st)) key' r' c'
            = lookupCell st key' r' c').
  { intros key' r' c' Hn.
    destruct (writeCell key r c x st) as [[] st'|e st'|st'] eqn:E; simpl.
    - rewrite (writeCell_lookup _ _ _ _ _ _ _ _ _ E).
      rewrite decide_False; [reflexivity|]. intros (-> & -> & ->). exact (Hn HW).
    - rewrite writeCell_run in E.
      destruct (mapGet key (sheets (wb st))) as [s|]; [|by injection E as <- <-].
      destruct (rows s !! r); [discriminate|]. by injection E as <- <-.
    - rewrite writeCell_run in E.
      destruct (mapGet key (sheets (wb st))) as [s|]; [|discriminate].
      destruct (rows s !! r); discriminate. }
  repeat split.
  - intros key' r' c' y Hn Hy. now rewrite L.
  - intros key' r' c' y Hn Hy. left. now rewrite <- L.
  - intros a l Ha. destruct (writeCell_rest key r c x st) as (-> & _). exact Ha.
Qed.

Lemma alloc_frame W l : keeps (frame W) (alloc l).
Proof.
  intros st. repeat split; [auto|auto|]. intros a l' Ha. simpl.
  now apply lookup_app_l_Some.
Qed.

Lemma appendEvent_frame W op args inv summary :
  keeps (frame W) (appendEvent op args inv summary).
Proof. intros st. repeat split; auto. Qed.

Lemma frame_mono (W W' : Positions) st st' :
  (forall key r c, W key r c -> W' key r c) -> frame W st st' -> frame W' st st'.
Proof.
  intros H (C & N & S). repeat split; [| |exact S].
  - intros key r c x Hn. apply C. intros HW. exact (Hn (H _ _ _ HW)).
  - intros key r c x Hn. apply N. intros HW. exact (Hn (H _ _ _ HW)).
Qed.

(** The loop body of [setValues] writes one position. *)
Lemma keeps_setValues_body (W : Positions) key rr cc v prov :
  W key rr cc ->
  keeps (frame W)
    (o <- readCell key rr cc ;;
     let prev := orEmpty o in
     p <- match prov with
          | Some l => a <- alloc l ;; ret (Some a)
          | None => ret (provenance prev)
          end ;;
     writeCell key rr cc
       {| value := v; formula := None; provenance := p; format := format prev |}).
Proof.
  intros HW.
  apply keeps_bind; [apply _|apply keeps_readCell; apply _|]. intros o. cbv zeta.
  apply keeps_bind; [apply _| |intros p; now apply keeps_writeCell_frame].
  destruct prov as [l|]; [|apply keeps_ret; apply _].
  apply keeps_bind; [apply _|apply alloc_frame|]. intros a. apply keeps_ret; apply _.
Qed.

Lemma keeps_setValues_loop (W : Positions) range values prov :
  (forall key r c, written range values key r c -> W key r c) ->
  keeps (frame W)
    (forEachI values (fun r vs =>
       forEachI vs (fun c v =>
         let rr := (r1 range + r)%nat in
         let cc := (c1 range + c)%nat in
         o <- readCell (sheet range) rr cc ;;
         let prev := orEmpty o in
         p <- match prov with
              | Some l => a <- alloc l ;; ret (Some a)
              | None => ret (provenance prev)
              end ;;
         writeCell (sheet range) rr cc
           {| value := v; formula := None; provenance := p; format := format prev |}))).
Proof.
  intros HW. apply keeps_forEachI; [apply _|]. intros i vs Hi.
  apply keeps_forEachI; [apply _|]. intros j v Hj. cbv zeta.
  apply keeps_setValues_body. apply HW. split; [reflexivity|].
  exists i, j, vs. repeat split; [exact Hi|]. eapply lookup_lt_Some, Hj.
Qed.

Lemma keeps_setValues_frame range values prov :
  keeps (frame (written range values)) (setValues range values prov).
Proof.
  unfold setValues.
  apply keeps_bind; [apply _| |].
  { eapply keeps_weaken; [apply grown_frame|apply keeps_snapshot_grown]. }
  intros before.
  apply keeps_bind; [apply _|apply keeps_getSheet; apply _|]. intros _.
  apply keeps_bind; [apply _|apply keeps_ensureSize_frame|]. intros _.
  apply keeps_bind; [apply _|now apply keeps_setValues_loop|]. intros _.
  apply keeps_bind; [apply _|apply appendEvent_frame|]. intros _.
  apply keeps_ret; apply _.
Qed.

(** ** What a loop establishes *)

Lemma bind_Ok {St A B} (m : M St A) (k : A -> M St B) s b s' :
  bind m k s = Ok b s' -> exists a s1, m s = Ok a s1 /\ k a s1 = Ok b s'.
Proof.
  unfold bind. destruct (m s) as [a s1|e s1|s1]; [|discriminate|discriminate].
  intros H. eauto.
Qed.

Lemma keeps_Ok {St A} (R : St -> St -> Prop) (m : M St A) s a s' :
  keeps R m -> m s = Ok a s' -> R s s'.
Proof. intros H E. specialize (H s). now rewrite E in H. Qed.

(** One turn of a loop, at index [j0], establishes [Q] from [P]; the other
    turns keep a relation [R] under which [P] and [Q] are stable.  Then the
    loop, when it returns, establishes [Q] from [P]. *)
Lemma forEachFrom_establish {St A} (R : St -> St -> Prop) `{!PreOrder R}
    (P Q : St -> Prop) (l : list A) (f : nat -> A -> M St unit) :
  (forall s s', R s s' -> P s -> P s') ->
  (forall s s', R s s' -> Q s -> Q s') ->
  forall i j0 x0,
    l !! j0 = Some x0 ->
    (forall j x, j <> j0 -> l !! j = Some x -> keeps R (f (i + j)%nat x)) ->
    (forall s s', P s -> f (i + j0)%nat x0 s = Ok tt s' -> Q s') ->
    forall s s', P s -> forEachFrom i l f s = Ok tt s' -> Q s'.
Proof.
  intros HP HQ. induction l as [|x l IH]; intros i j0 x0 Hl Hk Ht s s' Ps E;
    [discriminate|].
  cbn [forEachFrom] in E. apply bind_Ok in E as ([] & s1 & E1 & E2).
  destruct j0 as [|j0].
  - injection Hl as ->. rewrite Nat.add_0_r in Ht.
    apply (HQ s1); [|now apply (Ht s)].
    eapply keeps_Ok; [|exact E2]. apply keeps_forEachFrom; [apply _|].
    intros j y Hj. replace (S i + j)%nat with (i + S j)%nat by lia.
    apply Hk; [lia|exact Hj].
  - apply (IH (S i) j0 x0 Hl) with (s := s1); [| | |exact E2].
    + intros j y Hne Hj. replace (S i + j)%nat with (i + S j)%nat by lia.
      apply Hk; [lia|exact Hj].
    + intros t t' Pt Et. apply (Ht t); [exact Pt|].
      now replace (i + S j0)%nat with (S i + j0)%nat by lia.
    + apply (HP s); [|exact Ps]. eapply keeps_Ok; [|exact E1].
      specialize (Hk 0%nat x). rewrite Nat.add_0_r in Hk. apply Hk; [lia|reflexivity].
Qed.

(** ** [setValues] *)

Section SetValues.

Variables (range : RangeRef) (values : list (list CellValue))
          (prov : option (list CellProvenance)).
Variables (i0 j0 : nat) (prev0 : Cell) (v0 : CellValue).

Let key := sheet range.
Let r0 := (r1 range + i0)%nat.
Let c0 := (c1 range + j0)%nat.

(** Every position written except the one under study. *)
Let others : Positions :=
  fun k r c => written range values k r c /\ ~ (r = r0 /\ c = c0).

Let before (s : Model) : Prop := orEmpty (lookupCell s key r0 c0) = prev0.

Let after (s : Model) : Prop :=
  exists x,
    lookupCell s key r0 c0 = Some x /\
    value x = v0 /\ formula x = None /\ format x = format prev0 /\
    match prov with
    | None => provenance x = provenance prev0
    | Some l => exists a, provenance x = Some a /\ provStore s !! a = Some l
    end.

Lemma before_stable s s' : frame others s s' -> before s -> before s'.
Proof.
  intros (C & N & _). unfold before. intros <-.
  assert (Hn : ~ others key r0 c0) by (intros [_ H]; tauto).
  destruct (lookupCell s key r0 c0) as [x|] eqn:E.
  - now rewrite (C _ _ _ _ Hn E).
  - destruct (lookupCell s' key r0 c0) as [y|] eqn:E'; [|reflexivity].
    destruct (N _ _ _ _ Hn E') as [H|H]; [congruence|]. now subst y.
Qed.

Lemma after_stable s s' : frame others s s' -> after s -> after s'.
Proof.
  intros (C & _ & S) (x & Hx & Hv & Hf & Hfmt & Hp).
  assert (Hn : ~ others key r0 c0) by (intros [_ H]; tauto).
  exists x. repeat split; auto.
  destruct prov as [l|]; [|exact Hp]. destruct Hp as (a & Ha & Hl). eauto.
Qed.

Lemma setValues_body_establishes s s' :
  before s ->
  (o <- readCell key r0 c0 ;;
   let prev := orEmpty o in
   p <- match prov with
        | Some l => a <- alloc l ;; ret (Some a)
        | None => ret (provenance prev)
        end ;;
   writeCell key r0 c0
     {| value := v0; formula := None; provenance := p; format := format prev |}) s
  = Ok tt s' ->
  after s'.
Proof.
  unfold before. intros Hb E.
  apply bind_Ok in E as (o & s1 & E1 & E). cbv zeta in E.
  rewrite readCell_run in E1.
  destruct (mapGet key (sheets (wb s))) as [sh|]; [|discriminate].
  destruct (rows sh !! r0); [|discriminate]. injection E1 as <- <-.
  rewrite Hb in E. apply bind_Ok in E as (p & s2 & E2 & E).
  pose proof (writeCell_lookup _ _ _ _ _ _ key r0 c0 E) as L.
  rewrite decide_True in L by tauto.
  pose proof (writeCell_rest key r0 c0
                {| value := v0; formula := None; provenance := p;
                   format := format prev0 |} s2) as (Hs & _).
  rewrite E in Hs. simpl in Hs.
  eexists. split; [exact L|]. simpl. repeat split.
  destruct prov as [pl|].
  - apply bind_Ok in E2 as (a & s3 & E3 & E4). injection E4 as <- <-.
    unfold alloc in E3. injection E3 as <- <-. eexists. split; [reflexivity|].
    rewrite Hs. simpl. rewrite lookup_app_r by lia.
    now rewrite Nat.sub_diag.
  - now injection E2 as <- <-.
Qed.

Hypothesis Hi : exists vs, values !! i0 = Some vs /\ vs !! j0 = Some v0.

Lemma setValues_loop_establishes s s' :
  before s ->
  forEachI values (fun r vs =>
    forEachI vs (fun c v =>
      let rr := (r1 range + r)%nat in
      let cc := (c1 range + c)%nat in
      o <- readCell (sheet range) rr cc ;;
      let prev := orEmpty o in
      p <- match prov with
           | Some l => a <- alloc l ;; ret (Some a)
           | None => ret (provenance prev)
           end ;;
      writeCell (sheet range) rr cc
        {| value := v; formula := None; provenance := p; format := format prev |})) s
  = Ok tt s' ->
  after s'.
Proof.
  destruct Hi as (vs0 & Hv & Hj). unfold forEachI.
  apply (forEachFrom_establish (frame others) before after values _
           before_stable after_stable 0 i0 vs0 Hv).
  - intros i vs Hne Hvs. cbn [Nat.add].
    apply keeps_forEachI; [apply _|]. intros j v Hjv. cbv zeta.
    apply keeps_setValues_body. split.
    + split; [reflexivity|]. exists i, j, vs. repeat split; [exact Hvs|].
      eapply lookup_lt_Some, Hjv.
    + subst r0. lia.
  - cbn [Nat.add]. unfold forEachI.
    apply (forEachFrom_establish (frame others) before after vs0 _
             before_stable after_stable 0 j0 v0 Hj).
    + intros j v Hne Hjv. cbn [Nat.add]. cbv zeta.
      apply keeps_setValues_body. split.
      * split; [reflexivity|]. exists i0, j, vs0. repeat split; [exact Hv|].
        eapply lookup_lt_Some, Hjv.
      * subst c0. lia.
    + cbn [Nat.add]. cbv zeta. apply setValues_body_establishes.
Qed.

End SetValues.

Lemma grown_orEmpty st st' key r c :
  grown st st' -> orEmpty (lookupCell st' key r c) = orEmpty (lookupCell st key r c).
Proof.
  intros G. destruct (lookupCell st key r c) as [x|] eqn:E.
  - now rewrite (grown_lookupCell _ _ _ _ _ _ G E).
  - destruct (lookupCell st' key r c) as [y|] eqn:E'; [|reflexivity].
    destruct (grown_new_cells _ _ _ _ _ _ G E') as [H|H]; [congruence|]. now subst y.
Qed.

(** A data array fits a range when it has no more rows and no longer rows
    than the rectangle. *)
Lemma written_inRange {A} (range : RangeRef) (data : list (list A)) key r c :
  (length data <= r2 range + 1 - r1 range)%nat ->
  Forall (fun row => (length row <= c2 range + 1 - c1 range)%nat) data ->
  written range data key r c -> inRange range key r c.
Proof.
  intros Hr Hc (-> & i & j & row & Hi & Hj & -> & ->).
  split; [reflexivity|].
  pose proof (lookup_lt_Some _ _ _ Hi) as Hlt.
  eapply Forall_lookup_1 in Hc; [|exact Hi]. simpl in Hc. lia.
Qed.

Lemma setValues_written_cells range values prov st u st' :
  setValues range values prov st = Ok u st' ->
  forall i j vs v,
    values !! i = Some vs -> vs !! j = Some v ->
    let prev := orEmpty (lookupCell st (sheet range) (r1 range + i) (c1 range + j)) in
    exists x,
      lookupCell st' (sheet range) (r1 range + i) (c1 range + j) = Some x /\
      value x = v /\ formula x = None /\ format x = format prev /\
      match prov with
      | None => provenance x = provenance prev
      | Some l => exists a, provenance x = Some a /\ provStore st' !! a = Some l
      end.
Proof.
  intros E i j vs v Hi Hj prev.
  unfold setValues in E.
  apply bind_Ok in E as (before & s1 & E1 & E).
  apply bind_Ok in E as (sh & s2 & E2 & E).
  apply bind_Ok in E as ([] & s3 & E3 & E).
  apply bind_Ok in E as ([] & s4 & E4 & E).
  apply bind_Ok in E as (ev & s5 & E5 & E).
  injection E as _ <-.
  assert (G : grown st s3).
  { transitivity s1; [eapply keeps_Ok; [apply keeps_snapshot_grown|exact E1]|].
    transitivity s2; [eapply keeps_Ok; [apply keeps_getSheet; apply _|exact E2]|].
    eapply keeps_Ok; [apply keeps_ensureSize_grown|exact E3]. }
  pose proof (setValues_loop_establishes range values prov i j prev v
                (ex_intro _ vs (conj Hi Hj)) s3 s4
                (grown_orEmpty _ _ _ _ _ G) E4) as (x & Hx & Hrest).
  unfold appendEvent, bind, modify in E5. injection E5 as _ <-.
  exists x. split; [exact Hx|exact Hrest].
Qed.

(** C4, as the code has it.  [setValues] writes the positions that the
    [values] array covers from the top-left corner of the range, whatever
    [r2] and [c2] are: nothing clips the writes to the rectangle.
    - Whatever the call ends in, every cell at another position is
      unchanged (value, formula, format, provenance), no cell appears there
      but empty cells added by growth, and the provenance arrays of the
      model keep their entries.
    - When the call returns, each position [(r1 + i, c1 + j)] holds
      [values[i][j]] with no formula, the format it had before, and as
      provenance a copy of the argument, or what it had before when there
      is no argument.
    - When [values] is no larger than the rectangle, the positions written
      are inside the rectangle. *)
Theorem setValues_writes_the_values_array
    (range : RangeRef) (values : list (list CellValue))
    (prov : option (list CellProvenance)) (st : Model) :
  frame (written range values) st (stateOf (setValues range values prov st)) /\
  (forall u st' i j vs v,
      setValues range values prov st = Ok u st' ->
      values !! i = Some vs -> vs !! j = Some v ->
      let prev := orEmpty (lookupCell st (sheet range) (r1 range + i) (c1 range + j)) in
      exists x,
        lookupCell st' (sheet range) (r1 range + i) (c1 range + j) = Some x /\
        value x = v /\ formula x = None /\ format x = format prev /\
        match prov with
        | None => provenance x = provenance prev
        | Some l => exists a, provenance x = Some a /\ provStore st' !! a = Some l
        end) /\
  ((length values <= r2 range + 1 - r1 range)%nat ->
   Forall (fun vs => (length vs <= c2 range + 1 - c1 range)%nat) values ->
   forall key r c, written range values key r c -> inRange range key r c).
Proof.
  split; [apply keeps_setValues_frame|]. split.
  - intros u st' i j vs v E. now apply (setValues_written_cells _ _ _ _ _ _ E).
  - intros Hr Hc key r c. now apply written_inRange.
Qed.

(** A 3 by 3 sheet of formula cells, and [setValues] on its top-left 2 by 2
    range. *)
Lemma setValues_2x2_witness :
  let f := Some (withFormula "=1+1") in
  let st := oneSheet [[f; f; f]; [f; f; f]; [f; f; f]] in
  let range := {| sheet := "Sheet1"; r1 := 0; c1 := 0; r2 := 1; c2 := 1 |} in
  let values := [[VNum 1; VNum 2]; [VNum 3; VNum 4]] in
  let st' := stateOf (setValues range values None st) in
  lookupCell st' "Sheet1" 2 2 = Some (withFormula "=1+1") /\
  lookupCell st' "Sheet1" 0 2 = Some (withFormula "=1+1") /\
  (exists x, lookupCell st' "Sheet1" 1 1 = Some x /\ value x = VNum 4 /\ formula x = None).
Proof.
  intros f st range values st'.
  destruct (setValues_writes_the_values_array range values None st) as ((C & _) & W & _).
  assert (Hout : forall r c, (2 <= r)%nat \/ (2 <= c)%nat -> ~ written range values "Sheet1" r c).
  { intros r c H (_ & i & j & row & Hi & Hj & -> & ->).
    destruct i as [|[|i]]; simpl in Hi; [| |discriminate];
      injection Hi as <-; simpl in *; lia. }
  split; [|split].
  - apply C; [apply Hout; lia|reflexivity].
  - apply C; [apply Hout; lia|reflexivity].
  - destruct (W tt st' 1%nat 1%nat [VNum 3; VNum 4] (VNum 4) eq_refl eq_refl eq_refl)
      as (x & Hx & Hv & Hf & _).
    exists x. auto.
Defined.

(** C4, as stated, fails: on a range of the single cell [A1], a [values]
    row of two entries also overwrites [B1], outside the range. *)
Lemma setValues_writes_outside_the_range :
  let st := oneSheet [[Some (literal (VStr "x")); Some (withFormula "=A1")]] in
  let range := {| sheet := "Sheet1"; r1 := 0; c1 := 0; r2 := 0; c2 := 0 |} in
  let st' := stateOf (setValues range [[VNum 7; VNum 8]] None st) in
  (c2 range < 1)%nat /\
  lookupCell st "Sheet1" 0 1 = Some (withFormula "=A1") /\
  lookupCell st' "Sheet1" 0 1 = Some (literal (VNum 8)).
Proof. vm_compute. repeat split. constructor. Qed.

(** ** Provenance under the operations *)

Lemma provOf_same_store st st' x :
  provStore st' = provStore st -> provOf st' x = provOf st x.
Proof. unfold provOf. now intros ->. Qed.

(** A returned write keeps provenance additive when the cell it replaces,
    if there is one, has a provenance list that the new cell extends. *)
Lemma writeCell_additive key r c x st :
  (forall y, lookupCell st key r c = Some y -> provOf st y `prefix_of` provOf st x) ->
  additive st (stateOf (writeCell key r c x st)).
Proof.
  intros H key' r' c' y Hy.
  pose proof (writeCell_rest key r c x st) as (Hs & _).
  destruct (writeCell key r c x st) as [[] st'|e st'|st'] eqn:E; simpl in *.
  - rewrite (writeCell_lookup _ _ _ _ _ _ _ _ _ E).
    destruct (decide (key' = key /\ r' = r /\ c' = c)) as [(-> & -> & ->)|Hn].
    + exists x. split; [reflexivity|]. rewrite (provOf_same_store _ _ x Hs). now apply H.
    + exists y. split; [exact Hy|]. now rewrite (provOf_same_store _ _ y Hs).
  - rewrite writeCell_run in E.
    assert (st' = st) as ->.
    { destruct (mapGet key (sheets (wb st))) as [s|]; [|congruence].
      destruct (rows s !! r); congruence. }
    exists y. split; [exact Hy|reflexivity].
  - rewrite writeCell_run in E.
    destruct (mapGet key (sheets (wb st))) as [s|]; [|discriminate].
    destruct (rows s !! r); discriminate.
Qed.

Lemma alloc_additive l : keeps additive (alloc l).
Proof.
  intros st key r c x Hx. exists x. split; [exact Hx|]. unfold provOf; simpl.
  destruct (provenance x) as [a|]; [|reflexivity].
  destruct (provStore st !! a) as [old|] eqn:E.
  - now rewrite (lookup_app_l_Some _ _ _ _ E).
  - simpl. apply prefix_nil.
Qed.

Lemma pushAll_additive a l : keeps additive (pushAll a l).
Proof.
  intros st key r c x Hx. exists x. split; [exact Hx|]. unfold provOf; simpl.
  destruct (provenance x) as [b|]; [|reflexivity].
  destruct (decide (a = b)) as [->|Hne].
  - rewrite list_lookup_alter_eq. destruct (provStore st !! b); simpl; [|reflexivity].
    now apply prefix_app_r.
  - now rewrite list_lookup_alter_ne.
Qed.

Lemma appendEvent_additive op args inv summary :
  keeps additive (appendEvent op args inv summary).
Proof. intros st key r c x Hx. exists x. split; [exact Hx|reflexivity]. Qed.

Lemma keeps_ensureSize_additive key n m : keeps additive (ensureSize key n m).
Proof.
  eapply keeps_weaken; [apply grown_additive|apply keeps_ensureSize_grown].
Qed.

Lemma keeps_snapshot_additive range : keeps additive (snapshot range).
Proof.
  eapply keeps_weaken; [apply grown_additive|apply keeps_snapshot_grown].
Qed.

(** A loop body that reads a cell and writes back a cell with the same
    provenance array. *)
Lemma keeps_rewrite_additive key r c (g : Cell -> Cell) :
  (forall prev, provenance (g prev) = provenance prev) ->
  keeps additive (o <- readCell key r c ;; writeCell key r c (g (orEmpty o))).
Proof.
  intros Hg st. unfold bind. rewrite readCell_run.
  destruct (mapGet key (sheets (wb st))) as [s|] eqn:Em; [|simpl; reflexivity].
  destruct (rows s !! r) as [row|] eqn:Er; [|simpl; reflexivity].
  apply writeCell_additive. intros y Hy. rewrite Hy. simpl.
  unfold provOf. now rewrite Hg.
Qed.

Lemma keeps_setFormulas_additive range formulas :
  keeps additive (setFormulas range formulas).
Proof.
  unfold setFormulas.
  apply keeps_bind; [apply _|apply keeps_snapshot_additive|]. intros before.
  apply keeps_bind; [apply _|apply keeps_getSheet; apply _|]. intros _.
  apply keeps_bind; [apply _|apply keeps_ensureSize_additive|]. intros _.
  apply keeps_bind; [apply _| |].
  { apply keeps_forEachI; [apply _|]. intros i fs _.
    apply keeps_forEachI; [apply _|]. intros j f _. cbv zeta.
    apply (keeps_rewrite_additive _ _ _
             (fun prev => {| value := VNull; formula := f;
                             provenance := provenance prev; format := format prev |})).
    reflexivity. }
  intros _. apply keeps_bind; [apply _|apply appendEvent_additive|]. intros _.
  apply keeps_ret; apply _.
Qed.

Lemma keeps_formatRange_additive range fmt :
  keeps additive (formatRange range fmt).
Proof.
  unfold formatRange.
  apply keeps_bind; [apply _|apply keeps_snapshot_additive|]. intros before.
  apply keeps_bind; [apply _|apply keeps_getSheet; apply _|]. intros _.
  apply keeps_bind; [apply _|apply keeps_ensureSize_additive|]. intros _.
  apply keeps_bind; [apply _| |].
  { apply keeps_forEach; [apply _|]. intros r _.
    apply keeps_forEach; [apply _|]. intros c _. cbv zeta.
    apply (keeps_rewrite_additive _ _ _
             (fun prev => {| value := value prev; formula := formula prev;
                             provenance := provenance prev; format := fmt |})).
    reflexivity. }
  intros _. apply keeps_bind; [apply _|apply appendEvent_additive|]. intros _.
  apply keeps_ret; apply _.
Qed.

Lemma keeps_setValues_additive range values :
  keeps additive (setValues range values None).
Proof.
  unfold setValues.
  apply keeps_bind; [apply _|apply keeps_snapshot_additive|]. intros before.
  apply keeps_bind; [apply _|apply keeps_getSheet; apply _|]. intros _.
  apply keeps_bind; [apply _|apply keeps_ensureSize_additive|]. intros _.
  apply keeps_bind; [apply _| |].
  { apply keeps_forEachI; [apply _|]. intros i vs _.
    apply keeps_forEachI; [apply _|]. intros j v _. cbv zeta.
    intros st.
    pose proof (keeps_rewrite_additive (sheet range) (r1 range + i) (c1 range + j)
             (fun prev => {| value := v; formula := None;
                             provenance := provenance prev; format := format prev |})
             (fun _ => eq_refl) st) as H.
    unfold bind in *. destruct (readCell _ _ _ st); exact H. }
  intros _. apply keeps_bind; [apply _|apply appendEvent_additive|]. intros _.
  apply keeps_ret; apply _.
Qed.

(** The loop body of [linkProvenance] on one cell. *)
Lemma keeps_link_body key r c prov :
  keeps additive
    (o <- readCell key r c ;;
     match o with
     | None => throw TypeError
     | Some cell =>
         match provenance cell with
         | Some a => pushAll a prov
         | None =>
             a <- alloc [] ;;
             writeCell key r c
               {| value := value cell; formula := formula cell;
                  provenance := Some a; format := format cell |} ;;;
             pushAll a prov
         end
     end).
Proof.
  intros st. unfold bind at 1. rewrite readCell_run.
  destruct (mapGet key (sheets (wb st))) as [s|] eqn:Em; [|simpl; reflexivity].
  destruct (rows s !! r) as [row|] eqn:Er; [|simpl; reflexivity].
  destruct (lookupCell st key r c) as [cell|] eqn:El; [|simpl; reflexivity].
  destruct (provenance cell) as [a|] eqn:Ep; [apply pushAll_additive|].
  unfold bind at 1. unfold alloc at 1.
  set (st1 := setStore (fun h => h ++ [[]]) st).
  transitivity st1; [apply (alloc_additive [] st)|].
  set (x := {| value := value cell; formula := formula cell;
               provenance := Some (length (provStore st)); format := format cell |}).
  assert (A : additive st1 (stateOf (writeCell key r c x st1))).
  { apply writeCell_additive. intros y Hy.
    assert (y = cell) as -> by (unfold lookupCell in *; simpl in *; congruence).
    unfold provOf at 1. rewrite Ep. apply prefix_nil. }
  unfold bind. destruct (writeCell key r c x st1) as [[] st2|e st2|st2]; simpl in *;
    [|exact A|exact A].
  transitivity st2; [exact A|apply pushAll_additive].
Qed.

Lemma keeps_linkProvenance_additive range prov :
  keeps additive (linkProvenance range prov).
Proof.
  unfold linkProvenance.
  apply keeps_bind; [apply _|apply keeps_snapshot_additive|]. intros before.
  apply keeps_bind; [apply _|apply keeps_getSheet; apply _|]. intros _.
  apply keeps_bind; [apply _| |].
  { apply keeps_forEach; [apply _|]. intros r _.
    apply keeps_forEach; [apply _|]. intros c _. apply keeps_link_body. }
  intros _. apply keeps_bind; [apply _|apply appendEvent_additive|]. intros _.
  apply keeps_ret; apply _.
Qed.

Lemma setValues_stamps range values l st u st' i j vs v :
  setValues range values (Some l) st = Ok u st' ->
  values !! i = Some vs -> vs !! j = Some v ->
  exists x,
    lookupCell st' (sheet range) (r1 range + i) (c1 range + j) = Some x /\
    provOf st' x = l.
Proof.
  intros E Hi Hj.
  destruct (setValues_written_cells _ _ _ _ _ _ E i j vs v Hi Hj)
    as (x & Hx & _ & _ & _ & a & Ha & Hl).
  exists x. split; [exact Hx|]. unfold provOf. now rewrite Ha, Hl.
Qed.

(** C5, as the code has it.  Provenance is only added to by [setFormulas],
    [formatRange], [linkProvenance] and [setValues] without a provenance
    argument: whatever the call ends in, every cell of the model before is
    still there, and its provenance list before is a prefix of its list
    after.  [setValues] with a provenance argument stamps instead: when it
    returns, the provenance list of every cell it has written is a copy of
    the argument, whatever the cell held before. *)
Theorem provenance_appended_or_stamped :
  (forall range formulas st,
      additive st (stateOf (setFormulas range formulas st))) /\
  (forall range fmt st,
      additive st (stateOf (formatRange range fmt st))) /\
  (forall range prov st,
      additive st (stateOf (linkProvenance range prov st))) /\
  (forall range values st,
      additive st (stateOf (setValues range values None st))) /\
  (forall range values l st u st' i j vs v,
      setValues range values (Some l) st = Ok u st' ->
      values !! i = Some vs -> vs !! j = Some v ->
      exists x,
        lookupCell st' (sheet range) (r1 range + i) (c1 range + j) = Some x /\
        provOf st' x = l).
Proof.
  split; [intros; apply keeps_setFormulas_additive|].
  split; [intros; apply keeps_formatRange_additive|].
  split; [intros; apply keeps_linkProvenance_additive|].
  split; [intros; apply keeps_setValues_additive|].
  intros. eapply setValues_stamps; eauto.
Qed.

Lemma provenance_witness :
  provAt stampedModel "Sheet1" 0 0 = Some [doc "d1"] /\
  exists x',
    lookupCell (stateOf (linkProvenance cellA1 [doc "d2"] stampedModel)) "Sheet1" 0 0
      = Some x' /\
    [doc "d1"] `prefix_of`
      provOf (stateOf (linkProvenance cellA1 [doc "d2"] stampedModel)) x'.
Proof.
  split; [reflexivity|].
  destruct provenance_appended_or_stamped as (_ & _ & H & _).
  destruct (H cellA1 [doc "d2"] stampedModel "Sheet1"%string 0%nat 0%nat
              (literalWith (VNum 1) 0) eq_refl) as (x' & Hx & Hp).
  exists x'. split; [exact Hx|exact Hp].
Defined.

Example linkProvenance_appends :
  provAt (stateOf (linkProvenance cellA1 [doc "d2"] stampedModel)) "Sheet1" 0 0
  = Some [doc "d1"; doc "d2"].
Proof. reflexivity. Qed.

(** C5, as stated, fails: [setValues] with a provenance argument replaces
    the provenance of the cell it writes; the entry [d1] is gone. *)
Lemma setValues_replaces_provenance :
  provAt stampedModel "Sheet1" 0 0 = Some [doc "d1"] /\
  provAt (stateOf (setValues cellA1 [[VNum 5]] (Some [doc "d2"]) stampedModel))
         "Sheet1" 0 0 = Some [doc "d2"].
Proof. split; reflexivity. Qed.

(** ** Undo after [linkProvenance] *)

Lemma undoTimes_add a b st : undoTimes (a + b) st = undoTimes b (undoTimes a st).
Proof.
  revert st. induction a as [|a IH]; intros st; [reflexivity|]. simpl. apply IH.
Qed.

Example undo_once_after_link :
  provAt linkedModel "Sheet1" 0 0 = Some [doc "d1"; doc "d2"] /\
  provAt (undoTimes 1 linkedModel) "Sheet1" 0 0 = Some [doc "d1"; doc "d2"] /\
  provAt (undoTimes 3 linkedModel) "Sheet1" 0 0 = Some [].
Proof. repeat split. Qed.


Lemma undo_cycle : undoTimes 2 (undoTimes 5 linkedModel) = undoTimes 5 linkedModel.
Proof. vm_compute. reflexivity. Qed.

Lemma undo_cycle_provenance n :
  (provAt (undoTimes n (undoTimes 5 linkedModel)) "Sheet1" 0 0 = None \/
   provAt (undoTimes n (undoTimes 5 linkedModel)) "Sheet1" 0 0 = Some []) /\
  (provAt (undoTimes (S n) (undoTimes 5 linkedModel)) "Sheet1" 0 0 = None \/
   provAt (undoTimes (S n) (undoTimes 5 linkedModel)) "Sheet1" 0 0 = Some []).
Proof.
  induction n as [|n [IH1 IH2]].
  - split; [left|right]; reflexivity.
  - split; [exact IH2|].
    change (S (S n)) with (2 + n)%nat. rewrite undoTimes_add, undo_cycle. exact IH1.
Qed.

(** C1 at the failing input.  [A1] is written with the provenance [[d1]], a
    checkpoint is taken, and [linkProvenance] adds [[d2]] to [A1].  Right
    after the checkpoint the provenance of [A1] is [[d1]].  After any
    number of [undo()] calls it is not: it is [[d1, d2]] (the first undo
    replays a pre-image whose provenance array is the one [linkProvenance]
    has pushed onto), then [[]] once the write of [A1] itself is undone,
    or there is no cell when the sheet is deleted. *)
Theorem undo_after_linkProvenance (n : nat) :
  provAt checkpointedModel "Sheet1" 0 0 = Some [doc "d1"] /\
  (provAt (undoTimes n linkedModel) "Sheet1" 0 0 = Some [doc "d1"; doc "d2"] \/
   provAt (undoTimes n linkedModel) "Sheet1" 0 0 = Some [] \/
   provAt (undoTimes n linkedModel) "Sheet1" 0 0 = None).
Proof.
  split; [reflexivity|].
  destruct (Nat.lt_ge_cases n 5) as [Hlt|Hge].
  - destruct n as [|[|[|[|[|n]]]]]; [| | | | |lia].
    1-3: left; reflexivity.
    1-2: right; left; reflexivity.
  - replace n with (5 + (n - 5))%nat by lia. rewrite undoTimes_add.
    destruct (undo_cycle_provenance (n - 5)) as [[H|H] _]; auto.
Qed.

(** ** The plan executor *)

Lemma planLoop_failure pre : forall bad post executed st sk m sbad,
  runSteps pre st = Some sk ->
  runStep bad sk = Throw (Error m) sbad ->
  planLoop (pre ++ bad :: post) executed st
    = Ok (executed ++ pre ++ [failed bad m]) sbad.
Proof.
  induction pre as [|step pre IH]; intros bad post executed st sk m sbad Hpre Hbad.
  - injection Hpre as ->. simpl. now rewrite Hbad.
  - simpl in *. destruct (runStep step st) as [[] st1|e st1|st1]; try discriminate.
    rewrite (IH _ _ _ _ _ _ _ Hpre Hbad). now rewrite <- app_assoc.
Qed.

Lemma planLoop_success todo : forall executed st sk,
  runSteps todo st = Some sk ->
  planLoop todo executed st = Ok (executed ++ todo) sk.
Proof.
  induction todo as [|step todo IH]; intros executed st sk H.
  - injection H as ->. simpl. now rewrite app_nil_r.
  - simpl in *. destruct (runStep step st) as [[] st1|e st1|st1]; try discriminate.
    rewrite (IH _ _ _ H). now rewrite <- app_assoc.
Qed.


Example rowZeroPlan_loop :
  planLoop (steps rowZeroPlan) [] freshModel
  = Ok [ {| step_op := "setFormulas";
            step_args := PFormulas (planRange "Sheet1" 0 0) [[Some "=A0"%string]];
            explain := None |};
         {| step_op := "setValues";
            step_args := PValues (planRange "Nope" 0 0) [[VNum 2%float]] None;
            explain := Some "FAILED: Sheet not found: Nope"%string |} ]
       (stateOf (planLoop (steps rowZeroPlan) [] freshModel)).
Proof. reflexivity. Qed.

(** C3 at the failing input.  The first step of [rowZeroPlan] writes the
    formula [=A0] into [A1], the second fails on a missing sheet and stops
    the loop.  The recomputation after the loop then throws: the reference
    [A0] is row [-1], and [getCell] reads [rows[-1][0]].  [executePlan]
    ends in that [TypeError], and the only checkpoint of the model is still
    ["init"]: none named ["agent"] was taken.  This holds for every engine
    and any fuel from two nested calls on. *)
Theorem executePlan_throws_on_row_zero {rt : Runtime} (fuel : nat) :
  exists st',
    executePlan (S (S fuel)) rowZeroPlan freshModel = Throw TypeError st' /\
    checkpoints (wb st') = [{| id := "init"; atEvent := 1 |}] /\
    (formula <$> lookupCell st' "Sheet1" 0 0) = Some (Some "=A0"%string).
Proof.
  destruct rt as [num2 str2 ev2]. eexists. split; [vm_compute; reflexivity|].
  split; reflexivity.
Qed.

(** ** Undo of one operation *)

#[local] Instance sameLog_preorder : PreOrder sameLog.
Proof.
  split.
  - intros st. repeat split. eauto.
  - intros a b c (E1 & C1 & S1) (E2 & C2 & S2). repeat split; try congruence.
    intros key s Hs. destruct (S1 _ _ Hs) as (s1 & H1 & L1).
    destruct (S2 _ _ H1) as (s2 & H2 & L2). exists s2. split; [exact H2|lia].
Qed.

Lemma grown_sameLog st st' : grown st st' -> sameLog st st'.
Proof.
  intros (E & C & _ & _ & HS). repeat split; auto.
  intros key s Hs. specialize (HS key). rewrite Hs in HS.
  destruct (mapGet key (sheets (wb st'))) as [s'|]; [|done].
  exists s'. split; [reflexivity|]. destruct HS as (_ & L & _). exact L.
Qed.

Lemma keeps_writeCell_sameLog key r c x : keeps sameLog (writeCell key r c x).
Proof.
  intros st. rewrite writeCell_run.
  destruct (mapGet key (sheets (wb st))) as [s|] eqn:E; [|simpl; reflexivity].
  destruct (rows s !! r) as [row|] eqn:Er; [|simpl; reflexivity]. simpl.
  repeat split. intros k s0 Hs0.
  unfold withRows, setSheets; simpl. rewrite E.
  destruct (decide (key = k)) as [->|Hne].
  - rewrite mapGet_mapSet_eq. eexists. split; [reflexivity|]. simpl.
    rewrite length_alter. assert (s0 = s) as -> by congruence. lia.
  - rewrite mapGet_mapSet_ne by exact Hne. eauto.
Qed.

Lemma keeps_alloc_sameLog l : keeps sameLog (alloc l).
Proof. intros st. repeat split. eauto. Qed.

(** A loop whose every turn returns and keeps an invariant returns. *)
Lemma forEachFrom_returns {St A} (I : St -> Prop) (l : list A)
    (f : nat -> A -> M St unit) : forall i,
  (forall j x s, l !! j = Some x -> I s -> exists s', f (i + j)%nat x s = Ok tt s' /\ I s') ->
  forall s, I s -> exists s', forEachFrom i l f s = Ok tt s' /\ I s'.
Proof.
  induction l as [|x l IH]; intros i H s Hs; simpl.
  - exists s. split; [reflexivity|exact Hs].
  - destruct (H 0%nat x s eq_refl Hs) as (s1 & E1 & I1).
    rewrite Nat.add_0_r in E1. unfold bind. rewrite E1.
    apply IH; [|exact I1]. intros j y t Hj It.
    replace (S i + j)%nat with (i + S j)%nat by lia. now apply H.
Qed.

Lemma forEachI_returns {St A} (I : St -> Prop) (l : list A)
    (f : nat -> A -> M St unit) :
  (forall j x s, l !! j = Some x -> I s -> exists s', f j x s = Ok tt s' /\ I s') ->
  forall s, I s -> exists s', forEachI l f s = Ok tt s' /\ I s'.
Proof. intros H. apply forEachFrom_returns. exact H. Qed.

(** ** [setCells] *)

Lemma keeps_setCells_frame range cells :
  keeps (frame (written range cells)) (setCells range cells).
Proof.
  unfold setCells.
  apply keeps_bind; [apply _|apply keeps_getSheet; apply _|]. intros _.
  apply keeps_bind; [apply _|apply keeps_ensureSize_frame|]. intros _.
  apply keeps_bind; [apply _| |].
  { apply keeps_forEachI; [apply _|]. intros i xs Hi.
    apply keeps_forEachI; [apply _|]. intros j x Hj.
    apply keeps_writeCell_frame. split; [reflexivity|].
    exists i, j, xs. repeat split; [exact Hi|]. eapply lookup_lt_Some, Hj. }
  intros _. apply keeps_bind; [apply _|apply appendEvent_frame|]. intros _.
  apply keeps_ret; apply _.
Qed.

Lemma writeCell_returns key n r c x st :
  hasRows key n st -> (r < n)%nat ->
  exists st', writeCell key r c x st = Ok tt st' /\ hasRows key n st'.
Proof.
  intros (s & Hs & Hn) Hr. rewrite writeCell_run, Hs.
  destruct (rows s !! r) as [row|] eqn:Er.
  - eexists. split; [reflexivity|]. unfold hasRows, withRows, setSheets; simpl.
    rewrite Hs, mapGet_mapSet_eq. eexists. split; [reflexivity|]. simpl.
    now rewrite length_alter.
  - apply lookup_ge_None in Er. lia.
Qed.

Lemma ensureSize_returns key n m st :
  is_Some (mapGet key (sheets (wb st))) ->
  exists st', ensureSize key n m st = Ok tt st' /\ hasRows key n st' /\ grown st st'.
Proof.
  intros [s Hs]. rewrite (ensureSize_Some _ _ _ _ _ Hs). eexists. split; [reflexivity|].
  split.
  - unfold hasRows. rewrite (withRows_mapGet _ _ _ _ Hs). eexists. split; [reflexivity|].
    simpl. rewrite padRows_length. lia.
  - apply grown_withRows. intros g. apply grownRows_padRows.
Qed.

(** [setCells] returns when the sheet exists and the cells fit the range,
    and then every position it covers holds the cell given for it. *)
Lemma setCells_returns range cells st :
  is_Some (mapGet (sheet range) (sheets (wb st))) ->
  fits range cells ->
  exists st', setCells range cells st = Ok tt st'.
Proof.
  intros Hs [Hr Hc]. unfold setCells.
  destruct Hs as [s Hs]. unfold bind at 1. rewrite (getSheet_Some _ _ _ Hs).
  destruct (ensureSize_returns (sheet range) (r2 range + 1) (c2 range + 1) st)
    as (s1 & E1 & H1 & _); [eauto|].
  unfold bind at 1. rewrite E1.
  destruct (forEachI_returns (hasRows (sheet range) (r2 range + 1)) cells
              (fun r xs => forEachI xs (fun c x =>
                 writeCell (sheet range) (r1 range + r) (c1 range + c) x))) with (s := s1)
    as (s2 & E2 & H2); [|exact H1|].
  { intros i xs t Hi Ht.
    apply forEachI_returns; [|exact Ht].
    intros j x t' Hj Ht'. apply writeCell_returns; [exact Ht'|].
    apply lookup_lt_Some in Hi. lia. }
  unfold bind at 1. rewrite E2. eexists. reflexivity.
Qed.

Lemma setCells_written_cells range cells st u st' :
  setCells range cells st = Ok u st' ->
  forall i j xs x,
    cells !! i = Some xs -> xs !! j = Some x ->
    lookupCell st' (sheet range) (r1 range + i) (c1 range + j) = Some x.
Proof.
  intros E i j xs x Hi Hj. unfold setCells in E.
  apply bind_Ok in E as (sh & s1 & E1 & E).
  apply bind_Ok in E as ([] & s2 & E2 & E).
  apply bind_Ok in E as ([] & s3 & E3 & E).
  apply bind_Ok in E as (ev & s4 & E4 & E).
  injection E as _ <-.
  unfold appendEvent, bind, modify in E4. injection E4 as _ <-.
  set (others := fun k r c => written range cells k r c
                              /\ ~ (r = (r1 range + i)%nat /\ c = (c1 range + j)%nat)).
  set (Q := fun s : Model =>
              lookupCell s (sheet range) (r1 range + i) (c1 range + j) = Some x).
  assert (HQ : forall s s', frame others s s' -> Q s -> Q s').
  { intros s s' (C & _) Hq. apply C; [|exact Hq]. intros [_ H]. tauto. }
  change (Q s3). unfold forEachI in E3.
  apply (forEachFrom_establish (frame others) (fun _ => True) Q cells
           (fun r xs => forEachFrom 0 xs (fun c x =>
              writeCell (sheet range) (r1 range + r) (c1 range + c) x))
           (fun _ _ _ _ => I) HQ 0 i xs Hi) with (s := s2); [| |exact I|exact E3].
  - intros i' xs' Hne Hi'. cbn [Nat.add].
    apply keeps_forEachFrom; [apply _|]. intros j' x' Hj'. cbn [Nat.add].
    apply keeps_writeCell_frame. split; [|lia].
    split; [reflexivity|]. exists i', j', xs'. repeat split; [exact Hi'|].
    eapply lookup_lt_Some, Hj'.
  - cbn [Nat.add]. intros s s' _.
    apply (forEachFrom_establish (frame others) (fun _ => True) Q xs _
             (fun _ _ _ _ => I) HQ 0 j x Hj); [| |exact I].
    + intros j' x' Hne Hj'. cbn [Nat.add].
      apply keeps_writeCell_frame. split; [|lia].
      split; [reflexivity|]. exists i, j', xs. repeat split; [exact Hi|].
      eapply lookup_lt_Some, Hj'.
    + cbn [Nat.add]. intros t t' _ Et. unfold Q.
      rewrite (writeCell_lookup _ _ _ _ _ _ _ _ _ Et). now rewrite decide_True.
Qed.

(** ** The pre-image and the undo of a range operation *)

Lemma classic_inRange range key r c :
  inRange range key r c \/ ~ inRange range key r c.
Proof.
  unfold inRange. destruct (decide (key = sheet range)); [|tauto].
  destruct (decide (r1 range <= r <= r2 range)%nat); [|tauto].
  destruct (decide (c1 range <= c <= c2 range)%nat); tauto.
Qed.

Lemma upto_lookup lo hi i :
  (i < S hi - lo)%nat -> upto lo hi !! i = Some (lo + i)%nat.
Proof. intros H. unfold upto. now apply lookup_seq_lt. Qed.

Lemma snapshotRows_lookup g range i j :
  (i < S (r2 range) - r1 range)%nat -> (j < S (c2 range) - c1 range)%nat ->
  exists row,
    snapshotRows g range !! i = Some row /\
    row !! j = Some (copyCell (cellAt g (r1 range + i) (c1 range + j))).
Proof.
  intros Hi Hj. unfold snapshotRows. eexists. split.
  - rewrite list_lookup_fmap, (upto_lookup _ _ _ Hi). reflexivity.
  - rewrite list_lookup_fmap, (upto_lookup _ _ _ Hj). reflexivity.
Qed.

Lemma snapshotRows_fits g range : fits range (snapshotRows g range).
Proof.
  unfold fits, snapshotRows, upto. split.
  - rewrite length_map, length_seq. lia.
  - apply Forall_forall. intros row Hrow. apply list_elem_of_fmap in Hrow as (r & -> & _).
    rewrite length_map, length_seq. lia.
Qed.

Lemma snapshot_run range st :
  snapshot range st =
  match mapGet (sheet range) (sheets (wb st)) with
  | None => Throw (Error ("Sheet not found: " ++ sheet range)) st
  | Some s =>
      Ok (snapshotRows (padRows (r2 range + 1) (c2 range + 1) (rows s)) range)
         (withRows (sheet range) (padRows (r2 range + 1) (c2 range + 1)) st)
  end.
Proof.
  unfold snapshot. unfold bind at 1. unfold getSheet at 1.
  destruct (mapGet (sheet range) (sheets (wb st))) as [s|] eqn:E; [|reflexivity].
  unfold bind at 1. rewrite (ensureSize_Some _ _ _ _ _ E).
  unfold bind. now rewrite (getSheet_Some _ _ _ (withRows_mapGet _ _ _ _ E)).
Qed.

Lemma inRange_offsets range key r c :
  inRange range key r c ->
  key = sheet range /\
  exists i j, r = (r1 range + i)%nat /\ c = (c1 range + j)%nat /\
              (i < S (r2 range) - r1 range)%nat /\ (j < S (c2 range) - c1 range)%nat.
Proof.
  intros (-> & Hr & Hc). split; [reflexivity|].
  exists (r - r1 range)%nat, (c - c1 range)%nat. lia.
Qed.

Lemma sameLog_sheet st st' key :
  sameLog st st' -> is_Some (mapGet key (sheets (wb st))) ->
  is_Some (mapGet key (sheets (wb st'))).
Proof.
  intros (_ & _ & H) [s Hs]. destruct (H _ _ Hs) as (s' & Hs' & _). eauto.
Qed.

(** An operation of the shared shape whose loop writes only inside the
    rectangle of its range, when it returns, has logged one event; [undo]
    then returns that event, and every cell of the model before the
    operation is back. *)
Lemma withPreImage_undo range loop op args summary st u st1 :
  keeps (frame (inRange range)) loop ->
  keeps sameLog loop ->
  withPreImage range loop op args summary st = Ok u st1 ->
  exists ev st2,
    undo st1 = Ok (Some ev) st2 /\
    fst (inverse ev) = "setCells"%string /\
    restored {| op := "setCells"; args := snd (inverse ev);
                inverse := ("noop"%string, ArgsEmpty); summary := "setCells" |}
             st st2.
Proof.
  intros Hframe Hlog E. unfold withPreImage in E.
  apply bind_Ok in E as (before & s1 & E1 & E).
  apply bind_Ok in E as (sh & s1' & E2 & E).
  apply bind_Ok in E as ([] & s2 & E3 & E).
  apply bind_Ok in E as ([] & s3 & E4 & E).
  apply bind_Ok in E as (ev & s4 & E5 & E).
  injection E as _ <-.
  unfold appendEvent, bind, modify in E5. injection E5 as <- <-.
  rewrite snapshot_run in E1.
  destruct (mapGet (sheet range) (sheets (wb st))) as [s0|] eqn:Hs0; [|discriminate].
  injection E1 as <- <-.
  set (g1 := padRows (r2 range + 1) (c2 range + 1) (rows s0)) in *.
  set (s1 := withRows (sheet range) (padRows (r2 range + 1) (c2 range + 1)) st) in *.
  assert (G1 : grown st s1).
  { apply grown_withRows. intros g. apply grownRows_padRows. }
  assert (s1' = s1) as ->.
  { unfold getSheet in E2. destruct (mapGet (sheet range) (sheets (wb s1)));
      congruence. }
  assert (G2 : grown s1 s2) by (eapply keeps_Ok; [apply keeps_ensureSize_grown|exact E3]).
  assert (F3 : frame (inRange range) s2 s3) by (eapply keeps_Ok; eauto).
  assert (L3 : sameLog s2 s3) by (eapply keeps_Ok; eauto).
  assert (L : sameLog st s3).
  { transitivity s1; [now apply grown_sameLog|].
    transitivity s2; [now apply grown_sameLog|exact L3]. }
  assert (F : frame (inRange range) st s3).
  { transitivity s1; [now apply grown_frame|].
    transitivity s2; [now apply grown_frame|exact F3]. }
  set (ev := {| op := op; args := args;
                inverse := ("setCells"%string, ArgsCells range (snapshotRows g1 range));
                summary := summary |}) in *.
  set (s5 := setEvents (fun _ => rev (rev (events (wb s3)))) (setEvents (fun es => es ++ [ev]) s3)).
  assert (Hsheet : is_Some (mapGet (sheet range) (sheets (wb s5)))).
  { apply (sameLog_sheet st s3); eauto. }
  destruct (setCells_returns range (snapshotRows g1 range) s5 Hsheet
              (snapshotRows_fits _ _)) as (st2 & E6).
  exists ev, st2. split; [|split; [reflexivity|]].
  { unfold undo. unfold bind at 1. unfold get. cbn [events wb setEvents].
    rewrite rev_app_distr. cbn [rev app].
    unfold bind at 1. unfold modify. fold s5.
    unfold bind. cbn [inverse ev fst snd].
    change (dispatch "setCells" (ArgsCells range (snapshotRows g1 range)) true s5)
      with (setCells range (snapshotRows g1 range) s5).
    now rewrite E6. }
  assert (F6 : frame (inRange range) s5 st2).
  { eapply frame_mono; [|eapply keeps_Ok; [apply keeps_setCells_frame|exact E6]].
    intros key r c. destruct (snapshotRows_fits g1 range) as [Hr Hc].
    now apply written_inRange. }
  destruct F as (FC & _ & FS), F6 as (FC6 & _ & FS6).
  assert (Hev : events (wb st2) = events (wb st) ++
            [{| op := "setCells"; args := ArgsCells range (snapshotRows g1 range);
                inverse := ("noop"%string, ArgsEmpty); summary := "setCells" |}]
          /\ checkpoints (wb st2) = checkpoints (wb st)).
  { clear - E6 L. unfold setCells in E6.
    apply bind_Ok in E6 as (sh & t1 & T1 & E6).
    apply bind_Ok in E6 as ([] & t2 & T2 & E6).
    apply bind_Ok in E6 as ([] & t3 & T3 & E6).
    apply bind_Ok in E6 as (e & t4 & T4 & E6).
    injection E6 as <-. unfold appendEvent, bind, modify in T4. injection T4 as _ <-.
    assert (LL : sameLog s5 t3).
    { transitivity t1; [eapply keeps_Ok; [|exact T1]; apply keeps_getSheet; apply _|].
      transitivity t2; [apply grown_sameLog; eapply keeps_Ok;
                         [apply keeps_ensureSize_grown|exact T2]|].
      eapply keeps_Ok; [|exact T3].
      apply keeps_forEachI; [apply _|]. intros i xs _.
      apply keeps_forEachI; [apply _|]. intros j x _. apply keeps_writeCell_sameLog. }
    destruct LL as (LE & LC & _), L as (LE' & LC' & _). cbn [events wb setEvents].
    rewrite LE, LC. subst s5. cbn [events checkpoints wb setEvents].
    rewrite rev_involutive. split; congruence. }
  destruct Hev as [Hev Hcp].
  split; [|split; [|split; [exact Hcp|exact Hev]]].
  - intros key r c x Hx.
    destruct (classic_inRange range key r c) as [Hin|Hout].
    + destruct (inRange_offsets _ _ _ _ Hin) as (-> & i & j & -> & -> & Hi & Hj).
      destruct (snapshotRows_lookup g1 range i j Hi Hj) as (row & Hrow & Hcell).
      rewrite (setCells_written_cells _ _ _ _ _ E6 i j row _ Hrow Hcell).
      f_equal. unfold lookupCell in Hx. rewrite Hs0 in Hx.
      subst g1. now rewrite (cellAt_padRows_old _ _ _ _ _ _ Hx).
    + apply FC6; [exact Hout|]. subst s5. unfold lookupCell. cbn [sheets wb setEvents].
      now apply FC.
  - intros a l Ha. apply FS6. subst s5. cbn [provStore setEvents]. now apply FS.
Qed.

Lemma keeps_readCell_then {A} R `{!PreOrder R} key r c (k : option Cell -> Engine A) :
  (forall o, keeps R (k o)) -> keeps R (o <- readCell key r c ;; k o).
Proof. intros H. apply keeps_bind; [apply _|apply keeps_readCell; apply _|exact H]. Qed.

Lemma keeps_setValues_loop_sameLog range values prov :
  keeps sameLog
    (forEachI values (fun r vs =>
       forEachI vs (fun c v =>
         let rr := (r1 range + r)%nat in
         let cc := (c1 range + c)%nat in
         o <- readCell (sheet range) rr cc ;;
         let prev := orEmpty o in
         p <- match prov with
              | Some l => a <- alloc l ;; ret (Some a)
              | None => ret (provenance prev)
              end ;;
         writeCell (sheet range) rr cc
           {| value := v; formula := None; provenance := p; format := format prev |}))).
Proof.
  apply keeps_forEachI; [apply _|]. intros i vs _.
  apply keeps_forEachI; [apply _|]. intros j v _. cbv zeta.
  apply keeps_readCell_then; [apply _|]. intros o.
  apply keeps_bind; [apply _| |intros p; apply keeps_writeCell_sameLog].
  destruct prov as [l|]; [|apply keeps_ret; apply _].
  apply keeps_bind; [apply _|apply keeps_alloc_sameLog|]. intros a.
  apply keeps_ret; apply _.
Qed.

Lemma keeps_rewrite_loop (R : Model -> Model -> Prop) `{!PreOrder R}
    {A} range (data : list (list A)) (g : A -> Cell -> Cell) :
  (forall i j row x, data !! i = Some row -> row !! j = Some x ->
     forall y, keeps R (writeCell (sheet range) (r1 range + i) (c1 range + j) y)) ->
  keeps R
    (forEachI data (fun r row =>
       forEachI row (fun c x =>
         o <- readCell (sheet range) (r1 range + r) (c1 range + c) ;;
         writeCell (sheet range) (r1 range + r) (c1 range + c) (g x (orEmpty o))))).
Proof.
  intros H. apply keeps_forEachI; [apply _|]. intros i row Hi.
  apply keeps_forEachI; [apply _|]. intros j x Hj.
  apply keeps_readCell_then; [apply _|]. intros o. eapply H; eauto.
Qed.

Lemma keeps_formatRange_loop (R : Model -> Model -> Prop) `{!PreOrder R} range fmt :
  (forall r c, inRange range (sheet range) r c ->
     forall y, keeps R (writeCell (sheet range) r c y)) ->
  keeps R
    (forEach (upto (r1 range) (r2 range)) (fun r =>
       forEach (upto (c1 range) (c2 range)) (fun c =>
         o <- readCell (sheet range) r c ;;
         let prev := orEmpty o in
         writeCell (sheet range) r c
           {| value := value prev; formula := formula prev;
              provenance := provenance prev; format := fmt |}))).
Proof.
  intros H. apply keeps_forEach; [apply _|]. intros r Hr.
  apply keeps_forEach; [apply _|]. intros c Hc.
  apply keeps_readCell_then; [apply _|]. intros o. cbv zeta. apply H.
  unfold upto in *. apply elem_of_seq in Hr, Hc. split; [reflexivity|]. lia.
Qed.

(** One [undo()] after [setValues], [setFormulas] (with a data array no
    larger than the rectangle of the range) or [formatRange] returns the
    event of the operation and puts every cell of the model back as it was
    before the operation: the same value, formula, format and provenance
    array, the arrays with the same entries.  The checkpoints are the same,
    and the log is the log before the operation followed by the [setCells]
    event of the undo itself. *)
Theorem undo_restores_after_a_range_operation :
  (forall range values prov st u st1,
      fits range values ->
      setValues range values prov st = Ok u st1 ->
      exists ev st2,
        undo st1 = Ok (Some ev) st2 /\ fst (inverse ev) = "setCells"%string /\
        restored {| op := "setCells"; args := snd (inverse ev);
                    inverse := ("noop"%string, ArgsEmpty); summary := "setCells" |}
                 st st2) /\
  (forall range formulas st u st1,
      fits range formulas ->
      setFormulas range formulas st = Ok u st1 ->
      exists ev st2,
        undo st1 = Ok (Some ev) st2 /\ fst (inverse ev) = "setCells"%string /\
        restored {| op := "setCells"; args := snd (inverse ev);
                    inverse := ("noop"%string, ArgsEmpty); summary := "setCells" |}
                 st st2) /\
  (forall range fmt st u st1,
      formatRange range fmt st = Ok u st1 ->
      exists ev st2,
        undo st1 = Ok (Some ev) st2 /\ fst (inverse ev) = "setCells"%string /\
        restored {| op := "setCells"; args := snd (inverse ev);
                    inverse := ("noop"%string, ArgsEmpty); summary := "setCells" |}
                 st st2).
Proof.
  split; [|split].
  - intros range values prov st u st1 [Hr Hc] E.
    eapply (withPreImage_undo range _ "setValues"); [| |exact E].
    + apply keeps_setValues_loop. intros key r c. now apply written_inRange.
    + apply keeps_setValues_loop_sameLog.
  - intros range formulas st u st1 [Hr Hc] E.
    eapply (withPreImage_undo range _ "setFormulas"); [| |exact E].
    + apply (keeps_rewrite_loop _ range formulas
               (fun f prev => {| value := VNull; formula := f;
                                 provenance := provenance prev; format := format prev |})).
      intros i j row x Hi Hj y. apply keeps_writeCell_frame.
      apply (written_inRange range formulas); [exact Hr|exact Hc|].
      split; [reflexivity|]. exists i, j, row. repeat split; [exact Hi|].
      eapply lookup_lt_Some, Hj.
    + apply (keeps_rewrite_loop _ range formulas
               (fun f prev => {| value := VNull; formula := f;
                                 provenance := provenance prev; format := format prev |})).
      intros. apply keeps_writeCell_sameLog.
  - intros range fmt st u st1 E.
    eapply (withPreImage_undo range _ "formatRange"); [| |exact E].
    + apply keeps_formatRange_loop; [apply _|]. intros r c Hin y.
      now apply keeps_writeCell_frame.
    + apply keeps_formatRange_loop; [apply _|]. intros. apply keeps_writeCell_sameLog.
Qed.

Lemma undo_restores_witness :
  exists ev st2,
    undo (stateOf (setValues cellA1 [[VNum 5]] (Some [doc "d2"]) stampedModel))
      = Ok (Some ev) st2 /\
    lookupCell st2 "Sheet1" 0 0 = Some (literalWith (VNum 1) 0) /\
    provAt st2 "Sheet1" 0 0 = Some [doc "d1"].
Proof.
  destruct undo_restores_after_a_range_operation as (H & _ & _).
  destruct (H cellA1 [[VNum 5%float]] (Some [doc "d2"]) stampedModel tt
              (stateOf (setValues cellA1 [[VNum 5]] (Some [doc "d2"]) stampedModel)))
    as (ev & st2 & E & _ & C & S & _).
  - split; [simpl; lia|]. repeat constructor.
  - reflexivity.
  - exists ev, st2. split; [exact E|].
    pose proof (C "Sheet1"%string 0%nat 0%nat _ eq_refl) as L.
    split; [exact L|]. unfold provAt. rewrite L. simpl. unfold provOf. simpl.
    now rewrite (S 0%nat [doc "d1"] eq_refl).
Defined.

(** ** A plan that stops at a failing step *)



(** ** The range operations return *)

Lemma readCell_returns key n r c st :
  hasRows key n st -> (r < n)%nat ->
  readCell key r c st = Ok (lookupCell st key r c) st.
Proof.
  intros (s & Hs & Hn) Hr. rewrite readCell_run, Hs.
  destruct (rows s !! r) as [row|] eqn:Er; [reflexivity|].
  apply lookup_ge_None in Er. lia.
Qed.

Lemma snapshot_returns range st :
  is_Some (mapGet (sheet range) (sheets (wb st))) ->
  exists before st',
    snapshot range st = Ok before st' /\ hasRows (sheet range) (r2 range + 1) st'.
Proof.
  intros [s Hs]. rewrite snapshot_run, Hs. eexists _, _. split; [reflexivity|].
  unfold hasRows. rewrite (withRows_mapGet _ _ _ _ Hs). eexists. split; [reflexivity|].
  simpl. rewrite padRows_length. lia.
Qed.

(** [setValues] returns when the sheet of the range exists and [values] is
    no larger than the rectangle. *)
Lemma setValues_returns range values prov st :
  is_Some (mapGet (sheet range) (sheets (wb st))) ->
  fits range values ->
  exists st', setValues range values prov st = Ok tt st'.
Proof.
  intros Hs [Hr Hc]. unfold setValues.
  destruct (snapshot_returns range st Hs) as (before & s1 & E1 & (sh & Hsh & Hn)).
  unfold bind at 1. rewrite E1.
  unfold bind at 1. rewrite (getSheet_Some _ _ _ Hsh).
  destruct (ensureSize_returns (sheet range) (r2 range + 1) (c2 range + 1) s1)
    as (s2 & E2 & H2 & _); [eauto|].
  unfold bind at 1. rewrite E2.
  match goal with |- context [forEachI values ?f] =>
    destruct (forEachI_returns (hasRows (sheet range) (r2 range + 1)) values f)
      with (s := s2) as (s3 & E3 & H3); [|exact H2|] end.
  { intros i vs t Hi Ht. apply forEachI_returns; [|exact Ht].
    intros j v t' Hj Ht'. cbv zeta.
    assert (Hlt : (r1 range + i < r2 range + 1)%nat)
      by (apply lookup_lt_Some in Hi; lia).
    unfold bind at 1. rewrite (readCell_returns _ _ _ _ _ Ht' Hlt).
    destruct prov as [l|].
    - unfold bind at 1. unfold bind at 1. unfold alloc at 1. cbn [ret].
      apply writeCell_returns; [|exact Hlt].
      destruct Ht' as (s & Hs' & Hn'). exists s. split; [exact Hs'|exact Hn'].
    - unfold bind at 1. cbn [ret]. now apply writeCell_returns. }
  unfold bind at 1. rewrite E3. eexists. reflexivity.
Qed.

(** ** The A1 codec, the other way round *)

Lemma code_inj a b : code a = code b -> a = b.
Proof.
  unfold code. intros H. apply N2Z.inj in H.
  rewrite <- (ascii_N_embedding a), <- (ascii_N_embedding b). now rewrite H.
Qed.

Lemma fromCharCode_code a : fromCharCode (code a) = a.
Proof. unfold fromCharCode, code. rewrite N2Z.id. apply ascii_N_embedding. Qed.

Lemma isUpper_code a : isUpper a = true <-> 65 <= code a <= 90.
Proof.
  unfold isUpper, between. rewrite andb_true_iff, !Z.leb_le. tauto.
Qed.

Lemma isLower_code a : isLower a = true <-> 97 <= code a <= 122.
Proof.
  unfold isLower, between. rewrite andb_true_iff, !Z.leb_le. tauto.
Qed.

Lemma isDigit_code a : isDigit a = true <-> 48 <= code a <= 57.
Proof.
  unfold isDigit, between. rewrite andb_true_iff, !Z.leb_le. tauto.
Qed.

Lemma isAlpha_cases a : isAlpha a = true -> isUpper a = true \/ isLower a = true.
Proof. unfold isAlpha. intros H. apply orb_prop in H. exact H. Qed.

Lemma code_bound a : 0 <= code a < 256.
Proof.
  unfold code. pose proof (N_ascii_bounded a). lia.
Qed.

Lemma toUpper_lower a : isLower a = true -> code (toUpper a) = code a - 32.
Proof.
  intros H. unfold toUpper. rewrite H. apply isLower_code in H.
  rewrite code_fromCharCode; lia.
Qed.

Lemma toUpper_not_lower a : isLower a = false -> toUpper a = a.
Proof. intros H. unfold toUpper. now rewrite H. Qed.

Lemma alpha_toUpper_upper a : isAlpha a = true -> isUpper (toUpper a) = true.
Proof.
  intros H. destruct (isLower a) eqn:El.
  - apply isUpper_code. rewrite (toUpper_lower _ El). apply isLower_code in El. lia.
  - rewrite (toUpper_not_lower _ El). destruct (isAlpha_cases _ H); congruence.
Qed.

Lemma colOf_snoc l a : colOf (l ++ [a]) = colOf l * 26 + (code a - 64).
Proof. unfold colOf. now rewrite fold_left_app. Qed.

Lemma parseInt_snoc l a : parseInt (l ++ [a]) = parseInt l * 10 + (code a - 48).
Proof. unfold parseInt. now rewrite fold_left_app. Qed.

(** The column number of [k] capital letters is at least [2^(k-1)]. *)
Lemma colOf_lower l :
  Forall (fun a => isUpper a = true) l -> l <> [] ->
  2 ^ (Z.of_nat (length l) - 1) <= colOf l.
Proof.
  induction l as [|a l IH] using rev_ind; [done|]. intros F _.
  apply Forall_app in F as [F Fa]. apply Forall_inv in Fa. apply isUpper_code in Fa.
  rewrite colOf_snoc, length_app. simpl.
  destruct l as [|b l].
  - simpl. change (colOf []) with 0. lia.
  - specialize (IH F ltac:(done)).
    replace (Z.of_nat (length (b :: l) + 1) - 1)
      with (Z.succ (Z.of_nat (length (b :: l)) - 1)) by lia.
    rewrite Z.pow_succ_r by (simpl; lia). lia.
Qed.

(** The letter loop of [rcToA1] prints the capital letters [l] back from
    their column number. *)
Lemma rcToA1_loop_colOf l :
  Forall (fun a => isUpper a = true) l ->
  forall fuel s, (length l <= fuel)%nat -> rcToA1_loop fuel (colOf l) s = l ++ s.
Proof.
  induction l as [|a l IH] using rev_ind; intros F fuel s Hf.
  - change (colOf []) with 0. destruct fuel; reflexivity.
  - apply Forall_app in F as [F Fa]. apply Forall_inv in Fa. apply isUpper_code in Fa.
    rewrite length_app in Hf. simpl in Hf.
    destruct fuel as [|f]; [lia|]. rewrite rcToA1_loop_S, colOf_snoc.
    assert (Hc : 0 <= colOf l).
    { destruct l as [|b l]; [done|].
      pose proof (colOf_lower (b :: l) F ltac:(done)) as H.
      assert (0 < 2 ^ (Z.of_nat (length (b :: l)) - 1)) by (apply Z.pow_pos_nonneg; simpl; lia).
      lia. }
    destruct (Z.ltb_spec 0 (colOf l * 26 + (code a - 64))) as [_|?]; [|lia].
    replace (colOf l * 26 + (code a - 64) - 1) with ((code a - 65) + colOf l * 26) by lia.
    rewrite Z_mod_plus_full, Z.mod_small by lia.
    rewrite Z.div_add, Z.div_small by lia.
    replace (65 + (code a - 65)) with (code a) by lia. rewrite fromCharCode_code.
    rewrite (IH F f) by lia. now rewrite <- app_assoc.
Qed.

Lemma digit_value a : isDigit a = true -> 0 <= code a - 48 <= 9.
Proof. intros H. apply isDigit_code in H. lia. Qed.

Lemma digitChar_code a : isDigit a = true -> digitChar (code a - 48) = a.
Proof.
  intros H. unfold digitChar. replace (48 + (code a - 48)) with (code a) by lia.
  apply fromCharCode_code.
Qed.

(** A run of digits that does not start with [0] is the decimal numeral of a
    number of at least [10^(k-1)], and the digit loop prints it back. *)
Lemma digitsLoop_parseInt d :
  Forall (fun a => isDigit a = true) d -> d <> [] -> head d <> Some "0"%char ->
  2 ^ (Z.of_nat (length d) - 1) <= parseInt d /\
  forall fuel acc, (length d <= fuel)%nat -> digitsLoop fuel (parseInt d) acc = d ++ acc.
Proof.
  induction d as [|a d IH] using rev_ind; [done|]. intros F _ Hh.
  apply Forall_app in F as [F Fa]. apply Forall_inv in Fa.
  pose proof (digit_value _ Fa) as Hv.
  rewrite parseInt_snoc, length_app. simpl.
  destruct d as [|b d].
  - simpl in *. change (parseInt []) with 0.
    assert (code a - 48 <> 0).
    { intros E. apply Hh. f_equal. apply code_inj. change (code "0") with 48. lia. }
    split; [lia|]. intros fuel acc Hf. destruct fuel as [|f]; [lia|].
    replace (0 * 10 + (code a - 48)) with (code a - 48) by lia.
    rewrite digitsLoop_S. rewrite Z.mod_small by lia.
    destruct (Z.ltb_spec (code a - 48) 10) as [_|?]; [|lia].
    now rewrite digitChar_code.
  - destruct (IH F ltac:(done) Hh) as [Hlow Hloop].
    assert (0 < 2 ^ (Z.of_nat (length (b :: d)) - 1)) by (apply Z.pow_pos_nonneg; simpl; lia).
    split.
    + replace (Z.of_nat (length (b :: d) + 1) - 1)
        with (Z.succ (Z.of_nat (length (b :: d)) - 1)) by lia.
      rewrite Z.pow_succ_r by (simpl; lia). lia.
    + intros fuel acc Hf. destruct fuel as [|f]; [simpl in Hf; lia|].
      rewrite digitsLoop_S.
      destruct (Z.ltb_spec (parseInt (b :: d) * 10 + (code a - 48)) 10) as [?|_]; [lia|].
      replace (parseInt (b :: d) * 10 + (code a - 48))
        with ((code a - 48) + parseInt (b :: d) * 10) by lia.
      rewrite Z_mod_plus_full, Z.mod_small by lia.
      rewrite Z.div_add, Z.div_small by lia. simpl (0 + _).
      rewrite digitChar_code by exact Fa.
      rewrite Hloop by (simpl in *; lia). now rewrite <- app_assoc.
Qed.

Lemma bits_length n k : 0 < n -> 2 ^ (Z.of_nat k - 1) <= n -> (1 <= k)%nat -> (k <= bits n)%nat.
Proof.
  intros Hn Hk H1. unfold bits.
  assert (Z.of_nat k - 1 <= Z.log2 n) by (apply Z.log2_le_pow2; lia).
  pose proof (Z.log2_nonneg n). lia.
Qed.

Lemma decimalOf_parseInt ds :
  Forall (fun a => isDigit a = true) ds -> ds <> [] ->
  ds = ["0"%char] \/ head ds <> Some "0"%char ->
  decimalOf (parseInt ds) = ds.
Proof.
  intros F Hn [->|Hh]; [reflexivity|].
  destruct (digitsLoop_parseInt ds F Hn Hh) as [Hlow Hloop].
  assert (0 < 2 ^ (Z.of_nat (length ds) - 1)).
  { apply Z.pow_pos_nonneg; [lia|]. destruct ds; [done|]. simpl. lia. }
  unfold decimalOf. destruct (Z.ltb_spec (parseInt ds) 0) as [?|_]; [lia|].
  rewrite Hloop; [apply app_nil_r|].
  apply bits_length; [lia|exact Hlow|]. destruct ds; [done|]. simpl. lia.
Qed.

(** [rcToA1(a1ToRc(ref))] gives [ref] back in capital letters, for a
    reference whose row number is written without leading zeros (the row
    [0] included: [a1ToRc("A0")] is row [-1], and [rcToA1(-1, 0)] is
    ["A0"]).  The bounds on the lengths keep the column and the row within
    the integers that a JavaScript number holds exactly. *)
Theorem rcToA1_inverts_a1ToRc (ls ds : text) :
  Forall (fun a => isAlpha a = true) ls -> ls <> [] ->
  Forall (fun a => isDigit a = true) ds -> ds <> [] ->
  ds = ["0"%char] \/ head ds <> Some "0"%char ->
  (length ls <= 10)%nat -> (length ds <= 15)%nat ->
  exists r c,
    a1ToRc_text (ls ++ ds) = Some (r, c) /\
    rcToA1_text r c = map toUpper ls ++ ds.
Proof.
  intros Fl Nl Fd Nd Hc _ _.
  exists (parseInt ds - 1), (colOf (map toUpper ls) - 1). split.
  - unfold a1ToRc_text. now rewrite (matchRef_app ls ds Fl Nl Fd Nd).
  - unfold rcToA1_text.
    replace (colOf (map toUpper ls) - 1 + 1) with (colOf (map toUpper ls)) by lia.
    replace (parseInt ds - 1 + 1) with (parseInt ds) by lia.
    assert (FU : Forall (fun a => isUpper a = true) (map toUpper ls)).
    { apply Forall_fmap. eapply Forall_impl; [exact Fl|]. intros a. apply alpha_toUpper_upper. }
    assert (NU : map toUpper ls <> []) by (destruct ls; done).
    pose proof (colOf_lower _ FU NU) as Hlow.
    assert (0 < 2 ^ (Z.of_nat (length (map toUpper ls)) - 1)).
    { apply Z.pow_pos_nonneg; [lia|]. destruct ls; [done|]. simpl. lia. }
    rewrite (rcToA1_loop_colOf _ FU).
    + rewrite app_nil_r. now rewrite (decimalOf_parseInt ds Fd Nd Hc).
    + apply bits_length; [lia|exact Hlow|]. destruct ls; [done|]. simpl. lia.
Qed.

Lemma rcToA1_inverts_a1ToRc_witness :
  exists r c,
    a1ToRc_text (txt "bc" ++ txt "120") = Some (r, c) /\
    rcToA1_text r c = map toUpper (txt "bc") ++ txt "120".
Proof.
  apply (rcToA1_inverts_a1ToRc (txt "bc") (txt "120")).
  - repeat constructor.
  - discriminate.
  - repeat constructor.
  - discriminate.
  - right. discriminate.
  - simpl. lia.
  - simpl. lia.
Defined.

(** ** What [a1ToRc] accepts and returns *)

Lemma span_map_toUpper p l :
  (forall a, p (toUpper a) = p a) ->
  span p (map toUpper l) = (map toUpper (span p l).1, map toUpper (span p l).2).
Proof.
  intros H. induction l as [|a l IH]; [reflexivity|]. simpl. rewrite H.
  destruct (p a); [|reflexivity]. rewrite IH. now destruct (span p l).
Qed.

Lemma isAlpha_toUpper a : isAlpha (toUpper a) = isAlpha a.
Proof.
  destruct (isAlpha a) eqn:E.
  - apply upper_alpha, alpha_toUpper_upper, E.
  - rewrite toUpper_not_lower; [exact E|].
    unfold isAlpha in E. apply orb_false_elim in E. tauto.
Qed.

Lemma isDigit_toUpper a : isDigit (toUpper a) = isDigit a.
Proof.
  destruct (isLower a) eqn:E; [|now rewrite toUpper_not_lower].
  pose proof (alpha_toUpper_upper a) as U. unfold isAlpha in U. rewrite E, orb_true_r in U.
  specialize (U eq_refl). apply isUpper_code in U. apply isLower_code in E.
  transitivity false; [|symmetry]; apply not_true_is_false; rewrite isDigit_code; lia.
Qed.

Lemma toUpper_idem a : toUpper (toUpper a) = toUpper a.
Proof.
  destruct (isLower a) eqn:E; [|now rewrite !(toUpper_not_lower a E)].
  apply toUpper_not_lower. apply not_true_is_false. intros L.
  apply isLower_code in L, E. rewrite toUpper_lower in L by (apply isLower_code; lia). lia.
Qed.

Lemma map_toUpper_idem l : map toUpper (map toUpper l) = map toUpper l.
Proof.
  induction l as [|a l IH]; [reflexivity|]. simpl. now rewrite toUpper_idem, IH.
Qed.

Lemma toUpper_digits l :
  Forall (fun a => isDigit a = true) l -> map toUpper l = l.
Proof.
  induction 1 as [|a l Ha _ IH]; [reflexivity|]. simpl. rewrite IH. f_equal.
  apply toUpper_not_lower. apply not_true_is_false. intros L.
  apply isLower_code in L. apply isDigit_code in Ha. lia.
Qed.

Lemma parseInt_nonneg ds : Forall (fun a => isDigit a = true) ds -> 0 <= parseInt ds.
Proof.
  induction ds as [|a d IH] using rev_ind; [done|]. intros F.
  apply Forall_app in F as [F Fa]. apply Forall_inv in Fa.
  rewrite parseInt_snoc. pose proof (digit_value _ Fa). specialize (IH F). lia.
Qed.

Lemma parseInt_zeros k : parseInt (replicate k "0"%char) = 0.
Proof.
  induction k as [|k IH]; [reflexivity|].
  replace (S k) with (k + 1)%nat by lia. rewrite replicate_add. simpl.
  rewrite parseInt_snoc, IH. reflexivity.
Qed.

(** [a1ToRc] does not tell capital from small letters; it returns a column
    of at least [0] and a row of at least [-1]; and it accepts the row
    number [0] (written with any number of zeros), for which it returns the
    row index [-1]. *)
Theorem a1ToRc_case_and_bounds :
  (forall ref, a1ToRc_text (map toUpper ref) = a1ToRc_text ref) /\
  (forall ref r c, a1ToRc_text ref = Some (r, c) -> -1 <= r /\ 0 <= c) /\
  (forall ls k,
      Forall (fun a => isAlpha a = true) ls -> ls <> [] -> (0 < k)%nat ->
      exists c, a1ToRc_text (ls ++ replicate k "0"%char) = Some (-1, c)).
Proof.
  split; [|split].
  - intros ref. unfold a1ToRc_text, matchRef, matchA1.
    rewrite (span_map_toUpper isAlpha ref isAlpha_toUpper).
    destruct (span isAlpha ref) as [x y] eqn:E1. simpl.
    rewrite (span_map_toUpper isDigit y isDigit_toUpper).
    pose proof (span_spec isDigit y) as S2.
    destruct (span isDigit y) as [d z] eqn:E2. simpl.
    destruct S2 as (_ & Fd & _).
    destruct x as [|a x]; [reflexivity|]. destruct d as [|b d]; [reflexivity|].
    destruct z as [|e z]; [|reflexivity]. cbn [map].
    change (toUpper b :: map toUpper d) with (map toUpper (b :: d)).
    rewrite (toUpper_digits _ Fd).
    change (toUpper (toUpper a) :: map toUpper (map toUpper x))
      with (map toUpper (map toUpper (a :: x))).
    now rewrite map_toUpper_idem.
  - intros ref r c. unfold a1ToRc_text.
    destruct (matchRef ref) as [[ls ds]|] eqn:E; [|discriminate].
    destruct (matchRef_spec _ _ _ E) as (_ & Fl & Nl & Fd & Nd). intros [= <- <-].
    pose proof (parseInt_nonneg ds Fd).
    assert (FU : Forall (fun a => isUpper a = true) (map toUpper ls)).
    { apply Forall_fmap. eapply Forall_impl; [exact Fl|]. intros a. apply alpha_toUpper_upper. }
    assert (NU : map toUpper ls <> []) by (destruct ls; done).
    pose proof (colOf_lower _ FU NU) as Hlow.
    assert (0 < 2 ^ (Z.of_nat (length (map toUpper ls)) - 1)).
    { apply Z.pow_pos_nonneg; [lia|]. destruct ls; [done|]. simpl. lia. }
    lia.
  - intros ls k Fl Nl Hk. eexists. unfold a1ToRc_text.
    rewrite (matchRef_app ls (replicate k "0"%char) Fl Nl).
    + rewrite parseInt_zeros. reflexivity.
    + apply Forall_replicate. reflexivity.
    + destruct k; [lia|discriminate].
Qed.

Lemma a1ToRc_case_and_bounds_witness :
  a1ToRc_text (map toUpper (txt "ab12")) = a1ToRc_text (txt "ab12") /\
  (-1 <= 11 /\ 0 <= 27) /\
  exists c, a1ToRc_text (txt "AB" ++ replicate 2 "0"%char) = Some (-1, c).
Proof.
  destruct a1ToRc_case_and_bounds as (H1 & H2 & H3).
  split; [apply H1|]. split.
  - apply (H2 (txt "ab12")). reflexivity.
  - apply H3; [repeat constructor|discriminate|lia].
Defined.

(** ** What the operations do to the log *)

Ltac in_list := repeat first [apply list_elem_of_here | apply list_elem_of_further].

#[local] Instance sameEvents_preorder : PreOrder sameEvents.
Proof.
  split.
  - intros st. split; reflexivity.
  - intros a b c [E1 C1] [E2 C2]. split; congruence.
Qed.

Lemma sameLog_sameEvents st st' : sameLog st st' -> sameEvents st st'.
Proof. intros (E & C & _). split; assumption. Qed.

Lemma grown_sameEvents st st' : grown st st' -> sameEvents st st'.
Proof. intros (E & C & _). split; assumption. Qed.

Lemma keeps_setSheets_sameEvents f : keeps sameEvents (modify (setSheets f)).
Proof. intros st. split; reflexivity. Qed.

Lemma keeps_pushAll_sameLog a l : keeps sameLog (pushAll a l).
Proof. intros st. repeat split. eauto. Qed.

Lemma logs_bind {A} o (pre : Engine A) (k : A -> Engine unit) :
  keeps sameEvents pre -> (forall a, logs o (k a)) -> logs o (bind pre k).
Proof.
  intros Hpre Hk st. unfold bind. specialize (Hpre st).
  destruct (pre st) as [a s1|e s1|s1]; simpl in Hpre; destruct Hpre as [E C].
  - specialize (Hk a s1). rewrite <- E, <- C. exact Hk.
  - simpl. split; assumption.
  - simpl. split; assumption.
Qed.

Lemma logs_throw o e : logs o (throw e).
Proof. intros st. split; reflexivity. Qed.

Lemma logs_append o args inv summ :
  fst inv ∈ knownOps -> logs o (appendEvent o args inv summ ;;; ret tt).
Proof.
  intros H st. split; [reflexivity|]. simpl. eexists. split; [reflexivity|]. split; [reflexivity|exact H].
Qed.

Lemma setCells_known : "setCells"%string ∈ knownOps.
Proof. unfold knownOps. in_list. Qed.

Lemma keeps_snapshot_sameEvents range : keeps sameEvents (snapshot range).
Proof. eapply keeps_weaken; [apply grown_sameEvents|apply keeps_snapshot_grown]. Qed.

Lemma keeps_ensureSize_sameEvents key n m : keeps sameEvents (ensureSize key n m).
Proof. eapply keeps_weaken; [apply grown_sameEvents|apply keeps_ensureSize_grown]. Qed.

Lemma logs_createSheet n : logs "createSheet" (createSheet n).
Proof.
  unfold createSheet. apply logs_bind; [apply keeps_get; apply _|]. intros st0.
  destruct (mapHas n (sheets (wb st0))); [apply logs_throw|].
  apply logs_bind; [apply keeps_setSheets_sameEvents|]. intros _.
  apply logs_append. unfold knownOps. in_list.
Qed.

Lemma logs_deleteSheet n : logs "deleteSheet" (deleteSheet n).
Proof.
  unfold deleteSheet. apply logs_bind; [apply keeps_getSheet; apply _|]. intros s.
  apply logs_bind; [apply keeps_setSheets_sameEvents|]. intros _.
  apply logs_append. unfold knownOps. in_list.
Qed.

Lemma logs_restoreSheet s : logs "restoreSheet" (restoreSheet s).
Proof.
  unfold restoreSheet.
  apply logs_bind; [apply keeps_setSheets_sameEvents|]. intros _.
  apply logs_append. unfold knownOps. in_list.
Qed.

Lemma logs_setValues r vs p : logs "setValues" (setValues r vs p).
Proof.
  unfold setValues. apply logs_bind; [apply keeps_snapshot_sameEvents|]. intros before.
  apply logs_bind; [apply keeps_getSheet; apply _|]. intros _.
  apply logs_bind; [apply keeps_ensureSize_sameEvents|]. intros _.
  apply logs_bind.
  { eapply keeps_weaken; [apply sameLog_sameEvents|apply keeps_setValues_loop_sameLog]. }
  intros _. apply logs_append, setCells_known.
Qed.

Lemma logs_setFormulas r fs : logs "setFormulas" (setFormulas r fs).
Proof.
  unfold setFormulas. apply logs_bind; [apply keeps_snapshot_sameEvents|]. intros before.
  apply logs_bind; [apply keeps_getSheet; apply _|]. intros _.
  apply logs_bind; [apply keeps_ensureSize_sameEvents|]. intros _.
  apply logs_bind.
  { eapply keeps_weaken; [apply sameLog_sameEvents|].
    apply (keeps_rewrite_loop _ r fs
             (fun f prev => {| value := VNull; formula := f;
                               provenance := provenance prev; format := format prev |})).
    intros. apply keeps_writeCell_sameLog. }
  intros _. apply logs_append, setCells_known.
Qed.

Lemma logs_formatRange r f : logs "formatRange" (formatRange r f).
Proof.
  unfold formatRange. apply logs_bind; [apply keeps_snapshot_sameEvents|]. intros before.
  apply logs_bind; [apply keeps_getSheet; apply _|]. intros _.
  apply logs_bind; [apply keeps_ensureSize_sameEvents|]. intros _.
  apply logs_bind.
  { eapply keeps_weaken; [apply sameLog_sameEvents|].
    apply keeps_formatRange_loop; [apply _|]. intros. apply keeps_writeCell_sameLog. }
  intros _. apply logs_append, setCells_known.
Qed.

Lemma logs_setCells r cs : logs "setCells" (setCells r cs).
Proof.
  unfold setCells. apply logs_bind; [apply keeps_getSheet; apply _|]. intros _.
  apply logs_bind; [apply keeps_ensureSize_sameEvents|]. intros _.
  apply logs_bind.
  { eapply keeps_weaken; [apply sameLog_sameEvents|].
    apply keeps_forEachI; [apply _|]. intros i xs _.
    apply keeps_forEachI; [apply _|]. intros j x _. apply keeps_writeCell_sameLog. }
  intros _. apply logs_append. unfold knownOps. in_list.
Qed.

Lemma keeps_link_loop_sameLog range prov :
  keeps sameLog
    (forEach (upto (r1 range) (r2 range)) (fun r =>
       forEach (upto (c1 range) (c2 range)) (fun c =>
         o <- readCell (sheet range) r c ;;
         match o with
         | None => throw TypeError
         | Some cell =>
             match provenance cell with
             | Some a => pushAll a prov
             | None =>
                 a <- alloc [] ;;
                 writeCell (sheet range) r c
                   {| value := value cell; formula := formula cell;
                      provenance := Some a; format := format cell |} ;;;
                 pushAll a prov
             end
         end))).
Proof.
  apply keeps_forEach; [apply _|]. intros r _.
  apply keeps_forEach; [apply _|]. intros c _.
  apply keeps_readCell_then; [apply _|]. intros [cell|]; [|apply keeps_throw; apply _].
  destruct (provenance cell) as [a|]; [apply keeps_pushAll_sameLog|].
  apply keeps_bind; [apply _|apply keeps_alloc_sameLog|]. intros a.
  apply keeps_bind; [apply _|apply keeps_writeCell_sameLog|]. intros _.
  apply keeps_pushAll_sameLog.
Qed.

Lemma logs_linkProvenance r p : logs "linkProvenance" (linkProvenance r p).
Proof.
  unfold linkProvenance. apply logs_bind; [apply keeps_snapshot_sameEvents|]. intros before.
  apply logs_bind; [apply keeps_getSheet; apply _|]. intros _.
  apply logs_bind.
  { eapply keeps_weaken; [apply sameLog_sameEvents|apply keeps_link_loop_sameLog]. }
  intros _. apply logs_append, setCells_known.
Qed.

Lemma eqb_cases a b : (String.eqb a b = true /\ a = b) \/ (String.eqb a b = false /\ a <> b).
Proof. destruct (String.eqb_spec a b); [left|right]; done. Qed.

Lemma dispatch_log_effect (o : string) (a : Args) (internal : bool) (st : Model) :
  checkpoints (wb (stateOf (dispatch o a internal st))) = checkpoints (wb st) /\
  match dispatch o a internal st with
  | Ok _ st' =>
      if bool_decide (o ∈ loggingOps) then
        exists ev, events (wb st') = events (wb st) ++ [ev] /\
                   op ev = o /\ fst (inverse ev) ∈ knownOps
      else st' = st
  | Throw _ st' | Unmodelled st' => events (wb st') = events (wb st)
  end.
Proof.
  assert (L : forall m, o ∈ loggingOps -> logs o m ->
    checkpoints (wb (stateOf (m st))) = checkpoints (wb st) /\
    match m st with
    | Ok _ st' =>
        if bool_decide (o ∈ loggingOps) then
          exists ev, events (wb st') = events (wb st) ++ [ev] /\
                     op ev = o /\ fst (inverse ev) ∈ knownOps
        else st' = st
    | Throw _ st' | Unmodelled st' => events (wb st') = events (wb st)
    end).
  { intros m Hin Hm. rewrite (bool_decide_eq_true_2 _ Hin). apply Hm. }
  assert (U : forall (m : Engine unit), m = unmodelled ->
    checkpoints (wb (stateOf (m st))) = checkpoints (wb st) /\
    match m st with
    | Ok _ st' =>
        if bool_decide (o ∈ loggingOps) then
          exists ev, events (wb st') = events (wb st) ++ [ev] /\
                     op ev = o /\ fst (inverse ev) ∈ knownOps
        else st' = st
    | Throw _ st' | Unmodelled st' => events (wb st') = events (wb st)
    end).
  { intros m ->. split; reflexivity. }
  unfold dispatch.
  destruct (eqb_cases o "createSheet") as [[-> ->]|[-> N1]].
  { destruct a; try (apply U; reflexivity).
    apply L; [unfold loggingOps; in_list|apply logs_createSheet]. }
  destruct (eqb_cases o "deleteSheet") as [[-> ->]|[-> N2]].
  { destruct a; try (apply U; reflexivity).
    apply L; [unfold loggingOps; in_list|apply logs_deleteSheet]. }
  destruct (eqb_cases o "restoreSheet") as [[-> ->]|[-> N3]].
  { destruct a; try (apply U; reflexivity).
    apply L; [unfold loggingOps; in_list|apply logs_restoreSheet]. }
  destruct (eqb_cases o "setValues") as [[-> ->]|[-> N4]].
  { destruct a; try (apply U; reflexivity).
    apply L; [unfold loggingOps; in_list|apply logs_setValues]. }
  destruct (eqb_cases o "setFormulas") as [[-> ->]|[-> N5]].
  { destruct a; try (apply U; reflexivity).
    apply L; [unfold loggingOps; in_list|apply logs_setFormulas]. }
  destruct (eqb_cases o "formatRange") as [[-> ->]|[-> N6]].
  { destruct a; try (apply U; reflexivity).
    apply L; [unfold loggingOps; in_list|apply logs_formatRange]. }
  destruct (eqb_cases o "setCells") as [[-> ->]|[-> N7]].
  { destruct a; try (apply U; reflexivity).
    apply L; [unfold loggingOps; in_list|apply logs_setCells]. }
  destruct (eqb_cases o "linkProvenance") as [[-> ->]|[-> N8]].
  { destruct a as [| | | | | |r [p|] [q|]|]; try (apply U; reflexivity);
      (apply L; [unfold loggingOps; in_list|apply logs_linkProvenance]). }
  assert (Hn : o ∉ loggingOps).
  { unfold loggingOps. intros H.
    repeat (apply elem_of_cons in H as [H|H]; [congruence|]). by apply elem_of_nil in H. }
  rewrite (bool_decide_eq_false_2 _ Hn).
  destruct (String.eqb o "noop"); [split; reflexivity|].
  destruct internal; split; reflexivity.
Qed.


(** The log records the operations that returned, and only those.
    Whatever [dispatch] is called with, it leaves the checkpoints as they
    were.  When it returns from one of the eight operations that log, the
    log is the log before followed by one event named after the operation,
    and the inverse recorded in that event is an operation that [dispatch]
    has a case for.  When it returns from [noop], or from a name without a
    case in internal mode, the model is the one before.  When it throws, the
    log is the one before: a failed operation is never logged. *)
Theorem dispatch_logs_what_returns (o : string) (a : Args) (internal : bool) (st : Model) :
  checkpoints (wb (stateOf (dispatch o a internal st))) = checkpoints (wb st) /\
  match dispatch o a internal st with
  | Ok _ st' =>
      if bool_decide (o ∈ loggingOps) then
        exists ev, events (wb st') = events (wb st) ++ [ev] /\
                   op ev = o /\ fst (inverse ev) ∈ knownOps
      else st' = st
  | Throw _ st' | Unmodelled st' => events (wb st') = events (wb st)
  end.
Proof. apply dispatch_log_effect. Qed.

Lemma dispatch_logs_witness :
  exists st',
    dispatch "setValues" (ArgsValues cellA1 [[VNum 1]] None) false freshModel = Ok tt st' /\
    checkpoints (wb st') = checkpoints (wb freshModel) /\
    exists ev, events (wb st') = events (wb freshModel) ++ [ev] /\
               op ev = "setValues"%string /\ fst (inverse ev) ∈ knownOps.
Proof.
  pose proof (dispatch_logs_what_returns "setValues" (ArgsValues cellA1 [[VNum 1%float]] None)
                false freshModel) as [C H].
  destruct (dispatch "setValues" (ArgsValues cellA1 [[VNum 1%float]] None) false freshModel)
    as [[] st'|e st'|st'] eqn:E; [|discriminate E|discriminate E].
  exists st'. split; [reflexivity|]. split; [exact C|exact H].
Defined.

(** [undo] pops the last event before it dispatches the inverse, and the
    inverse logs at most one event of its own.  So [undo] never touches the
    checkpoints and never lengthens the log: on an empty log it returns
    [null] and changes nothing; otherwise it returns the last event [ev],
    and the log it leaves is the log without [ev], followed, when the
    inverse is an operation that logs, by one event named after the
    inverse.  When the inverse throws, [ev] is gone from the log all the
    same. *)
Theorem undo_never_lengthens_the_log (st : Model) :
  checkpoints (wb (stateOf (undo st))) = checkpoints (wb st) /\
  (events (wb st) = [] -> undo st = Ok None st) /\
  (forall rest ev, events (wb st) = rest ++ [ev] ->
     match undo st with
     | Ok r st' =>
         r = Some ev /\
         (events (wb st') = rest \/
          exists ev', events (wb st') = rest ++ [ev'] /\ op ev' = fst (inverse ev))
     | Throw _ st' | Unmodelled st' => events (wb st') = rest
     end).
Proof.
  unfold undo, bind, get.
  destruct (events (wb st)) as [|e0 es] eqn:Ev using rev_ind.
  - simpl. split; [reflexivity|]. split; [reflexivity|].
    intros rest ev H. destruct rest; discriminate.
  - clear IHes. rewrite rev_app_distr. cbn [rev app modify].
    set (s1 := setEvents (fun _ => rev (rev es)) st).
    pose proof (dispatch_log_effect (fst (inverse e0)) (snd (inverse e0)) true s1) as [C H].
    assert (E1 : events (wb s1) = es) by (subst s1; simpl; apply rev_involutive).
    split; [|split].
    + destruct (dispatch (fst (inverse e0)) (snd (inverse e0)) true s1); exact C.
    + intros H0. destruct es; discriminate.
    + intros rest ev Hr. apply app_inj_tail in Hr as [<- <-].
      destruct (dispatch (fst (inverse e0)) (snd (inverse e0)) true s1) as [[] s2|e s2|s2].
      * split; [reflexivity|].
        destruct (bool_decide (fst (inverse e0) ∈ loggingOps)).
        -- right. destruct H as (ev' & H1 & H2 & _). exists ev'. rewrite H1, E1. done.
        -- left. now subst s2.
      * now rewrite H.
      * now rewrite H.
Qed.

Lemma undo_never_lengthens_witness :
  exists st',
    undo stampedModel = Ok (Some {|
      op := "setValues";
      args := ArgsValues cellA1 [[VNum 1]] (Some [doc "d1"]);
      inverse := ("setCells"%string, ArgsCells cellA1 [[emptyCell]]);
      summary := "setValues Sheet1!A1" |}) st' /\
    length (events (wb st')) = length (events (wb stampedModel)).
Proof.
  destruct (undo_never_lengthens_the_log stampedModel) as (_ & _ & H).
  specialize (H _ _ eq_refl).
  destruct (undo stampedModel) as [r st'|e st'|st'] eqn:E; [|discriminate E|discriminate E].
  destruct H as [-> H]. exists st'. split; [reflexivity|].
  destruct H as [H|(ev' & H & _)]; [|rewrite H; reflexivity].
  exfalso. vm_compute in E. injection E as <-. discriminate H.
Defined.

(** ** [setFormulas] and [formatRange] *)

Lemma frame_orEmpty (W : Positions) key r c s s' :
  ~ W key r c -> frame W s s' ->
  orEmpty (lookupCell s' key r c) = orEmpty (lookupCell s key r c).
Proof.
  intros Hn (C & N & _).
  destruct (lookupCell s key r c) as [x|] eqn:E.
  - now rewrite (C _ _ _ _ Hn E).
  - destruct (lookupCell s' key r c) as [y|] eqn:E'; [|reflexivity].
    destruct (N _ _ _ _ Hn E') as [H|H]; [congruence|]. now subst y.
Qed.

(** One turn of a loop that reads a cell and writes back a cell made from
    it. *)
Lemma rewrite_turn key r c (h : Cell -> Cell) s s' :
  (o <- readCell key r c ;; writeCell key r c (h (orEmpty o))) s = Ok tt s' ->
  lookupCell s' key r c = Some (h (orEmpty (lookupCell s key r c))).
Proof.
  intros E. apply bind_Ok in E as (o & s1 & E1 & E).
  rewrite readCell_run in E1.
  destruct (mapGet key (sheets (wb s))) as [sh|]; [|discriminate].
  destruct (rows sh !! r); [|discriminate]. injection E1 as <- <-.
  rewrite (writeCell_lookup _ _ _ _ _ _ key r c E). now rewrite decide_True.
Qed.

(** The two index loops of [setFormulas] (and of [setValues] without a
    provenance argument): when they return, the position of each entry of
    the data array holds the cell made from the entry and from what the
    position held before the loops. *)
Lemma rewrite_loop_establishes {A} range (data : list (list A)) (g : A -> Cell -> Cell)
    i j row x s s' :
  data !! i = Some row -> row !! j = Some x ->
  forEachI data (fun r row =>
    forEachI row (fun c x =>
      o <- readCell (sheet range) (r1 range + r) (c1 range + c) ;;
      writeCell (sheet range) (r1 range + r) (c1 range + c) (g x (orEmpty o)))) s
  = Ok tt s' ->
  lookupCell s' (sheet range) (r1 range + i) (c1 range + j)
  = Some (g x (orEmpty (lookupCell s (sheet range) (r1 range + i) (c1 range + j)))).
Proof.
  intros Hi Hj.
  set (key := sheet range). set (r0 := (r1 range + i)%nat). set (c0 := (c1 range + j)%nat).
  set (prev0 := orEmpty (lookupCell s key r0 c0)).
  set (others := fun k r c => written range data k r c /\ ~ (r = r0 /\ c = c0)).
  set (P := fun t : Model => orEmpty (lookupCell t key r0 c0) = prev0).
  set (Q := fun t : Model => lookupCell t key r0 c0 = Some (g x prev0)).
  assert (Hn : ~ others key r0 c0) by (intros [_ H]; tauto).
  assert (HP : forall t t', frame others t t' -> P t -> P t').
  { intros t t' F Pt. unfold P. now rewrite (frame_orEmpty _ _ _ _ _ _ Hn F). }
  assert (HQ : forall t t', frame others t t' -> Q t -> Q t').
  { intros t t' (C & _) Qt. now apply C. }
  assert (K : forall i' j' row' x', data !! i' = Some row' -> row' !! j' = Some x' ->
            ~ (i' = i /\ j' = j) ->
            keeps (frame others)
              (o <- readCell key (r1 range + i') (c1 range + j') ;;
               writeCell key (r1 range + i') (c1 range + j') (g x' (orEmpty o)))).
  { intros i' j' row' x' Hi' Hj' Hne.
    apply keeps_readCell_then; [apply _|]. intros o.
    apply keeps_writeCell_frame. split; [|subst r0 c0; lia].
    split; [reflexivity|]. exists i', j', row'. repeat split; [exact Hi'|].
    eapply lookup_lt_Some, Hj'. }
  intros E. change (Q s'). unfold forEachI in E.
  apply (forEachFrom_establish (frame others) P Q data
           (fun r row => forEachFrom 0 row (fun c x =>
              o <- readCell key (r1 range + r) (c1 range + c) ;;
              writeCell key (r1 range + r) (c1 range + c) (g x (orEmpty o))))
           HP HQ 0 i row Hi) with (s := s); [| |reflexivity|exact E].
  - intros i' row' Hne Hi'. cbn [Nat.add].
    apply keeps_forEachFrom; [apply _|]. intros j' x' Hj'. cbn [Nat.add].
    apply (K i' j' row' x' Hi' Hj'). lia.
  - cbn [Nat.add].
    apply (forEachFrom_establish (frame others) P Q row _ HP HQ 0 j x Hj).
    + intros j' x' Hne Hj'. cbn [Nat.add]. apply (K i j' row x' Hi Hj'). lia.
    + cbn [Nat.add]. intros t t' Pt Et. unfold Q. unfold P in Pt. rewrite <- Pt.
      apply (rewrite_turn key r0 c0 (g x) t t' Et).
Qed.

Lemma keeps_setFormulas_frame range formulas :
  keeps (frame (written range formulas)) (setFormulas range formulas).
Proof.
  unfold setFormulas.
  apply keeps_bind; [apply _| |].
  { eapply keeps_weaken; [apply grown_frame|apply keeps_snapshot_grown]. }
  intros before.
  apply keeps_bind; [apply _|apply keeps_getSheet; apply _|]. intros _.
  apply keeps_bind; [apply _|apply keeps_ensureSize_frame|]. intros _.
  apply keeps_bind; [apply _| |].
  { apply (keeps_rewrite_loop _ range formulas
             (fun f prev => {| value := VNull; formula := f;
                               provenance := provenance prev; format := format prev |})).
    intros i j row x Hi Hj y. apply keeps_writeCell_frame.
    split; [reflexivity|]. exists i, j, row. repeat split; [exact Hi|].
    eapply lookup_lt_Some, Hj. }
  intros _. apply keeps_bind; [apply _|apply appendEvent_frame|]. intros _.
  apply keeps_ret; apply _.
Qed.

(** [setFormulas] writes the positions that the [formulas] array covers from
    the top-left corner of the range.  Whatever the call ends in, every
    cell at another position is unchanged.  When the call returns, the cell
    at the position of [formulas[i][j]] has the value [null], the formula
    [formulas[i][j]] (none for [null]), and the format and the provenance
    array that the position had before. *)
Theorem setFormulas_clears_values_keeps_the_rest
    (range : RangeRef) (formulas : list (list (option string))) (st : Model) :
  frame (written range formulas) st (stateOf (setFormulas range formulas st)) /\
  (forall u st' i j fs f,
      setFormulas range formulas st = Ok u st' ->
      formulas !! i = Some fs -> fs !! j = Some f ->
      let prev := orEmpty (lookupCell st (sheet range) (r1 range + i) (c1 range + j)) in
      lookupCell st' (sheet range) (r1 range + i) (c1 range + j)
      = Some {| value := VNull; formula := f;
                provenance := provenance prev; format := format prev |}).
Proof.
  split; [apply keeps_setFormulas_frame|].
  intros u st' i j fs f E Hi Hj prev. unfold setFormulas in E.
  apply bind_Ok in E as (before & s1 & E1 & E).
  apply bind_Ok in E as (sh & s2 & E2 & E).
  apply bind_Ok in E as ([] & s3 & E3 & E).
  apply bind_Ok in E as ([] & s4 & E4 & E).
  apply bind_Ok in E as (ev & s5 & E5 & E).
  injection E as _ <-.
  assert (G : grown st s3).
  { transitivity s1; [eapply keeps_Ok; [apply keeps_snapshot_grown|exact E1]|].
    transitivity s2; [eapply keeps_Ok; [apply keeps_getSheet; apply _|exact E2]|].
    eapply keeps_Ok; [apply keeps_ensureSize_grown|exact E3]. }
  unfold appendEvent, bind, modify in E5. injection E5 as _ <-.
  pose proof (rewrite_loop_establishes range formulas
                (fun f prev => {| value := VNull; formula := f;
                                  provenance := provenance prev; format := format prev |})
                i j fs f s3 s4 Hi Hj E4) as H.
  unfold lookupCell in *. cbn [sheets wb setEvents]. rewrite H.
  fold (lookupCell s3 (sheet range) (r1 range + i) (c1 range + j)).
  rewrite (grown_orEmpty _ _ _ _ _ G). reflexivity.
Qed.

Lemma setFormulas_witness :
  let st := oneSheet [[Some {| value := VNum 7; formula := None;
                               provenance := None; format := Some "percent"%string |};
                       Some (literal (VNum 8))]] in
  let st' := stateOf (setFormulas cellA1 [[Some "=B1"%string]] st) in
  lookupCell st' "Sheet1" 0 0
  = Some {| value := VNull; formula := Some "=B1"%string;
            provenance := None; format := Some "percent"%string |} /\
  lookupCell st' "Sheet1" 0 1 = Some (literal (VNum 8)).
Proof.
  intros st st'.
  destruct (setFormulas_clears_values_keeps_the_rest cellA1 [[Some "=B1"%string]] st)
    as [(C & _) W].
  split.
  - apply (W tt st' 0%nat 0%nat [Some "=B1"%string] (Some "=B1"%string));
      reflexivity.
  - apply C; [|reflexivity].
    intros (_ & i & j & row & Hi & Hj & Hr & Hc).
    destruct i as [|i]; [|discriminate Hi]. injection Hi as <-. simpl in Hj, Hc. lia.
Defined.

Lemma keeps_formatRange_frame range fmt :
  keeps (frame (inRange range)) (formatRange range fmt).
Proof.
  unfold formatRange.
  apply keeps_bind; [apply _| |].
  { eapply keeps_weaken; [apply grown_frame|apply keeps_snapshot_grown]. }
  intros before.
  apply keeps_bind; [apply _|apply keeps_getSheet; apply _|]. intros _.
  apply keeps_bind; [apply _|apply keeps_ensureSize_frame|]. intros _.
  apply keeps_bind; [apply _| |].
  { apply keeps_formatRange_loop; [apply _|]. intros r c Hin y.
    now apply keeps_writeCell_frame. }
  intros _. apply keeps_bind; [apply _|apply appendEvent_frame|]. intros _.
  apply keeps_ret; apply _.
Qed.

Lemma upto_lookup_inv lo hi i x : upto lo hi !! i = Some x -> x = (lo + i)%nat /\ (x <= hi)%nat.
Proof.
  unfold upto. intros H. apply lookup_seq in H. lia.
Qed.

Lemma formatRange_loop_establishes range fmt r c s s' :
  inRange range (sheet range) r c ->
  forEach (upto (r1 range) (r2 range)) (fun r =>
    forEach (upto (c1 range) (c2 range)) (fun c =>
      o <- readCell (sheet range) r c ;;
      let prev := orEmpty o in
      writeCell (sheet range) r c
        {| value := value prev; formula := formula prev;
           provenance := provenance prev; format := fmt |})) s = Ok tt s' ->
  let prev := orEmpty (lookupCell s (sheet range) r c) in
  lookupCell s' (sheet range) r c
  = Some {| value := value prev; formula := formula prev;
            provenance := provenance prev; format := fmt |}.
Proof.
  intros (_ & Hr & Hc) E prev.
  set (key := sheet range) in *.
  set (h := fun p : Cell => {| value := value p; formula := formula p;
                               provenance := provenance p; format := fmt |}).
  set (others := fun k r' c' => inRange range k r' c' /\ ~ (r' = r /\ c' = c)).
  set (P := fun t : Model => orEmpty (lookupCell t key r c) = prev).
  set (Q := fun t : Model => lookupCell t key r c = Some (h prev)).
  assert (Hn : ~ others key r c) by (intros [_ H]; tauto).
  assert (HP : forall t t', frame others t t' -> P t -> P t').
  { intros t t' F Pt. unfold P. now rewrite (frame_orEmpty _ _ _ _ _ _ Hn F). }
  assert (HQ : forall t t', frame others t t' -> Q t -> Q t').
  { intros t t' (C & _) Qt. now apply C. }
  assert (K : forall r' c', (r1 range <= r' <= r2 range)%nat ->
            (c1 range <= c' <= c2 range)%nat -> ~ (r' = r /\ c' = c) ->
            keeps (frame others)
              (o <- readCell key r' c' ;; writeCell key r' c' (h (orEmpty o)))).
  { intros r' c' Hr' Hc' Hne.
    apply keeps_readCell_then; [apply _|]. intros o.
    apply keeps_writeCell_frame. split; [|exact Hne]. split; [reflexivity|]. lia. }
  change (Q s'). unfold forEach in E.
  assert (Li : upto (r1 range) (r2 range) !! (r - r1 range)%nat = Some r).
  { rewrite upto_lookup by lia. f_equal. lia. }
  assert (Lj : upto (c1 range) (c2 range) !! (c - c1 range)%nat = Some c).
  { rewrite upto_lookup by lia. f_equal. lia. }
  apply (forEachFrom_establish (frame others) P Q (upto (r1 range) (r2 range))
           (fun _ r' => forEachFrom 0 (upto (c1 range) (c2 range)) (fun _ c' =>
              o <- readCell key r' c' ;; writeCell key r' c' (h (orEmpty o))))
           HP HQ 0 _ r Li) with (s := s); [| |reflexivity|exact E].
  - intros i' r' Hne Hi'. apply upto_lookup_inv in Hi' as [-> Hle].
    apply keeps_forEachFrom; [apply _|]. intros j' c' Hj'.
    apply upto_lookup_inv in Hj' as [-> Hle']. apply K; lia.
  - apply (forEachFrom_establish (frame others) P Q (upto (c1 range) (c2 range)) _
             HP HQ 0 _ c Lj).
    + intros j' c' Hne Hj'. apply upto_lookup_inv in Hj' as [-> Hle']. apply K; lia.
    + intros t t' Pt Et. unfold Q. unfold P in Pt. rewrite <- Pt.
      apply (rewrite_turn key r c h t t' Et).
Qed.

Lemma formatRange_returns range fmt st :
  is_Some (mapGet (sheet range) (sheets (wb st))) ->
  exists st', formatRange range fmt st = Ok tt st'.
Proof.
  intros Hs. unfold formatRange.
  destruct (snapshot_returns range st Hs) as (before & s1 & E1 & (sh & Hsh & Hn)).
  unfold bind at 1. rewrite E1.
  unfold bind at 1. rewrite (getSheet_Some _ _ _ Hsh).
  destruct (ensureSize_returns (sheet range) (r2 range + 1) (c2 range + 1) s1)
    as (s2 & E2 & H2 & _); [eauto|].
  unfold bind at 1. rewrite E2. unfold forEach.
  match goal with |- context [forEachFrom 0 (upto (r1 range) (r2 range)) ?f] =>
    destruct (forEachFrom_returns (hasRows (sheet range) (r2 range + 1))
                (upto (r1 range) (r2 range)) f 0)
      with (s := s2) as (s3 & E3 & H3); [|exact H2|] end.
  { intros i r t Hi Ht. apply upto_lookup_inv in Hi as [_ Hle].
    apply forEachFrom_returns; [|exact Ht].
    intros j c t' Hj Ht'. cbv zeta.
    unfold bind at 1. rewrite (readCell_returns _ _ _ _ _ Ht') by lia.
    apply writeCell_returns; [exact Ht'|lia]. }
  unfold bind at 1. rewrite E3. eexists. reflexivity.
Qed.



(** ** Reading provenance back *)

Lemma getProvenance_at key (r c : nat) x st :
  lookupCell st key r c = Some x ->
  exists st',
    getProvenance key (rcToA1 (Z.of_nat r) (Z.of_nat c)) st = Ok (provOf st x) st' /\
    grown st st'.
Proof.
  intros Hx. destruct (lookupCell_Some _ _ _ _ _ Hx) as (s & Hs & Hc).
  exists (withRows key (padRows (r + 1) (c + 1)) st). split.
  - unfold getProvenance. rewrite a1ToRc_rcToA1 by lia.
    unfold bind at 1. rewrite (getCell_Some _ _ _ _ _ Hs).
    rewrite (cellAt_padRows_old _ _ _ _ _ _ Hc). reflexivity.
  - apply grown_withRows. intros g. apply grownRows_padRows.
Qed.

(** What [setValues] stamps, [getProvenance] reads back: after a
    [setValues] with a provenance argument that returned, [getProvenance]
    at the A1 reference of any position written returns the entries of the
    argument, and changes the model by growth only. *)
Theorem getProvenance_reads_back_setValues
    (range : RangeRef) (values : list (list CellValue)) (l : list CellProvenance)
    (st : Model) (u : unit) (st' : Model) (i j : nat) (vs : list CellValue) (v : CellValue) :
  setValues range values (Some l) st = Ok u st' ->
  values !! i = Some vs -> vs !! j = Some v ->
  exists st'',
    getProvenance (sheet range)
      (rcToA1 (Z.of_nat (r1 range + i)) (Z.of_nat (c1 range + j))) st' = Ok l st'' /\
    grown st' st''.
Proof.
  intros E Hi Hj.
  destruct (setValues_stamps _ _ _ _ _ _ _ _ _ _ E Hi Hj) as (x & Hx & Hp).
  destruct (getProvenance_at _ _ _ _ _ Hx) as (st'' & H & G).
  exists st''. split; [|exact G]. now rewrite <- Hp.
Qed.

Lemma getProvenance_reads_back_witness :
  exists st'',
    getProvenance "Sheet1" "B2"
      (stateOf (setValues {| sheet := "Sheet1"; r1 := 0; c1 := 0; r2 := 1; c2 := 1 |}
                  [[VNum 1; VNum 2]; [VNum 3; VNum 4]] (Some [doc "d1"]) freshModel))
    = Ok [doc "d1"] st''.
Proof.
  destruct (getProvenance_reads_back_setValues
              {| sheet := "Sheet1"; r1 := 0; c1 := 0; r2 := 1; c2 := 1 |}
              [[VNum 1%float; VNum 2%float]; [VNum 3%float; VNum 4%float]] [doc "d1"]
              freshModel tt
              (stateOf (setValues {| sheet := "Sheet1"; r1 := 0; c1 := 0; r2 := 1; c2 := 1 |}
                          [[VNum 1%float; VNum 2%float]; [VNum 3%float; VNum 4%float]]
                          (Some [doc "d1"]) freshModel))
              1%nat 1%nat [VNum 3%float; VNum 4%float] (VNum 4%float)
              eq_refl eq_refl eq_refl) as (st'' & H & _).
  exists st''. exact H.
Defined.

Lemma keeps_getProvenance_grown key a1 : keeps grown (getProvenance key a1).
Proof.
  unfold getProvenance. destruct (a1ToRc a1) as [[r c]|]; [|apply keeps_throw; apply _].
  apply keeps_bind; [apply _|apply keeps_getCell_grown|]. intros [cell|];
    [|apply keeps_throw; apply _].
  apply keeps_bind; [apply _|apply keeps_get; apply _|]. intros st.
  apply keeps_ret; apply _.
Qed.



(** ** Undo of [createSheet] and of [deleteSheet] *)

Section MapUndo.
Context {V : Type}.
Implicit Types (m : list (string * V)) (k : string) (v : V).

Lemma mapDelete_mapSet_fresh k v m :
  mapGet k m = None -> mapDelete k (mapSet k v m) = m.
Proof.
  induction m as [|[k' v'] m IH]; simpl.
  - now rewrite String.eqb_refl.
  - destruct (String.eqb_spec k k') as [->|Hne]; [discriminate|]. intros H. simpl.
    destruct (String.eqb_spec k k'); [done|]. now rewrite IH.
Qed.

Lemma mapGet_mapDelete_ne k k' m : k <> k' -> mapGet k' (mapDelete k m) = mapGet k' m.
Proof.
  intros Hne. induction m as [|[k0 v0] m IH]; simpl; [reflexivity|].
  destruct (String.eqb_spec k k0) as [->|Hk]; simpl.
  - destruct (String.eqb_spec k' k0); [congruence|reflexivity].
  - destruct (String.eqb_spec k' k0); [reflexivity|exact IH].
Qed.

Lemma mapGet_None_keys k m : mapGet k m = None <-> k ∉ map fst m.
Proof.
  induction m as [|[k0 v0] m IH]; simpl.
  - split; [intros _; apply not_elem_of_nil|reflexivity].
  - rewrite not_elem_of_cons. destruct (String.eqb_spec k k0) as [->|Hk].
    + split; [discriminate|tauto].
    + rewrite IH. tauto.
Qed.

Lemma mapSet_keys_fresh k v m :
  mapGet k m = None -> map fst (mapSet k v m) = map fst m ++ [k].
Proof.
  induction m as [|[k0 v0] m IH]; simpl; [reflexivity|].
  destruct (String.eqb_spec k k0) as [->|Hk]; [discriminate|]. intros H. simpl.
  now rewrite IH.
Qed.

Lemma mapDelete_keys k m :
  NoDup (map fst m) ->
  map fst (mapDelete k m) = filter (fun k' => k' <> k) (map fst m) /\
  mapGet k (mapDelete k m) = None.
Proof.
  induction m as [|[k0 v0] m IH]; simpl; [done|]. intros ND.
  apply NoDup_cons in ND as [Hn ND]. destruct (IH ND) as [IH1 IH2].
  destruct (String.eqb_spec k k0) as [->|Hk].
  - rewrite filter_cons_False by (intros H; now apply H). split.
    + clear -Hn. induction (map fst m) as [|x l IHl]; [reflexivity|].
      apply not_elem_of_cons in Hn as [Hx Hl].
      rewrite filter_cons_True by congruence. now rewrite <- IHl.
    + now apply mapGet_None_keys.
  - rewrite filter_cons_True by congruence. simpl. rewrite IH1. split; [reflexivity|].
    destruct (String.eqb_spec k k0); [done|exact IH2].
Qed.

End MapUndo.

(** [createSheet] followed by [undo] is a round trip on the workbook: when
    the name is free, [createSheet] returns, [undo] returns its event, and
    the sheets (their order included), the checkpoints and the provenance
    store are those before; only the log has grown, by the [deleteSheet]
    event of the undo itself. *)
Theorem undo_of_createSheet (n : string) (st : Model) :
  mapGet n (sheets (wb st)) = None ->
  exists st1 ev st2,
    createSheet n st = Ok tt st1 /\
    undo st1 = Ok (Some ev) st2 /\
    op ev = "createSheet"%string /\
    sheets (wb st2) = sheets (wb st) /\
    checkpoints (wb st2) = checkpoints (wb st) /\
    provStore st2 = provStore st /\
    exists ev', events (wb st2) = events (wb st) ++ [ev'] /\
                op ev' = "deleteSheet"%string.
Proof.
  intros Hn. eexists _, _, _. split.
  { unfold createSheet, bind, get, mapHas. rewrite Hn. reflexivity. }
  split.
  { unfold undo, bind, get. cbn [events wb setEvents setSheets appendEvent modify].
    rewrite rev_app_distr. cbn [rev app inverse fst snd].
    change (dispatch "deleteSheet" (ArgsName n) true) with (deleteSheet n).
    unfold deleteSheet, bind, getSheet. cbn [sheets wb setEvents setSheets modify].
    rewrite mapGet_mapSet_eq. reflexivity. }
  cbn [op sheets checkpoints events wb provStore setEvents setSheets].
  rewrite (mapDelete_mapSet_fresh _ _ _ Hn), rev_involutive. repeat split.
  eexists. split; reflexivity.
Qed.

Lemma undo_of_createSheet_witness :
  exists st1 ev st2,
    createSheet "P&L" freshModel = Ok tt st1 /\
    undo st1 = Ok (Some ev) st2 /\
    sheets (wb st2) = sheets (wb freshModel).
Proof.
  destruct (undo_of_createSheet "P&L" freshModel eq_refl)
    as (st1 & ev & st2 & E1 & E2 & _ & H & _).
  exists st1, ev, st2. auto.
Defined.

(** [deleteSheet] followed by [undo] brings the sheet back with its rows,
    at the end of the sheet order.  When the sheet is there under its own
    name, [deleteSheet] returns, [undo] returns its event, every key of the
    workbook reads the sheet it read before, and the checkpoints and the
    provenance store are those before.  In a workbook where no key occurs
    twice, the order of the keys is the order before with the name moved to
    the end. *)
Theorem undo_of_deleteSheet (n : string) (s : Sheet) (st : Model) :
  mapGet n (sheets (wb st)) = Some s -> name s = n ->
  exists st1 ev st2,
    deleteSheet n st = Ok tt st1 /\
    undo st1 = Ok (Some ev) st2 /\
    op ev = "deleteSheet"%string /\
    (forall key, mapGet key (sheets (wb st2)) = mapGet key (sheets (wb st))) /\
    checkpoints (wb st2) = checkpoints (wb st) /\
    provStore st2 = provStore st /\
    (NoDup (map fst (sheets (wb st))) ->
     mapGet n (sheets (wb st1)) = None /\
     map fst (sheets (wb st2))
     = filter (fun k => k <> n) (map fst (sheets (wb st))) ++ [n]).
Proof.
  intros Hs Hname. eexists _, _, _. split.
  { unfold deleteSheet, bind, getSheet. rewrite Hs. reflexivity. }
  split.
  { unfold undo, bind, get. cbn [events wb setEvents setSheets appendEvent modify].
    rewrite rev_app_distr. cbn [rev app inverse fst snd].
    change (dispatch "restoreSheet" (ArgsSheet s) true) with (restoreSheet s).
    reflexivity. }
  cbn [op sheets checkpoints events wb provStore setEvents setSheets].
  rewrite Hname. repeat split.
  - intros key. destruct (decide (key = n)) as [->|Hne].
    + now rewrite mapGet_mapSet_eq.
    + rewrite mapGet_mapSet_ne by congruence. now apply mapGet_mapDelete_ne.
  - now apply mapDelete_keys.
  - destruct (mapDelete_keys n _ H) as [H1 H2].
    rewrite (mapSet_keys_fresh _ _ _ H2). now rewrite H1.
Qed.

Lemma undo_of_deleteSheet_witness :
  exists st1 ev st2,
    deleteSheet "Sheet1" stampedModel = Ok tt st1 /\
    mapGet "Sheet1" (sheets (wb st1)) = None /\
    undo st1 = Ok (Some ev) st2 /\
    lookupCell st2 "Sheet1" 0 0 = Some (literalWith (VNum 1) 0).
Proof.
  destruct (undo_of_deleteSheet "Sheet1"
              {| name := "Sheet1"; rows := [[Some (literalWith (VNum 1) 0)]] |}
              stampedModel eq_refl eq_refl)
    as (st1 & ev & st2 & E1 & E2 & _ & H & _ & _ & N).
  exists st1, ev, st2. split; [exact E1|]. split.
  - apply N. repeat constructor. apply not_elem_of_nil.
  - split; [exact E2|]. unfold lookupCell. rewrite H. reflexivity.
Defined.

(** ** What [executePlan] returns *)

Lemma runStep_checkpoints step st :
  checkpoints (wb (stateOf (runStep step st))) = checkpoints (wb st).
Proof.
  unfold runStep. destruct (sanitizeArgs (step_args step)) as [a|]; [|reflexivity].
  apply dispatch_log_effect.
Qed.

Lemma planLoop_prefix todo : forall executed st res st',
  planLoop todo executed st = Ok res st' ->
  (res = executed ++ todo \/
   exists n step m,
     todo !! n = Some step /\ res = executed ++ take n todo ++ [failed step m]) /\
  checkpoints (wb st') = checkpoints (wb st).
Proof.
  induction todo as [|step todo IH]; intros executed st res st' E.
  - injection E as <- <-. split; [left; now rewrite app_nil_r|reflexivity].
  - simpl in E. pose proof (runStep_checkpoints step st) as C.
    destruct (runStep step st) as [[] s1|err s1|s1]; simpl in C; [| |discriminate].
    + destruct (IH _ _ _ _ E) as [[->|(n & s0 & m & Hn & ->)] C1].
      * split; [left; now rewrite <- app_assoc|congruence].
      * split; [right|congruence]. exists (S n), s0, m. split; [exact Hn|].
        simpl. now rewrite <- app_assoc.
    + destruct err as [m|]; [|discriminate]. simpl in E. injection E as <- <-.
      split; [right|exact C].
      exists 0%nat, step, m. split; reflexivity.
Qed.



(** ** The evaluator terminates *)

Lemma elem_of_concat {A} (x : A) (l : list A) (ls : list (list A)) :
  x ∈ l -> l ∈ ls -> x ∈ concat ls.
Proof.
  intros Hx Hl. induction ls as [|l' ls IH]; [by apply elem_of_nil in Hl|].
  simpl. apply elem_of_app. apply elem_of_cons in Hl as [->|Hl]; [by left|right; auto].
Qed.

Lemma formulaKeys_covers st key r c x :
  lookupCell st key r c = Some x -> hasFormula x = true ->
  (key, Z.of_nat r, Z.of_nat c) ∈ formulaKeys st key.
Proof.
  intros Hx Hf. destruct (lookupCell_Some _ _ _ _ _ Hx) as (s & Hs & Hc).
  unfold formulaKeys. rewrite Hs. apply elem_of_list_to_set.
  rewrite cellAt_row in Hc. destruct (rows s !! r) as [row|] eqn:Er; [|discriminate].
  unfold rowCell in Hc. destruct (row !! c) as [[y|]|] eqn:Ec; try discriminate.
  injection Hc as ->.
  eapply elem_of_concat; [|apply (elem_of_lookup_imap_2 _ _ _ _ Er)].
  eapply elem_of_concat; [|apply (elem_of_lookup_imap_2 _ _ _ _ Ec)].
  simpl. rewrite Hf. apply list_elem_of_here.
Qed.

Lemma getCell_modelled key r c st :
  match getCell key r c st with Unmodelled _ => False | _ => True end.
Proof.
  unfold getCell, bind, ensureSize, bind, getSheet.
  destruct (mapGet key (sheets (wb st))) as [s|] eqn:Hs; [|exact I].
  unfold setRows, modify.
  match goal with |- context [mapGet key (sheets (wb ?t))] =>
    destruct (mapGet key (sheets (wb t))) as [s'|] end; [|exact I].
  destruct (r <? 0); [exact I|]. destruct (rows s' !! Z.to_nat r); [|exact I].
  destruct (c <? 0); exact I.
Qed.

Lemma getCell_Ok key r c st o st1 :
  getCell key r c st = Ok o st1 ->
  grown st st1 /\
  match o with
  | Some cell =>
      0 <= r /\ 0 <= c /\ lookupCell st1 key (Z.to_nat r) (Z.to_nat c) = Some cell
  | None => True
  end.
Proof.
  intros E. split; [eapply keeps_Ok; [apply keeps_getCell_grown|exact E]|].
  unfold getCell in E. apply bind_Ok in E as ([] & s1 & E1 & E).
  apply bind_Ok in E as (s & s2 & E2 & E).
  unfold getSheet in E2. destruct (mapGet key (sheets (wb s1))) as [s'|] eqn:Hs; [|discriminate].
  injection E2 as <- <-.
  destruct (Z.ltb_spec r 0); [discriminate|].
  destruct (rows s' !! Z.to_nat r) as [row|]; [|discriminate].
  destruct (Z.ltb_spec c 0); injection E as <- <-; [exact I|].
  destruct (cellAt (rows s') (Z.to_nat r) (Z.to_nat c)) as [cell|] eqn:Ec; [|exact I].
  repeat split; [lia|lia|]. unfold lookupCell. now rewrite Hs.
Qed.

Lemma unseen_subseteq (F : gset Key) (k : Key) (seen : Seen) :
  F ∖ ({[ k ]} ∪ seen) ⊆ F ∖ seen.
Proof.
  intros x Hx. apply elem_of_difference in Hx as [H1 H2].
  apply elem_of_difference. split; [exact H1|]. intros Hs. apply H2.
  apply elem_of_union. now right.
Qed.

Lemma unseen_subset (F : gset Key) (k : Key) (seen : Seen) :
  k ∈ F -> k ∉ seen -> F ∖ ({[ k ]} ∪ seen) ⊂ F ∖ seen.
Proof.
  intros Hin Hn. split; [apply unseen_subseteq|]. intros H.
  assert (Hk : k ∈ F ∖ seen) by (apply elem_of_difference; split; assumption).
  apply H in Hk. apply elem_of_difference in Hk as [_ Hk]. apply Hk.
  apply elem_of_union. left. now apply elem_of_singleton.
Qed.

Section Termination.

Context {rt : Runtime}.
Variables (key : string) (st0 : Model).

(** With [strict], no expression text escapes. *)
Variable strict : bool.
Hypothesis no_escape : strict = true -> forall s, jsEval s <> Some JEscapes.

Let F : gset Key := formulaKeys st0 key.

(** The state of an evaluation that started from [st0]: the model has only
    grown, and at most [k] formula cells of the sheet are not yet in the
    [seen] set. *)
Let inv (k : nat) (p : Model * Seen) : Prop :=
  grown st0 p.1 /\ (size (F ∖ p.2) <= k)%nat.

(** What [m] leaves from such a state: when it returns, such a state
    again; with [strict], something the embedding covers. *)
Let lands {A} (k : nat) (o : outcome (Model * Seen) A) : Prop :=
  match o with
  | Ok _ s' => inv k s'
  | Throw _ _ => True
  | Unmodelled _ => strict = false
  end.

(** From such a state [m] and [m'] do the same, and land. *)
Let agree {A} (k : nat) (m m' : EV A) : Prop :=
  forall s, inv k s -> m s = m' s /\ lands k (m s).

Lemma agree_ret {A} k (a : A) : agree k (ret a) (ret a).
Proof. intros s Hs. split; [reflexivity|exact Hs]. Qed.

Lemma agree_throw {A} k e : agree k (throw (A:=A) e) (throw e).
Proof. intros s Hs. split; [reflexivity|exact I]. Qed.

Lemma agree_evalExpr k expr : agree k (evalExpr expr) (evalExpr expr).
Proof.
  intros s Hs. split; [reflexivity|]. unfold evalExpr.
  destruct (jsEval (str expr)) as [[n|[n|]|]|] eqn:E; try exact Hs.
  simpl. destruct strict; [|reflexivity]. now destruct (no_escape eq_refl (str expr)).
Qed.

Lemma agree_bind {A B} k (m m' : EV A) (f f' : A -> EV B) :
  agree k m m' -> (forall a, agree k (f a) (f' a)) -> agree k (bind m f) (bind m' f').
Proof.
  intros Hm Hf s Hs. unfold bind. destruct (Hm s Hs) as [E L]. rewrite <- E.
  destruct (m s) as [a s1|e s1|s1]; [now apply Hf|split; [reflexivity|exact I]|].
  split; [reflexivity|exact L].
Qed.

Lemma agree_mapM {A B} k (f f' : A -> EV B) (l : list A) :
  (forall x, agree k (f x) (f' x)) -> agree k (mapM f l) (mapM f' l).
Proof.
  intros Hf. induction l as [|x l IH]; cbn [mapM]; [apply agree_ret|].
  apply agree_bind; [apply Hf|]. intros y.
  apply agree_bind; [exact IH|]. intros ys. apply agree_ret.
Qed.

Lemma agree_foldM {A B} k (f f' : B -> A -> EV B) (l : list A) :
  (forall b x, agree k (f b x) (f' b x)) ->
  forall init, agree k (foldM f l init) (foldM f' l init).
Proof.
  intros Hf. induction l as [|x l IH]; intros init; cbn [foldM]; [apply agree_ret|].
  apply agree_bind; [apply Hf|]. intros b. apply IH.
Qed.

Section Rec.

Variables (k : nat) (rec rec' : string -> Z -> Z -> EV CellValue).
Hypothesis rec_agree : forall r c, agree k (rec key r c) (rec' key r c).

Lemma agree_evalRef a1 : agree k (evalRef rec key a1) (evalRef rec' key a1).
Proof.
  unfold evalRef. destruct (a1ToRc_text a1) as [[r c]|]; [|apply agree_throw].
  apply agree_bind; [apply rec_agree|]. intros v. apply agree_ret.
Qed.

Lemma agree_sumRange a1range :
  agree k (sumRange rec key a1range) (sumRange rec' key a1range).
Proof.
  unfold sumRange. destruct (matchRange a1range) as [[[[l1 d1] l2] d2]|]; [|apply agree_ret].
  destruct (a1ToRc_text (l1 ++ d1)) as [[ar ac]|]; [|apply agree_throw].
  destruct (a1ToRc_text (l2 ++ d2)) as [[br bc]|]; [|apply agree_throw].
  apply agree_foldM. intros total r. apply agree_foldM. intros total' c.
  apply agree_bind; [apply rec_agree|]. intros v. apply agree_ret.
Qed.

Lemma agree_sumTerm term : agree k (sumTerm rec key term) (sumTerm rec' key term).
Proof.
  unfold sumTerm. destruct (isRange (trim term)); [apply agree_sumRange|].
  destruct (isRef (trim term)); [apply agree_evalRef|]. apply agree_ret.
Qed.

Lemma agree_sumArgs args : agree k (sumArgs rec key args) (sumArgs rec' key args).
Proof.
  unfold sumArgs. apply agree_bind; [|intros ns; apply agree_ret].
  apply agree_mapM. intros t. apply agree_sumTerm.
Qed.

Lemma agree_replacePieces ps (f f' : text -> EV text) :
  (forall t, agree k (f t) (f' t)) -> agree k (replacePieces ps f) (replacePieces ps f').
Proof.
  intros H. unfold replacePieces. apply agree_bind; [|intros ts; apply agree_ret].
  apply agree_mapM. intros [t|t]; [apply agree_ret|apply H].
Qed.

Lemma agree_formula expr :
  agree k
    (expr <- replacePieces (findSums expr 0)
               (fun args => n <- sumArgs rec key args ;;
                            ret (txt (String_of_number n))) ;;
     expr <- replacePieces (findRefs expr false 0)
               (fun a1 => n <- evalRef rec key a1 ;;
                          ret (txt (String_of_number n))) ;;
     evalExpr expr)
    (expr <- replacePieces (findSums expr 0)
               (fun args => n <- sumArgs rec' key args ;;
                            ret (txt (String_of_number n))) ;;
     expr <- replacePieces (findRefs expr false 0)
               (fun a1 => n <- evalRef rec' key a1 ;;
                          ret (txt (String_of_number n))) ;;
     evalExpr expr).
Proof.
  apply agree_bind.
  { apply agree_replacePieces. intros t.
    apply agree_bind; [apply agree_sumArgs|]. intros n. apply agree_ret. }
  intros e1. apply agree_bind; [|intros e2; apply agree_evalExpr].
  apply agree_replacePieces. intros t.
  apply agree_bind; [apply agree_evalRef|]. intros n. apply agree_ret.
Qed.

End Rec.

Lemma inv_weaken j k p : (j <= k)%nat -> inv j p -> inv k p.
Proof. intros H [G S]. split; [exact G|lia]. Qed.

Lemma lands_weaken {A} j k (o : outcome (Model * Seen) A) :
  (j <= k)%nat -> lands j o -> lands k o.
Proof. intros H. destruct o; simpl; auto. now apply inv_weaken. Qed.

(** The body of [evaluateCell], step by step, up to the rewriting of the
    formula. *)
Lemma evaluateCell_body_run (rec : string -> Z -> Z -> EV CellValue) r c st (seen : Seen) :
  evaluateCell_body rec key r c (st, seen) =
  if decide ((key, r, c) ∈ seen) then Ok (VStr "#REF!") (st, seen)
  else
    let seen' := {[ (key, r, c) ]} ∪ seen in
    match getCell key r c st with
    | Ok None st1 => Throw TypeError (st1, seen')
    | Ok (Some cell) st1 =>
        match formula cell with
        | None | Some EmptyString => Ok (value cell) (st1, seen')
        | Some ftext =>
            let f := trim (txt ftext) in
            if negb (startsWithEq f) then Ok (value cell) (st1, seen')
            else
              (expr <- replacePieces (findSums (drop 1 f) 0)
                         (fun args => n <- sumArgs rec key args ;;
                                      ret (txt (String_of_number n))) ;;
               expr <- replacePieces (findRefs expr false 0)
                         (fun a1 => n <- evalRef rec key a1 ;;
                                    ret (txt (String_of_number n))) ;;
               evalExpr expr) (st1, seen')
        end
    | Throw e st1 => Throw e (st1, seen')
    | Unmodelled st1 => Unmodelled (st1, seen')
    end.
Proof.
  unfold evaluateCell_body. unfold bind at 1. unfold hasSeen.
  destruct (decide ((key, r, c) ∈ seen)) as [Hin|Hn].
  { now rewrite (bool_decide_eq_true_2 _ Hin). }
  rewrite (bool_decide_eq_false_2 _ Hn).
  unfold bind at 1. unfold addSeen. unfold bind at 1. unfold liftE.
  destruct (getCell key r c st) as [[cell|] st1|e st1|st1]; try reflexivity.
  destruct (formula cell) as [[|a ftext]|]; try reflexivity.
  cbv zeta. destruct (negb _); reflexivity.
Qed.

Lemma agree_body k (rec rec' : string -> Z -> Z -> EV CellValue) r c :
  (forall j, k = S j -> forall r' c', agree j (rec key r' c') (rec' key r' c')) ->
  agree k (evaluateCell_body rec key r c) (evaluateCell_body rec' key r c).
Proof.
  intros Hrec [st seen] [G Hsz]. simpl in G, Hsz.
  rewrite !evaluateCell_body_run.
  destruct (decide ((key, r, c) ∈ seen)) as [Eb|Eb];
    [split; [reflexivity|split; assumption]|].
  cbv zeta.
  pose proof (getCell_modelled key r c st) as Hm.
  destruct (getCell key r c st) as [o st1|e st1|st1] eqn:Eg;
    [|split; [reflexivity|exact I]|destruct Hm].
  destruct (getCell_Ok _ _ _ _ _ _ Eg) as [G1 Ho].
  assert (G01 : grown st0 st1) by (etransitivity; eassumption).
  assert (Hsz' : (size (F ∖ ({[(key, r, c)]} ∪ seen)) <= k)%nat).
  { etransitivity; [|exact Hsz]. apply subseteq_size, unseen_subseteq. }
  destruct o as [cell|]; [|split; [reflexivity|exact I]].
  destruct Ho as (Hr & Hc & Hl).
  assert (Hret : inv k (st1, {[(key, r, c)]} ∪ seen)) by (split; assumption).
  destruct (formula cell) as [[|a ftext]|] eqn:Ef;
    [split; [reflexivity|exact Hret]| |split; [reflexivity|exact Hret]].
  destruct (negb _); [split; [reflexivity|exact Hret]|].
  assert (Hin : (key, r, c) ∈ F).
  { replace r with (Z.of_nat (Z.to_nat r)) by lia.
    replace c with (Z.of_nat (Z.to_nat c)) by lia.
    destruct (grown_new_cells _ _ _ _ _ _ G01 Hl) as [H0|H0].
    - apply (formulaKeys_covers _ _ _ _ _ H0). unfold hasFormula. now rewrite Ef.
    - subst cell. discriminate Ef. }
  assert (Hlt : (size (F ∖ ({[(key, r, c)]} ∪ seen)) < size (F ∖ seen))%nat).
  { apply subset_size, unseen_subset; assumption. }
  destruct k as [|j]; [lia|].
  destruct (agree_formula j rec rec' (Hrec j eq_refl)
              (drop 1 (trim (txt (String a ftext))))
              (st1, {[(key, r, c)]} ∪ seen)) as [E L].
  { split; [exact G01|]. simpl. lia. }
  split; [exact E|]. apply (lands_weaken j); [lia|exact L].
Qed.

Lemma evaluateCell_agree fuel : forall fuel' k, (k < fuel)%nat -> (k < fuel')%nat ->
  forall r c, agree k (evaluateCell fuel key r c) (evaluateCell fuel' key r c).
Proof.
  induction fuel as [|f IH]; intros fuel' k Hk Hk' r c; [lia|].
  destruct fuel' as [|f']; [lia|].
  cbn [evaluateCell]. apply agree_body. intros j -> r' c'. apply IH; lia.
Qed.

Lemma evaluateTop_agree fuel fuel' r c :
  (size F < fuel)%nat -> (size F < fuel')%nat ->
  evaluateTop fuel key r c st0 = evaluateTop fuel' key r c st0 /\
  match evaluateTop fuel key r c st0 with
  | Unmodelled _ => strict = false
  | _ => True
  end.
Proof.
  intros H H'. unfold evaluateTop.
  destruct (evaluateCell_agree fuel fuel' (size F) H H' r c (st0, ∅)) as [E L].
  { split; [reflexivity|]. simpl. apply subseteq_size.
    intros x Hx. now apply elem_of_difference in Hx as [Hx _]. }
  rewrite <- E.
  destruct (evaluateCell fuel key r c (st0, ∅)) as [v [s' sn]|e [s' sn]|[s' sn]];
    (split; [reflexivity|]); [exact I|exact I|exact L].
Qed.

End Termination.

(** ** An engine whose escaping texts throw *)

Lemma refines_bind {St A B} (m m' : M St A) (k k' : A -> M St B) s :
  refines (m s) (m' s) -> (forall a t, refines (k a t) (k' a t)) ->
  refines (bind m k s) (bind m' k' s).
Proof.
  intros Hm Hk. unfold bind. destruct (m s) as [a s1|e s1|s1]; simpl in Hm.
  - rewrite <- Hm. apply Hk.
  - now rewrite <- Hm.
  - exact I.
Qed.

Lemma refines_refl {St A} (o : outcome St A) : refines o o.
Proof. destruct o; simpl; auto. Qed.

Lemma refines_mapM {St A B} (f f' : A -> M St B) (l : list A) :
  (forall x s, refines (f x s) (f' x s)) ->
  forall s, refines (mapM f l s) (mapM f' l s).
Proof.
  intros Hf. induction l as [|x l IH]; intros s; cbn [mapM]; [apply refines_refl|].
  apply refines_bind; [apply Hf|]. intros y t.
  apply refines_bind; [apply IH|]. intros ys t'. apply refines_refl.
Qed.

Lemma refines_foldM {St A B} (f f' : B -> A -> M St B) (l : list A) :
  (forall b x s, refines (f b x s) (f' b x s)) ->
  forall init s, refines (foldM f l init s) (foldM f' l init s).
Proof.
  intros Hf. induction l as [|x l IH]; intros init s; cbn [foldM]; [apply refines_refl|].
  apply refines_bind; [apply Hf|]. intros b t. apply IH.
Qed.

Lemma tame_no_escape (rt : Runtime) s : jsEval (Runtime:=tame rt) s <> Some JEscapes.
Proof. simpl. destruct (jsEval s) as [[n|o|]|]; discriminate. Qed.

Section Tame.

Context {rt : Runtime}.
Variables rec rec' : string -> Z -> Z -> EV CellValue.
Hypothesis rec_refines : forall key r c s, refines (rec key r c s) (rec' key r c s).

Lemma refines_evalRef key a1 s :
  refines (evalRef rec key a1 s) (evalRef (rt:=tame rt) rec' key a1 s).
Proof.
  unfold evalRef. destruct (a1ToRc_text a1) as [[r c]|]; [|apply refines_refl].
  apply refines_bind; [apply rec_refines|]. intros v t. apply refines_refl.
Qed.

Lemma refines_sumRange key a s :
  refines (sumRange rec key a s) (sumRange (rt:=tame rt) rec' key a s).
Proof.
  unfold sumRange. destruct (matchRange a) as [[[[l1 d1] l2] d2]|]; [|apply refines_refl].
  destruct (a1ToRc_text (l1 ++ d1)) as [[ar ac]|]; [|apply refines_refl].
  destruct (a1ToRc_text (l2 ++ d2)) as [[br bc]|]; [|apply refines_refl].
  apply refines_foldM. intros total r t. apply refines_foldM. intros total' c t'.
  apply refines_bind; [apply rec_refines|]. intros v t''. apply refines_refl.
Qed.

Lemma refines_sumTerm key term s :
  refines (sumTerm rec key term s) (sumTerm (rt:=tame rt) rec' key term s).
Proof.
  unfold sumTerm. destruct (isRange (trim term)); [apply refines_sumRange|].
  destruct (isRef (trim term)); [apply refines_evalRef|]. apply refines_refl.
Qed.

Lemma refines_sumArgs key args s :
  refines (sumArgs rec key args s) (sumArgs (rt:=tame rt) rec' key args s).
Proof.
  unfold sumArgs. apply refines_bind; [|intros ns t; apply refines_refl].
  apply refines_mapM. intros t u. apply refines_sumTerm.
Qed.

Lemma refines_replacePieces ps (f f' : text -> EV text) s :
  (forall t u, refines (f t u) (f' t u)) ->
  refines (replacePieces ps f s) (replacePieces ps f' s).
Proof.
  intros H. unfold replacePieces. apply refines_bind; [|intros ts t; apply refines_refl].
  apply refines_mapM. intros [t|t] u; [apply refines_refl|apply H].
Qed.

Lemma refines_evalExpr expr s : refines (evalExpr expr s) (evalExpr (rt:=tame rt) expr s).
Proof.
  unfold evalExpr. simpl. destruct (jsEval (str expr)) as [[n|[n|]|]|]; simpl; auto.
Qed.

Lemma refines_body key r c s :
  refines (evaluateCell_body rec key r c s) (evaluateCell_body (rt:=tame rt) rec' key r c s).
Proof.
  unfold evaluateCell_body.
  apply refines_bind; [apply refines_refl|]. intros [|] t; [apply refines_refl|].
  apply refines_bind; [apply refines_refl|]. intros _ t1.
  apply refines_bind; [apply refines_refl|]. intros [cell|] t2; [|apply refines_refl].
  destruct (formula cell) as [[|a ftext]|]; try apply refines_refl.
  cbv zeta. destruct (negb _); [apply refines_refl|].
  apply refines_bind.
  { apply refines_replacePieces. intros u v.
    apply refines_bind; [apply refines_sumArgs|]. intros n w. apply refines_refl. }
  intros e1 t3. apply refines_bind; [|intros e2 t4; apply refines_evalExpr].
  apply refines_replacePieces. intros u v.
  apply refines_bind; [apply refines_evalRef|]. intros n w. apply refines_refl.
Qed.

End Tame.

Lemma refines_evaluateCell_tame {rt : Runtime} fuel : forall key r c s,
  refines (evaluateCell fuel key r c s) (evaluateCell (rt:=tame rt) fuel key r c s).
Proof.
  induction fuel as [|f IH]; intros key r c s; [exact I|].
  cbn [evaluateCell]. apply refines_body. exact IH.
Qed.



Example mutual_references :
  evaluateTop (rt:=sampleRuntime) 3 "Sheet1" 0 0
    (oneSheet [[Some (withFormula "=B1+1"); Some (withFormula "=A1+1")]])
  = Ok (VNum 2)
       (oneSheet [[Some (withFormula "=B1+1"); Some (withFormula "=A1+1")]]).
Proof. vm_compute. reflexivity. Qed.

(** ** A formula that is one reference *)

Lemma isSpace_code a : isSpace a = true -> code a <= 32.
Proof.
  unfold isSpace, between. intros H. apply orb_prop in H as [H|H].
  - apply andb_prop in H as [_ H]. apply Z.leb_le in H. lia.
  - apply Z.eqb_eq in H. lia.
Qed.

Lemma isWord_not_space a : isWord a = true -> isSpace a = false.
Proof.
  intros H. apply not_true_is_false. intros S. apply isSpace_code in S.
  unfold isWord in H. apply orb_prop in H as [H|H]; [apply orb_prop in H as [H|H]|].
  - apply isAlpha_cases in H as [H|H]; [apply isUpper_code in H|apply isLower_code in H]; lia.
  - apply isDigit_code in H. lia.
  - apply Z.eqb_eq in H. lia.
Qed.

Lemma alpha_word a : isAlpha a = true -> isWord a = true.
Proof. unfold isWord. now intros ->. Qed.

Lemma digit_word a : isDigit a = true -> isWord a = true.
Proof. unfold isWord. intros ->. now rewrite orb_true_r. Qed.

Lemma matchRef_words l ls ds :
  matchRef l = Some (ls, ds) -> Forall (fun a => isWord a = true) l.
Proof.
  intros H. destruct (matchRef_spec _ _ _ H) as (-> & Fl & _ & Fd & _).
  apply Forall_app. split; (eapply Forall_impl; [eassumption|]); simpl.
  - apply alpha_word.
  - apply digit_word.
Qed.

Lemma dropSpace_id l :
  match l with a :: _ => isSpace a = false | [] => True end -> dropSpace l = l.
Proof.
  unfold dropSpace. destruct l as [|a l]; [reflexivity|]. simpl. now intros ->.
Qed.

(** [trim] leaves a text alone that starts and ends with no white space. *)
Lemma trim_id a l :
  isSpace a = false ->
  match rev l with b :: _ => isSpace b = false | [] => True end ->
  trim (a :: l) = a :: l.
Proof.
  intros Ha Hl. unfold trim. rewrite (dropSpace_id (a :: l)) by exact Ha.
  rewrite dropSpace_id; [apply rev_involutive|].
  simpl. destruct (rev l) as [|b l'] eqn:E; simpl; [exact Ha|exact Hl].
Qed.

Lemma matchSumAt_word l :
  Forall (fun a => isWord a = true) l -> matchSumAt l = None.
Proof.
  intros F. unfold matchSumAt.
  destruct l as [|s [|u [|m [|p rest]]]]; try reflexivity.
  do 3 apply Forall_cons in F as [_ F]. apply Forall_cons in F as [Hp _].
  assert (eqc p "(" = false) as ->; [|now rewrite !andb_false_r].
  apply not_true_is_false. intros E. unfold eqc in E. apply Z.eqb_eq in E.
  change (code "(") with 40 in E.
  unfold isWord in Hp. apply orb_prop in Hp as [H|H]; [apply orb_prop in H as [H|H]|].
  - apply isAlpha_cases in H as [H|H]; [apply isUpper_code in H|apply isLower_code in H]; lia.
  - apply isDigit_code in H. lia.
  - apply Z.eqb_eq in H. lia.
Qed.

Lemma findSums_word l :
  Forall (fun a => isWord a = true) l -> findSums l 0 = map (fun a => Lit [a]) l.
Proof.
  induction 1 as [|a l Ha F IH]; [reflexivity|].
  cbn [findSums map]. rewrite matchSumAt_word by (constructor; assumption).
  now rewrite IH.
Qed.

Lemma replacePieces_lits {St} (l : text) (callback : text -> M St text) s :
  mapM (fun p => match p with Lit t => ret t | Hit t => callback t end)
       (map (fun a => Lit [a]) l) s
  = Ok (map (fun a => [a]) l) s.
Proof.
  revert s. induction l as [|a l IH]; intros s; [reflexivity|].
  cbn [map mapM]. unfold bind at 1. unfold ret at 1. unfold bind at 1.
  rewrite IH. reflexivity.
Qed.

Lemma concat_singletons {A} (l : list A) : concat (map (fun a => [a]) l) = l.
Proof. induction l as [|a l IH]; [reflexivity|]. simpl. now rewrite IH. Qed.

Lemma findRefs_skip l : forall b, findRefs l b (length l) = [].
Proof. induction l as [|a l IH]; intros b; [reflexivity|]. simpl. apply IH. Qed.

Lemma span_all p l : Forall (fun a => p a = true) l -> span p l = (l, []).
Proof.
  intros F. rewrite <- (app_nil_r l) at 1. now apply span_app.
Qed.

(** The reference pattern finds a text that is one reference, whole. *)
Lemma findRefs_ref l ls ds : matchRef l = Some (ls, ds) -> findRefs l false 0 = [Hit l].
Proof.
  intros H. pose proof (matchRef_words _ _ _ H) as W.
  destruct (matchRef_spec _ _ _ H) as (E & Fl & Nl & _).
  destruct l as [|a l]; [destruct ls; [done|discriminate]|].
  assert (Ha : isAlpha a = true).
  { destruct ls as [|a' ls]; [done|]. injection E as -> _. now apply Forall_inv in Fl. }
  cbn [findRefs]. rewrite Ha. cbn [negb andb]. rewrite (span_all isWord _ W). cbn [fst].
  unfold isRef. rewrite H.
  replace (length (a :: l) - 1)%nat with (length l) by (simpl; lia).
  now rewrite findRefs_skip.
Qed.

Section ReferenceFormula.

Context {rt : Runtime}.


End ReferenceFormula.


(** ** Recomputation of a workbook without formulas *)

Lemma padRows_map n m g :
  (n <= length g)%nat ->
  padRows n m g = map (fun r => r ++ replicate (m - length r) (Some emptyCell)) g.
Proof.
  intros H. unfold padRows. replace (n - length g)%nat with 0%nat by lia.
  simpl. now rewrite app_nil_r.
Qed.

Lemma plainRow_pad m row :
  plainRow row -> plainRow (row ++ replicate (m - length row) (Some emptyCell)).
Proof.
  intros H. apply Forall_app. split; [exact H|]. apply Forall_replicate.
  exists emptyCell. split; reflexivity.
Qed.

Lemma mapGet_withRows_ne key f st key' :
  key' <> key ->
  mapGet key' (sheets (wb (withRows key f st))) = mapGet key' (sheets (wb st)).
Proof.
  intros Hne. unfold withRows, setSheets; simpl.
  destruct (mapGet key (sheets (wb st))) as [s|]; [|reflexivity].
  apply mapGet_mapSet_ne. congruence.
Qed.

Lemma evaluateTop_plain_cell {rt : Runtime} fuel key r c s x st :
  mapGet key (sheets (wb st)) = Some s ->
  cellAt (rows s) r c = Some x -> hasFormula x = false ->
  evaluateTop (S fuel) key (Z.of_nat r) (Z.of_nat c) st
  = Ok (value x) (withRows key (padRows (r + 1) (c + 1)) st).
Proof.
  intros Hm Hc Hf. unfold evaluateTop. cbn [evaluateCell].
  rewrite (evaluateCell_body_cell _ _ _ _ _ _ _ _ (not_elem_of_empty _) Hm
             (cellAt_padRows_old _ _ _ _ _ _ Hc)).
  unfold hasFormula in Hf. destruct (formula x) as [[|a f]|]; [reflexivity|discriminate|reflexivity].
Qed.

Lemma plainRow_cell row c :
  plainRow row -> (c < length row)%nat ->
  exists x, rowCell row c = Some x /\ hasFormula x = false.
Proof.
  intros P Hc. destruct (lookup_lt_is_Some_2 row c Hc) as [o Ho].
  eapply Forall_lookup_1 in P; [|exact Ho]. destruct P as (x & -> & Hx).
  exists x. split; [|exact Hx]. unfold rowCell. now rewrite Ho.
Qed.

Lemma swept_pad r c g rowr :
  g !! r = Some rowr -> (c < length rowr)%nat -> swept r c g ->
  swept r (S c) (map (fun row => row ++ replicate (c + 1 - length row) (Some emptyCell)) g).
Proof.
  intros Hr Hc [S1 S2]. split.
  - intros r1 row1' row2' Hlt H1 H2.
    rewrite list_lookup_fmap in H1. destruct (g !! r1) as [row1|] eqn:E1; [|discriminate].
    injection H1 as <-. apply list_elem_of_fmap in H2 as (row2 & -> & H2).
    specialize (S1 _ _ _ Hlt E1 H2). rewrite !length_app, !length_replicate. lia.
  - intros rowr' row2' H1 H2.
    apply list_elem_of_fmap in H2 as (row2 & -> & H2).
    rewrite length_app, length_replicate. lia.
Qed.

Lemma swept_next r c g :
  match g !! r with Some rowr => (length rowr <= c)%nat | None => True end ->
  swept r c g -> swept (S r) 0%nat g.
Proof.
  intros Hc [S1 S2]. split.
  - intros r1 row1 row2 Hlt H1 H2.
    destruct (decide (r1 = r)) as [->|Hne]; [|apply (S1 r1); [lia|assumption..]].
    rewrite H1 in Hc. specialize (S2 _ _ H1 H2). lia.
  - intros rowr row2 _ _. lia.
Qed.

Lemma swept_end r c g : g !! r = None -> swept r c g -> rectangular g.
Proof.
  intros Hr [S1 _] row1 row2 H1 H2.
  apply list_elem_of_lookup in H1 as [i1 H1]. apply list_elem_of_lookup in H2 as [i2 H2].
  apply lookup_ge_None in Hr.
  pose proof (lookup_lt_Some _ _ _ H1). pose proof (lookup_lt_Some _ _ _ H2).
  apply Nat.le_antisymm.
  - apply (S1 i1); [lia|exact H1|]. apply list_elem_of_lookup. eauto.
  - apply (S1 i2); [lia|exact H2|]. apply list_elem_of_lookup. eauto.
Qed.

(** The loops of [evaluateAll] on one sheet without formulas: with enough
    turns they return, and have padded the rows to one length. *)
Lemma evaluateSheet_plain {rt : Runtime} fuel key L : forall turns r c st s,
  mapGet key (sheets (wb st)) = Some s -> name s = key ->
  Forall plainRow (rows s) ->
  Forall (fun row => (length row <= L)%nat) (rows s) ->
  swept r c (rows s) -> (c <= L)%nat ->
  ((length (rows s) - r) * (L + 2) - c < turns)%nat ->
  exists st' s',
    evaluateSheet (S fuel) turns key r c st = Ok tt st' /\
    mapGet key (sheets (wb st')) = Some s' /\ name s' = key /\
    Forall plainRow (rows s') /\
    length (rows s') = length (rows s) /\
    Forall (fun row => (length row <= L)%nat) (rows s') /\
    rectangular (rows s') /\
    (forall key', key' <> key ->
       mapGet key' (sheets (wb st')) = mapGet key' (sheets (wb st))).
Proof.
  induction turns as [|t IH]; intros r c st s Hm Hn HP HL HS Hc Ht; [lia|].
  cbn [evaluateSheet]. unfold bind at 1. rewrite (getSheet_Some _ _ _ Hm).
  destruct (rows s !! r) as [rowr|] eqn:Er.
  2:{ exists st, s. split; [reflexivity|]. repeat split; try assumption.
      eapply swept_end; eassumption. }
  pose proof (lookup_lt_Some _ _ _ Er) as Hr.
  destruct (Nat.ltb_spec c (length rowr)) as [Hlt|Hge].
  - assert (Pr : plainRow rowr) by (eapply Forall_lookup_1; eassumption).
    assert (Lr : (length rowr <= L)%nat) by (eapply (Forall_lookup_1 _ _ _ _ HL); eassumption).
    destruct (plainRow_cell _ _ Pr Hlt) as (x & Hx & Hf).
    assert (Hcell : cellAt (rows s) r c = Some x) by (rewrite cellAt_row, Er; exact Hx).
    unfold bind at 1. rewrite Hn.
    rewrite (evaluateTop_plain_cell fuel key r c s x st Hm Hcell Hf).
    set (st1 := withRows key (padRows (r + 1) (c + 1)) st).
    pose proof (withRows_mapGet key (padRows (r + 1) (c + 1)) s st Hm) as Hm1.
    fold st1 in Hm1. rewrite padRows_map in Hm1 by lia.
    set (g1 := map (fun row => row ++ replicate (c + 1 - length row) (Some emptyCell)) (rows s))
      in *.
    destruct (IH r (S c) st1 _ Hm1) as (st' & s' & E & Hm' & Hn' & HP' & Hlen' & HL' & HR' & Ho');
      cbn [name rows].
    + exact Hn.
    + subst g1. apply Forall_fmap. eapply Forall_impl; [exact HP|].
      intros row. apply plainRow_pad.
    + subst g1. apply Forall_fmap. eapply Forall_impl; [exact HL|].
      intros row Hrow. unfold compose. cbv beta in Hrow.
      rewrite length_app, length_replicate. lia.
    + subst g1. eapply swept_pad; eassumption.
    + lia.
    + subst g1. rewrite length_map.
      pose proof (Nat.mul_le_mono_r 1 (length (rows s) - r) (L + 2) ltac:(lia)). lia.
    + exists st', s'. split; [exact E|]. split; [exact Hm'|]. split; [exact Hn'|].
      split; [exact HP'|]. split; [cbn [rows] in Hlen'; subst g1; rewrite Hlen'; apply length_map|].
      split; [exact HL'|]. split; [exact HR'|].
      intros key' Hne. rewrite (Ho' key' Hne). now apply mapGet_withRows_ne.
  - destruct (IH (S r) 0%nat st s Hm Hn HP HL) as (st' & s' & E & H');
      [eapply swept_next; [|exact HS]; now rewrite Er|lia| |].
    + pose proof (Nat.mul_le_mono_r 1 (length (rows s) - r) (L + 2) ltac:(lia)).
      replace (length (rows s) - S r)%nat with (length (rows s) - r - 1)%nat by lia.
      rewrite Nat.mul_sub_distr_r. lia.
    + exists st', s'. split; [exact E|exact H'].
Qed.

Lemma swept_start g : swept 0%nat 0%nat g.
Proof. split; [intros; lia|intros; simpl; lia]. Qed.

Lemma widest_ge g row : row ∈ g -> (length row <= widest g)%nat.
Proof.
  intros H. apply max_list_elem_of_le. apply list_elem_of_fmap. eauto.
Qed.

Lemma widest_Forall g : Forall (fun row => (length row <= widest g)%nat) g.
Proof. apply Forall_forall. intros row. apply widest_ge. Qed.

Lemma widest_le g w : Forall (fun row => (length row <= w)%nat) g -> (widest g <= w)%nat.
Proof.
  unfold widest. induction 1 as [|row g Hrow _ IH]; [simpl; lia|].
  rewrite fmap_cons. change (max_list (length row :: (length <$> g)))
    with (length row `max` max_list (length <$> g))%nat. lia.
Qed.

Lemma widest_attained g : widest g = 0%nat \/ exists row, row ∈ g /\ length row = widest g.
Proof.
  destruct g as [|row0 g]; [now left|]. right.
  assert (H : max_list (length <$> (row0 :: g)) ∈ length <$> (row0 :: g))
    by (apply max_list_elem_of; discriminate).
  apply list_elem_of_fmap in H as (row & E & Hin). exists row. split; [exact Hin|].
  symmetry. exact E.
Qed.

(** A grid that has grown to a rectangle no wider than its longest row and
    no longer than itself is the grid with its rows padded to the longest. *)
Lemma grown_to_rectangle g g' :
  grownRows g g' -> length g' = length g -> rectangular g' ->
  Forall (fun row => (length row <= widest g)%nat) g' ->
  g' = map (padRow (widest g)) g.
Proof.
  intros (_ & Hold & _) Hlen Hrect Hle.
  assert (Hw : forall i row', g' !! i = Some row' -> length row' = widest g).
  { intros i row' Hi. apply Nat.le_antisymm.
    - eapply (Forall_lookup_1 _ _ _ _ Hle), Hi.
    - destruct (widest_attained g) as [->|(rowm & Hin & <-)]; [lia|].
      apply list_elem_of_lookup in Hin as [m Hm].
      destruct (Hold _ _ Hm) as (ext & Hm' & _).
      rewrite (Hrect row' (rowm ++ ext)).
      + rewrite length_app. lia.
      + eapply list_elem_of_lookup_2, Hi.
      + eapply list_elem_of_lookup_2, Hm'. }
  apply list_eq. intros i. rewrite list_lookup_fmap.
  destruct (g !! i) as [row|] eqn:Ei; simpl.
  - destruct (Hold _ _ Ei) as (ext & Hi' & Hext). rewrite Hi'. f_equal.
    unfold padRow. f_equal. symmetry. apply replicate_as_Forall_2; [|exact Hext].
    specialize (Hw _ _ Hi'). rewrite length_app in Hw. lia.
  - apply lookup_ge_None. apply lookup_ge_None in Ei. lia.
Qed.

Lemma evaluateAll_plain_loop {rt : Runtime} fuel N L (keys : list string) :
  (N * (L + 2) < S fuel)%nat ->
  forall st i,
    plain st -> within N L st ->
    (forall k, k ∈ keys -> is_Some (mapGet k (sheets (wb st)))) ->
    exists st',
      forEachFrom i keys (fun _ key => evaluateSheet (S fuel) (S fuel) key 0 0) st = Ok tt st' /\
      plain st' /\ within N L st' /\
      (forall k, is_Some (mapGet k (sheets (wb st))) -> is_Some (mapGet k (sheets (wb st')))) /\
      (forall k s', k ∈ keys -> mapGet k (sheets (wb st')) = Some s' -> rectangular (rows s')) /\
      (forall k, (forall s, mapGet k (sheets (wb st)) = Some s -> rectangular (rows s)) ->
                 forall s', mapGet k (sheets (wb st')) = Some s' -> rectangular (rows s')) /\
      (forall k s', mapGet k (sheets (wb st')) = Some s' ->
         exists s, mapGet k (sheets (wb st)) = Some s /\
                   length (rows s') = length (rows s) /\
                   Forall (fun row => (length row <= widest (rows s))%nat) (rows s')).
Proof.
  intros Hfuel. induction keys as [|key keys IH]; intros st i HP HW HK.
  - exists st. split; [reflexivity|]. split; [exact HP|]. split; [exact HW|].
    split; [auto|]. split; [|split; [auto|]].
    + intros k s' Hk. by apply elem_of_nil in Hk.
    + intros k s' Hs'. exists s'. split; [exact Hs'|]. split; [reflexivity|].
      apply widest_Forall.
  - destruct (HK key (list_elem_of_here _ _)) as [s Hm].
    destruct (HP _ _ Hm) as [Hn Hplain]. destruct (HW _ _ Hm) as [HN HLs].
    pose proof (widest_le _ _ HLs) as HwL.
    destruct (evaluateSheet_plain fuel key (widest (rows s)) (S fuel) 0%nat 0%nat st s
                Hm Hn Hplain (widest_Forall _) (swept_start _))
      as (st1 & s1 & E1 & Hm1 & Hn1 & HP1 & Hlen1 & HL1 & HR1 & Ho1);
      [lia| |].
    { rewrite Nat.sub_0_r, Nat.sub_0_r.
      assert (length (rows s) * (widest (rows s) + 2) <= N * (L + 2))%nat
        by (apply Nat.mul_le_mono; lia).
      lia. }
    assert (HP' : plain st1).
    { intros k s0 Hs0. destruct (decide (k = key)) as [->|Hne].
      - rewrite Hm1 in Hs0. injection Hs0 as <-. split; assumption.
      - rewrite (Ho1 k Hne) in Hs0. exact (HP _ _ Hs0). }
    assert (HW' : within N L st1).
    { intros k s0 Hs0. destruct (decide (k = key)) as [->|Hne].
      - rewrite Hm1 in Hs0. injection Hs0 as <-. split; [lia|].
        eapply Forall_impl; [exact HL1|]. intros row Hrow. simpl in Hrow. lia.
      - rewrite (Ho1 k Hne) in Hs0. exact (HW _ _ Hs0). }
    assert (Hpres : forall k, is_Some (mapGet k (sheets (wb st))) ->
                              is_Some (mapGet k (sheets (wb st1)))).
    { intros k Hk. destruct (decide (k = key)) as [->|Hne]; [eauto|].
      now rewrite (Ho1 k Hne). }
    destruct (IH st1 (S i) HP' HW') as (st' & E & HPf & HWf & Hpf & Hrf & Hkf & Htf).
    { intros k Hk. apply Hpres, HK. now apply list_elem_of_further. }
    exists st'. cbn [forEachFrom]. unfold bind. rewrite E1. split; [exact E|].
    split; [exact HPf|]. split; [exact HWf|]. split; [auto|].
    assert (Hkeep : forall k, (forall s0, mapGet k (sheets (wb st)) = Some s0 -> rectangular (rows s0)) ->
                      forall s0, mapGet k (sheets (wb st1)) = Some s0 -> rectangular (rows s0)).
    { intros k Hk s0 Hs0. destruct (decide (k = key)) as [->|Hne].
      - rewrite Hm1 in Hs0. now injection Hs0 as <-.
      - rewrite (Ho1 k Hne) in Hs0. exact (Hk _ Hs0). }
    split; [|split].
    + intros k s' Hk Hs'. apply elem_of_cons in Hk as [->|Hk]; [|now apply (Hrf k)].
      apply (Hkf key); [|exact Hs']. intros s0 Hs0. rewrite Hm1 in Hs0. now injection Hs0 as <-.
    + intros k Hk. apply Hkf. now apply Hkeep.
    + intros k s' Hs'. destruct (Htf k s' Hs') as (s0 & Hs0 & Hl0 & Hf0).
      destruct (decide (k = key)) as [->|Hne].
      * rewrite Hm1 in Hs0. injection Hs0 as <-. exists s. split; [exact Hm|].
        split; [lia|]. eapply Forall_impl; [exact Hf0|]. intros row Hrow. simpl in Hrow.
        pose proof (widest_le _ _ HL1). lia.
      * rewrite (Ho1 k Hne) in Hs0. exists s0. split; [exact Hs0|]. split; assumption.
Qed.

Lemma mapGet_keys {V} k (m : list (string * V)) v : mapGet k m = Some v -> k ∈ map fst m.
Proof.
  intros H. destruct (decide (k ∈ map fst m)) as [Hin|Hn]; [exact Hin|].
  apply mapGet_None_keys in Hn. congruence.
Qed.

Lemma keys_mapGet {V} k (m : list (string * V)) : k ∈ map fst m -> is_Some (mapGet k m).
Proof.
  intros H. destruct (mapGet k m) eqn:E; [eauto|].
  apply mapGet_None_keys in E. contradiction.
Qed.

(** [evaluateAll] on a workbook without formulas and without holes. *)
Lemma evaluateAll_plain {rt : Runtime}
    (fuel N L : nat) (st : Model) :
  plain st -> within N L st -> (N * (L + 2) < fuel)%nat ->
  exists st',
    evaluateAll fuel st = Ok tt st' /\
    grown st st' /\ plain st' /\ within N L st' /\
    forall key s', mapGet key (sheets (wb st')) = Some s' -> rectangular (rows s').
Proof.
  intros HP HW Hf. destruct fuel as [|fuel]; [lia|].
  destruct (evaluateAll_plain_loop fuel N L (map fst (sheets (wb st))) Hf st 0%nat HP HW)
    as (st' & E & HP' & HW' & Hpres & Hrect & _).
  { intros k Hk. now apply keys_mapGet. }
  assert (E' : evaluateAll (S fuel) st = Ok tt st').
  { unfold evaluateAll, bind, get, forEach. exact E. }
  exists st'. split; [exact E'|]. split.
  { eapply keeps_Ok; [|exact E']. apply (keeps_evaluateAll grown keeps_getCell_grown). }
  split; [exact HP'|]. split; [exact HW'|].
  intros key s' Hs'. apply (Hrect key); [|exact Hs'].
  assert (G : grown st st').
  { eapply keeps_Ok; [|exact E']. apply (keeps_evaluateAll grown keeps_getCell_grown). }
  destruct G as (_ & _ & _ & Hk & _). rewrite <- Hk. eapply mapGet_keys, Hs'.
Qed.

(** On a workbook without formulas and without holes, [evaluateAll]
    returns, with a fuel above the number of turns of its loops, and its
    only effect is to make every sheet rectangular: [getCell] pads every
    row of the sheet to the column of the cell visited, so each sheet ends
    with its own rows, each filled with empty cells up to the length of the
    longest row of that sheet.  No cell is changed and no row is added; the
    log, the checkpoints, the provenance arrays and the order of the sheets
    stay as they were. *)
Theorem evaluateAll_pads_plain_sheets {rt : Runtime}
    (fuel N L : nat) (st : Model) :
  plain st -> within N L st -> (N * (L + 2) < fuel)%nat ->
  exists st',
    evaluateAll fuel st = Ok tt st' /\
    events (wb st') = events (wb st) /\
    checkpoints (wb st') = checkpoints (wb st) /\
    provStore st' = provStore st /\
    map fst (sheets (wb st')) = map fst (sheets (wb st)) /\
    forall key s, mapGet key (sheets (wb st)) = Some s ->
      mapGet key (sheets (wb st'))
      = Some {| name := name s; rows := map (padRow (widest (rows s))) (rows s) |}.
Proof.
  intros HP HW Hf. destruct fuel as [|fuel]; [lia|].
  destruct (evaluateAll_plain_loop fuel N L (map fst (sheets (wb st))) Hf st 0%nat HP HW)
    as (st' & E & _ & _ & _ & Hrect & _ & Htight).
  { intros k Hk. now apply keys_mapGet. }
  assert (E' : evaluateAll (S fuel) st = Ok tt st').
  { unfold evaluateAll, bind, get, forEach. exact E. }
  assert (G : grown st st').
  { eapply keeps_Ok; [|exact E']. apply (keeps_evaluateAll grown keeps_getCell_grown). }
  exists st'. split; [exact E'|].
  destruct G as (Ge & Gc & Gp & Gk & Gs).
  do 4 (split; [assumption|]).
  intros key s Hs. specialize (Gs key). rewrite Hs in Gs.
  destruct (mapGet key (sheets (wb st'))) as [s'|] eqn:Hs'; [|destruct Gs].
  destruct Gs as [Hname Hrows].
  destruct (Htight key s' Hs') as (s0 & Hs0 & Hlen & Hle).
  rewrite Hs in Hs0. injection Hs0 as <-.
  assert (R : rectangular (rows s')).
  { apply (Hrect key); [|exact Hs']. eapply mapGet_keys, Hs. }
  f_equal. destruct s' as [n' g']. cbn [name rows] in *. subst n'. f_equal.
  now apply grown_to_rectangle.
Qed.

Lemma evaluateAll_pads_witness :
  exists st',
    evaluateAll (rt:=sampleRuntime) 11
      (oneSheet [[Some (literal (VNum 1))];
                 [Some (literal (VNum 2)); Some (literal (VNum 3)); Some (literal (VStr "x"))]])
    = Ok tt st' /\
    st' = oneSheet [[Some (literal (VNum 1)); Some emptyCell; Some emptyCell];
                    [Some (literal (VNum 2)); Some (literal (VNum 3));
                     Some (literal (VStr "x"))]].
Proof.
  destruct (evaluateAll_pads_plain_sheets (rt:=sampleRuntime) 11 2 3
              (oneSheet [[Some (literal (VNum 1))];
                 [Some (literal (VNum 2)); Some (literal (VNum 3)); Some (literal (VStr "x"))]]))
    as (st' & E & _).
  - intros key s H. unfold oneSheet in H. simpl in H.
    destruct (String.eqb_spec key "Sheet1") as [->|]; [|discriminate]. injection H as <-.
    split; [reflexivity|]. repeat constructor; eexists; split; reflexivity.
  - intros key s H. unfold oneSheet in H. simpl in H.
    destruct (String.eqb_spec key "Sheet1") as [->|]; [|discriminate]. injection H as <-.
    split; [simpl; lia|]. repeat constructor; simpl; lia.
  - lia.
  - exists st'. split; [exact E|]. vm_compute in E. now injection E as <-.
Defined.

(** ** Import *)

Lemma forEach_modify {A} (l : list A) (f : A -> list (string * Sheet) -> list (string * Sheet)) :
  forall i st,
    forEachFrom i l (fun _ x => modify (setSheets (f x))) st
    = Ok tt (setSheets (fun m => fold_left (fun m x => f x m) l m) st).
Proof.
  induction l as [|x l IH]; intros i st.
  - destruct st as [[ss cps evs] ps]. reflexivity.
  - cbn [forEachFrom fold_left]. unfold bind, modify. rewrite IH.
    destruct st as [[ss cps evs] ps]. reflexivity.
Qed.

Lemma loadFromJSON_run {rt : Runtime} fuel data st :
  loadFromJSON fuel data st = evaluateAll fuel (loadedModel data st).
Proof.
  unfold loadFromJSON. unfold bind at 1. unfold modify at 1.
  unfold bind at 1. unfold forEach. rewrite forEach_modify.
  unfold bind at 1. unfold get. unfold setSheets. cbn [sheets wb checkpoints events provStore].
  change (fold_left (fun m x => mapSet (sd_name x) (loadSheet x) m) data [])
    with (loadedSheets data).
  unfold loadedModel.
  destruct (loadedSheets data) as [|p m] eqn:E; reflexivity.
Qed.

Lemma mapSet_not_nil {V} k (v : V) m : mapSet k v m <> [].
Proof. destruct m as [|[k' v'] m]; simpl; [done|]. destruct (String.eqb k k'); done. Qed.

Lemma fold_mapSet_mapGet_other (data : list SheetData) : forall m key,
  key ∉ map sd_name data ->
  mapGet key (fold_left (fun m s => mapSet (sd_name s) (loadSheet s) m) data m) = mapGet key m.
Proof.
  induction data as [|d data IH]; intros m key Hn; [reflexivity|].
  simpl in *. apply not_elem_of_cons in Hn as [Hd Hn].
  rewrite IH by exact Hn. apply mapGet_mapSet_ne. congruence.
Qed.

Lemma fold_mapSet_mapGet (data : list SheetData) : forall m d,
  NoDup (map sd_name data) -> d ∈ data ->
  mapGet (sd_name d) (fold_left (fun m s => mapSet (sd_name s) (loadSheet s) m) data m)
  = Some (loadSheet d).
Proof.
  induction data as [|d0 data IH]; intros m d ND Hd; [by apply elem_of_nil in Hd|].
  simpl in *. apply NoDup_cons in ND as [Hn ND].
  apply elem_of_cons in Hd as [->|Hd]; [|now apply IH].
  rewrite fold_mapSet_mapGet_other by exact Hn. apply mapGet_mapSet_eq.
Qed.

Lemma fold_mapSet_inv (data : list SheetData) : forall m key s,
  mapGet key (fold_left (fun m s => mapSet (sd_name s) (loadSheet s) m) data m) = Some s ->
  mapGet key m = Some s \/ exists d, d ∈ data /\ sd_name d = key /\ s = loadSheet d.
Proof.
  induction data as [|d0 data IH]; intros m key s H; [by left|].
  simpl in H. destruct (IH _ _ _ H) as [H1|(d & Hd & Hk & Hs)].
  - destruct (decide (sd_name d0 = key)) as [<-|Hne].
    + rewrite mapGet_mapSet_eq in H1. injection H1 as <-. right.
      exists d0. split; [apply list_elem_of_here|done].
    + rewrite mapGet_mapSet_ne in H1 by exact Hne. by left.
  - right. exists d. split; [now apply list_elem_of_further|done].
Qed.

Lemma loadedModel_sheet data st key s :
  mapGet key (sheets (wb (loadedModel data st))) = Some s ->
  (data = [] /\ key = "Sheet1"%string /\ s = {| name := "Sheet1"; rows := [] |}) \/
  exists d, d ∈ data /\ sd_name d = key /\ s = loadSheet d.
Proof.
  unfold loadedModel. cbn [sheets wb]. destruct (loadedSheets data) as [|p m] eqn:E.
  - simpl. destruct (String.eqb_spec key "Sheet1") as [->|]; [|discriminate].
    intros [= <-]. left. split; [|done]. destruct data as [|d data]; [reflexivity|].
    unfold loadedSheets in E. simpl in E. exfalso.
    assert (H : forall l m, m <> [] ->
              fold_left (fun m s => mapSet (sd_name s) (loadSheet s) m) l m <> []).
    { clear. induction l as [|x l IH]; intros m Hm; [exact Hm|]. simpl.
      apply IH, mapSet_not_nil. }
    exact (H data [(sd_name d, loadSheet d)] ltac:(discriminate) E).
  - rewrite <- E. intros H. unfold loadedSheets in H.
    destruct (fold_mapSet_inv _ _ _ _ H) as [H1|H1]; [discriminate|]. by right.
Qed.

Lemma plainRow_loadRow o : plainRow (loadRow o).
Proof.
  unfold plainRow, loadRow. apply Forall_fmap, Forall_forall. intros c _.
  eexists. split; reflexivity.
Qed.

Lemma loadedModel_plain data st : plain (loadedModel data st).
Proof.
  intros key s H. destruct (loadedModel_sheet _ _ _ _ H) as [(_ & -> & ->)|(d & _ & <- & ->)].
  - split; [reflexivity|constructor].
  - split; [reflexivity|]. simpl. apply Forall_fmap, Forall_forall. intros o _.
    apply plainRow_loadRow.
Qed.

Lemma loadedModel_within N L data st :
  Forall (fun d => (length (sd_rows d) <= N)%nat /\
                   Forall (fun o => (length (default [] o) <= L)%nat) (sd_rows d)) data ->
  within N L (loadedModel data st).
Proof.
  intros HB key s H.
  destruct (loadedModel_sheet _ _ _ _ H) as [(_ & -> & ->)|(d & Hd & <- & ->)].
  - split; [simpl; lia|constructor].
  - eapply Forall_forall in HB as [H1 H2]; [|exact Hd]. simpl. split.
    + now rewrite length_map.
    + apply Forall_fmap. eapply Forall_impl; [exact H2|]. intros o Ho.
      unfold compose, loadRow. now rewrite length_map.
Qed.

Lemma loadedModel_cell data st d r row c v :
  NoDup (map sd_name data) -> d ∈ data ->
  sd_rows d !! r = Some (Some row) -> row !! c = Some v ->
  lookupCell (loadedModel data st) (sd_name d) r c = Some (loadCell v).
Proof.
  intros ND Hd Hr Hc. unfold lookupCell, loadedModel. cbn [sheets wb].
  pose proof (fold_mapSet_mapGet data [] d ND Hd) as H. fold (loadedSheets data) in H.
  destruct (loadedSheets data) as [|p m]; [discriminate|]. rewrite H.
  rewrite cellAt_row. simpl. rewrite list_lookup_fmap, Hr. simpl.
  unfold rowCell, loadRow. simpl. now rewrite list_lookup_fmap, Hc.
Qed.

(** What an import leaves.
    - Whatever [loadFromJSON] ends in, the history is reset: the log is
      empty and there is one checkpoint, ["import"], at event [0].
    - When no sheet name occurs twice in the data, each value of the data
      is in the workbook at its position, as a cell with that value ([null]
      for a missing cell or value), no formula, no format and no
      provenance.
    - With a fuel above the turns of the loops of the recomputation,
      [loadFromJSON] returns, and every sheet of the workbook is
      rectangular: the rows of a ragged sheet have been padded with empty
      cells to its longest row.
    - Without data the workbook is one empty sheet, [Sheet1]. *)
Theorem loadFromJSON_imports {rt : Runtime} (fuel : nat) (data : list SheetData) (st : Model) :
  let st' := stateOf (loadFromJSON fuel data st) in
  (events (wb st') = [] /\
   checkpoints (wb st') = [{| id := "import"; atEvent := 0 |}]) /\
  (NoDup (map sd_name data) ->
   forall d r row c v,
     d ∈ data -> sd_rows d !! r = Some (Some row) -> row !! c = Some v ->
     lookupCell st' (sd_name d) r c = Some (loadCell v)) /\
  (forall N L,
     Forall (fun d => (length (sd_rows d) <= N)%nat /\
                      Forall (fun o => (length (default [] o) <= L)%nat) (sd_rows d)) data ->
     (N * (L + 2) < fuel)%nat ->
     loadFromJSON fuel data st = Ok tt st' /\
     forall key s', mapGet key (sheets (wb st')) = Some s' -> rectangular (rows s')) /\
  (data = [] ->
   map fst (sheets (wb st')) = ["Sheet1"%string] /\
   forall r c, lookupCell st' "Sheet1" r c = None).
Proof.
  intros st'. subst st'. rewrite loadFromJSON_run.
  assert (G : grown (loadedModel data st) (stateOf (evaluateAll fuel (loadedModel data st)))).
  { apply (keeps_evaluateAll grown keeps_getCell_grown). }
  split; [|split; [|split]].
  - destruct G as (E & C & _). rewrite E, C. split; reflexivity.
  - intros ND d r row c v Hd Hr Hc.
    apply (grown_lookupCell _ _ _ _ _ _ G). eapply loadedModel_cell; eassumption.
  - intros N L HB Hf.
    destruct (evaluateAll_plain fuel N L (loadedModel data st)
                (loadedModel_plain _ _) (loadedModel_within _ _ _ _ HB) Hf)
      as (st' & E & _ & _ & _ & R).
    rewrite E. split; [reflexivity|exact R].
  - intros ->. destruct fuel as [|fuel]; [split; [reflexivity|intros; reflexivity]|].
    split; [reflexivity|]. intros r c. reflexivity.
Qed.

Lemma loadFromJSON_imports_witness :
  let data := [ {| sd_name := "Data";
                   sd_rows := [Some [Some (VStr "a")]; None;
                               Some [Some (VNum 1); None; Some (VNum 3)]] |} ] in
  exists st',
    loadFromJSON (rt:=sampleRuntime) 16 data freshModel = Ok tt st' /\
    lookupCell st' "Data" 2 2 = Some (literal (VNum 3)) /\
    lookupCell st' "Data" 0 2 = Some emptyCell /\
    events (wb st') = [].
Proof.
  intros data.
  destruct (loadFromJSON_imports (rt:=sampleRuntime) 16 data freshModel)
    as ((E & _) & C & R & _).
  destruct (R 3%nat 3%nat) as [H _].
  - repeat constructor; simpl; lia.
  - lia.
  - eexists. split; [exact H|]. split; [|split; [|exact E]].
    + apply (C ltac:(repeat constructor; apply not_elem_of_nil)
               {| sd_name := "Data";
                  sd_rows := [Some [Some (VStr "a")]; None;
                              Some [Some (VNum 1); None; Some (VNum 3)]] |}
               2%nat [Some (VNum 1); None; Some (VNum 3)] 2%nat (Some (VNum 3)));
        [apply list_elem_of_here|reflexivity|reflexivity].
    + vm_compute. reflexivity.
Defined.

(** ** Normalized statements *)

Lemma normalizeValues_length n vs : length (normalizeValues n vs) = n.
Proof.
  unfold normalizeValues. rewrite length_app, length_take, length_replicate. lia.
Qed.

Lemma normalizeValues_lookup n vs i :
  (i < n)%nat -> normalizeValues n vs !! i = Some (default 0%float (vs !! i)).
Proof.
  intros Hi. unfold normalizeValues.
  destruct (Nat.lt_ge_cases i (length vs)) as [Hlt|Hge].
  - rewrite lookup_app_l by (rewrite length_take; lia).
    rewrite lookup_take_lt by lia.
    destruct (lookup_lt_is_Some_2 vs i Hlt) as [v ->]. reflexivity.
  - rewrite lookup_app_r by (rewrite length_take; lia).
    rewrite length_take. rewrite lookup_replicate_2 by lia.
    now rewrite (lookup_ge_None_2 vs i) by lia.
Qed.

(** [normalize] makes every line as long as the list of periods: the values
    a line had are kept in place up to that length, the values it lacked
    are [0].  The title, the periods and the names and the order of the
    lines are unchanged, and a second [normalize] changes nothing. *)
Theorem normalize_fits_the_periods (st : Statement) :
  title (normalize st) = title st /\
  periods (normalize st) = periods st /\
  map line_name (lines (normalize st)) = map line_name (lines st) /\
  (forall i l, lines st !! i = Some l ->
     exists l', lines (normalize st) !! i = Some l' /\
       length (line_values l') = length (periods st) /\
       forall j, (j < length (periods st))%nat ->
         line_values l' !! j = Some (default 0%float (line_values l !! j))) /\
  normalize (normalize st) = normalize st.
Proof.
  split; [reflexivity|]. split; [reflexivity|]. split; [|split].
  - unfold normalize. cbn [lines]. rewrite <- list_fmap_compose. reflexivity.
  - intros i l Hl. eexists. split.
    + unfold normalize. cbn [lines]. rewrite list_lookup_fmap, Hl. reflexivity.
    + cbn [line_values]. split; [apply normalizeValues_length|].
      intros j Hj. now apply normalizeValues_lookup.
  - unfold normalize. cbn [title periods lines scale currency]. f_equal.
    rewrite <- list_fmap_compose. apply list_fmap_ext. intros i l _. simpl. f_equal.
    unfold normalizeValues at 1. rewrite normalizeValues_length, Nat.sub_diag.
    simpl. rewrite app_nil_r. apply take_ge. now rewrite normalizeValues_length.
Qed.

Lemma normalize_witness :
  let st := {| title := "Income"; periods := ["2024"; "2023"];
               lines := [ {| line_name := "Revenue"; line_values := [5; 4; 3]%float |};
                          {| line_name := "Tax"; line_values := [1%float] |} ];
               scale := None; currency := None |} in
  exists l0 l1,
    lines (normalize st) !! 0%nat = Some l0 /\ line_values l0 = [5; 4]%float /\
    lines (normalize st) !! 1%nat = Some l1 /\ line_values l1 = [1; 0]%float.
Proof.
  intros st.
  destruct (normalize_fits_the_periods st) as (_ & _ & _ & H & _).
  destruct (H 0%nat {| line_name := "Revenue"; line_values := [5; 4; 3]%float |} eq_refl)
    as (l0 & H0 & _).
  destruct (H 1%nat {| line_name := "Tax"; line_values := [1%float] |} eq_refl)
    as (l1 & H1 & _).
  exists l0, l1. split; [exact H0|]. split; [|split; [exact H1|]].
  - vm_compute in H0. now injection H0 as <-.
  - vm_compute in H1. now injection H1 as <-.
Defined.

(** ** Ingestion of a statement *)

(** A loop whose turn at index [j] takes the invariant from [j] to
    [S j] returns, and takes it from the first index to the last. *)
Lemma forEachFrom_indexed {St A} (I : nat -> St -> Prop) (l : list A)
    (f : nat -> A -> M St unit) : forall i,
  (forall j x s, l !! j = Some x -> I (i + j)%nat s ->
     exists s', f (i + j)%nat x s = Ok tt s' /\ I (S (i + j)) s') ->
  forall s, I i s -> exists s', forEachFrom i l f s = Ok tt s' /\ I (i + length l)%nat s'.
Proof.
  induction l as [|x l IH]; intros i H s Hs; simpl.
  - exists s. split; [reflexivity|]. now rewrite Nat.add_0_r.
  - destruct (H 0%nat x s eq_refl) as (s1 & E1 & I1); [now rewrite Nat.add_0_r|].
    rewrite Nat.add_0_r in E1, I1. unfold bind. rewrite E1.
    destruct (IH (S i)) with (s := s1) as (s' & E & I'); [|exact I1|].
    + intros j y t Hj It. replace (S i + j)%nat with (i + S j)%nat in * by lia.
      now apply H.
    + exists s'. split; [exact E|]. now replace (i + S (length l))%nat with (S i + length l)%nat by lia.
Qed.

Lemma literal_eq x v :
  value x = v -> formula x = None -> format x = None -> provenance x = None ->
  x = literal v.
Proof. destruct x; simpl; intros; subst; reflexivity. Qed.

(** One row of a table, written into a row of the sheet that holds nothing
    yet. *)
Lemma table_row_step n k ncols (vs : list CellValue) st :
  is_Some (mapGet n (sheets (wb st))) ->
  (length vs <= ncols)%nat -> vs <> [] ->
  (forall c x, lookupCell st n k c = Some x -> x = emptyCell) ->
  exists st',
    setValues (tableRow n k ncols) [vs] None st = Ok tt st' /\
    frame (fun key r c => key = n /\ r = k) st st' /\
    (forall j v, vs !! j = Some v -> lookupCell st' n k j = Some (literal v)) /\
    is_Some (mapGet n (sheets (wb st'))).
Proof.
  intros Hs Hlen Hne Hempty.
  assert (Hfits : fits (tableRow n k ncols) [vs]).
  { split; [simpl; lia|]. constructor; [|constructor]. simpl.
    destruct vs; [done|]. simpl in *. lia. }
  destruct (setValues_returns (tableRow n k ncols) [vs] None st Hs Hfits) as [st' E].
  exists st'. split; [exact E|].
  assert (Hcells : forall j v, vs !! j = Some v -> lookupCell st' n k j = Some (literal v)).
  { intros j v Hj.
    destruct (setValues_written_cells _ _ _ _ _ _ E 0%nat j vs v eq_refl Hj)
      as (x & Hx & Hv & Hf & Hfmt & Hp).
    cbn [sheet r1 c1 tableRow] in Hx, Hfmt, Hp.
    rewrite Nat.add_0_r in Hx, Hfmt, Hp. cbn [Nat.add] in Hx, Hfmt, Hp.
    rewrite Hx. f_equal.
    assert (Hprev : orEmpty (lookupCell st n k j) = emptyCell).
    { destruct (lookupCell st n k j) as [y|] eqn:Ey; [|reflexivity]. simpl.
      now apply (Hempty j). }
    rewrite Hprev in Hfmt, Hp. now apply literal_eq. }
  split; [|split; [exact Hcells|]].
  - eapply frame_mono; [|eapply keeps_Ok; [apply keeps_setValues_frame|exact E]].
    intros key r c (-> & i & j & row & Hi & _ & -> & _). cbn [sheet r1 tableRow].
    split; [reflexivity|]. destruct i as [|i]; [lia|discriminate Hi].
  - destruct vs as [|v vs]; [done|].
    destruct (lookupCell_Some _ _ _ _ _ (Hcells 0%nat v eq_refl)) as (s & Hm & _). eauto.
Qed.

(** The ingestion of a statement whose lines are no longer than its periods
    (as [normalize] leaves them) never fails, and lays the statement out as
    a table on the sheet [n], made anew: ["Line item"] and the periods in
    row 0, then one row per line with its name in column 0 and its values
    from column 1 on.  Every cell written is a plain value: no formula, no
    format, no provenance.  The cells of the other sheets are unchanged. *)
Theorem ingestStatement_lays_out_the_table (n : string) (s : Statement) (st : Model) :
  NoDup (map fst (sheets (wb st))) ->
  Forall (fun l => (length (line_values l) <= length (periods s))%nat) (lines s) ->
  exists st',
    ingestStatement n s st = Ok tt st' /\
    lookupCell st' n 0 0 = Some (literal (VStr "Line item")) /\
    (forall j p, periods s !! j = Some p ->
       lookupCell st' n 0 (S j) = Some (literal (VStr p))) /\
    (forall i l, lines s !! i = Some l ->
       lookupCell st' n (S i) 0 = Some (literal (VStr (line_name l))) /\
       forall j v, line_values l !! j = Some v ->
         lookupCell st' n (S i) (S j) = Some (literal (VNum v))) /\
    (forall key r c x, key <> n ->
       lookupCell st key r c = Some x -> lookupCell st' key r c = Some x).
Proof.
  intros ND HL. unfold ingestStatement. cbv zeta.
  set (header := VStr "Line item" :: map VStr (periods s)).
  set (ncols := length header).
  (* the sheet is made anew *)
  assert (H0 : exists st0, tryDeleteSheet n st = Ok tt st0 /\
             mapGet n (sheets (wb st0)) = None /\
             forall key, key <> n ->
               mapGet key (sheets (wb st0)) = mapGet key (sheets (wb st))).
  { unfold tryDeleteSheet, deleteSheet, bind, getSheet.
    destruct (mapGet n (sheets (wb st))) as [sh|] eqn:E.
    - eexists. split; [reflexivity|]. cbn [sheets wb setEvents setSheets modify appendEvent].
      split; [now apply mapDelete_keys|]. intros key Hne. apply mapGet_mapDelete_ne. congruence.
    - exists st. split; [reflexivity|]. split; [exact E|reflexivity]. }
  destruct H0 as (st0 & E0 & Hn0 & Ho0).
  unfold bind at 1. rewrite E0.
  assert (H1 : exists st1, createSheet n st0 = Ok tt st1 /\
             mapGet n (sheets (wb st1)) = Some {| name := n; rows := [] |} /\
             forall key, key <> n ->
               mapGet key (sheets (wb st1)) = mapGet key (sheets (wb st0))).
  { unfold createSheet, bind, get, mapHas. rewrite Hn0. eexists. split; [reflexivity|].
    cbn [sheets wb setEvents setSheets modify appendEvent]. split; [apply mapGet_mapSet_eq|].
    intros key Hne. apply mapGet_mapSet_ne. congruence. }
  destruct H1 as (st1 & E1 & Hn1 & Ho1).
  unfold bind at 1. rewrite E1.
  assert (Hothers1 : forall key r c x, key <> n ->
            lookupCell st key r c = Some x -> lookupCell st1 key r c = Some x).
  { intros key r c x Hne. unfold lookupCell. now rewrite (Ho1 key Hne), (Ho0 key Hne). }
  assert (Hempty1 : forall r c x, lookupCell st1 n r c = Some x -> x = emptyCell).
  { intros r c x. unfold lookupCell. rewrite Hn1. simpl. rewrite cellAt_row.
    now rewrite lookup_nil. }
  (* the header row *)
  destruct (table_row_step n 0 ncols header st1) as (st2 & E2 & F2 & C2 & S2);
    [eauto|subst ncols; lia|subst header; discriminate|intros c x; apply Hempty1|].
  unfold bind at 1. rewrite E2.
  (* the lines *)
  set (I := fun (k : nat) (t : Model) =>
    is_Some (mapGet n (sheets (wb t))) /\
    (forall j v, header !! j = Some v -> lookupCell t n 0 j = Some (literal v)) /\
    (forall i l, (i < k)%nat -> lines s !! i = Some l ->
       forall j v, (VStr (line_name l) :: map VNum (line_values l)) !! j = Some v ->
         lookupCell t n (S i) j = Some (literal v)) /\
    (forall r c x, (k < r)%nat -> lookupCell t n r c = Some x -> x = emptyCell) /\
    (forall key r c x, key <> n ->
       lookupCell st key r c = Some x -> lookupCell t key r c = Some x)).
  assert (I0 : I 0%nat st2).
  { split; [exact S2|]. split; [exact C2|]. split; [intros; lia|]. split.
    - intros r c x Hr Hx. destruct F2 as (_ & N & _).
      destruct (N n r c x) as [H|H]; [intros [_ ->]; lia|exact Hx| |exact H].
      now apply (Hempty1 r c).
    - intros key r c x Hne Hx. destruct F2 as (C & _).
      apply C; [intros [-> _]; done|]. now apply Hothers1. }
  destruct (forEachFrom_indexed I (lines s)
              (fun i l => setValues (tableRow n (i + 1) ncols)
                            [VStr (line_name l) :: map VNum (line_values l)] None) 0)
    with (s := st2) as (st3 & E3 & I3); [|exact I0|].
  { intros k l t Hl (Ps & Ph & Pl & Pe & Po). cbn [Nat.add] in *.
    destruct (table_row_step n (k + 1) ncols
                (VStr (line_name l) :: map VNum (line_values l)) t)
      as (t' & E & F & C & S'); [exact Ps| |discriminate| |].
    { eapply Forall_lookup_1 in HL; [|exact Hl]. subst ncols header. simpl in *.
      rewrite !length_map. lia. }
    { intros c x. apply Pe. lia. }
    exists t'. split; [exact E|]. destruct F as (FC & FN & _).
    split; [exact S'|]. split; [|split; [|split]].
    - intros j v Hj. apply FC; [intros [_ H]; lia|]. now apply Ph.
    - intros i l' Hi Hl' j v Hj. destruct (decide (i = k)) as [->|Hne].
      + assert (l' = l) as -> by congruence.
        replace (S k) with (k + 1)%nat by lia. now apply C.
      + apply FC; [intros [_ H]; lia|]. apply (Pl i l'); [lia|assumption..].
    - intros r c x Hr Hx. destruct (FN n r c x) as [H|H]; [intros [_ ->]; lia|exact Hx| |exact H].
      apply (Pe r c); [lia|exact H].
    - intros key r c x Hne Hx. apply FC; [intros [-> _]; done|]. now apply Po. }
  unfold forEachI. rewrite E3. exists st3. split; [reflexivity|].
  destruct I3 as (_ & Ph & Pl & _ & Po). cbn [Nat.add] in Pl.
  split; [apply (Ph 0%nat); reflexivity|].
  split; [intros j p Hj; apply (Ph (S j)); subst header; simpl;
          now rewrite list_lookup_fmap, Hj|].
  split; [|exact Po].
  intros i l Hl. pose proof (lookup_lt_Some _ _ _ Hl) as Hi. split.
  - apply (Pl i l Hi Hl 0%nat). reflexivity.
  - intros j v Hj. apply (Pl i l Hi Hl (S j)). simpl. now rewrite list_lookup_fmap, Hj.
Qed.

Lemma ingestStatement_witness :
  exists st',
    ingestStatement "P&L"
      {| title := "Income"; periods := ["2024"; "2023"];
         lines := [ {| line_name := "Revenue"; line_values := [5; 4]%float |} ];
         scale := None; currency := None |} freshModel = Ok tt st' /\
    lookupCell st' "P&L" 0 2 = Some (literal (VStr "2023")) /\
    lookupCell st' "P&L" 1 0 = Some (literal (VStr "Revenue")) /\
    lookupCell st' "P&L" 1 2 = Some (literal (VNum 4)).
Proof.
  destruct (ingestStatement_lays_out_the_table "P&L"
              {| title := "Income"; periods := ["2024"; "2023"];
                 lines := [ {| line_name := "Revenue"; line_values := [5; 4]%float |} ];
                 scale := None; currency := None |} freshModel)
    as (st' & E & _ & Hp & Hl & _).
  - repeat constructor. apply not_elem_of_nil.
  - repeat constructor.
  - exists st'. split; [exact E|].
    split; [apply (Hp 1%nat); reflexivity|].
    destruct (Hl 0%nat _ eq_refl) as [H1 H2]. split; [exact H1|].
    apply (H2 1%nat). reflexivity.
Defined.

(** ** Code fences around a plan *)

Lemma dropSpace_spaces ws l :
  Forall (fun a => isSpace a = true) ws ->
  match l with a :: _ => isSpace a = false | [] => True end ->
  dropSpace (ws ++ l) = l.
Proof. intros F H. unfold dropSpace. now rewrite (span_app isSpace ws l F H). Qed.

Lemma trimmed_head l : trimmed l -> match l with a :: _ => isSpace a = false | [] => True end.
Proof. unfold trimmed. destruct l; [done|]. destruct (rev _); [done|]. tauto. Qed.

Lemma trimmed_last l :
  trimmed l -> match rev l with b :: _ => isSpace b = false | [] => True end.
Proof. unfold trimmed. destruct l; [done|]. destruct (rev _); [done|]. tauto. Qed.

Lemma trim_core ws1 core ws2 :
  Forall (fun a => isSpace a = true) ws1 -> Forall (fun a => isSpace a = true) ws2 ->
  trimmed core -> trim (ws1 ++ core ++ ws2) = core.
Proof.
  intros F1 F2 T. unfold trim.
  rewrite dropSpace_spaces; [|exact F1|].
  2:{ pose proof (trimmed_head _ T). destruct core; [done|]. exact H. }
  rewrite rev_app_distr. rewrite dropSpace_spaces; [apply rev_involutive| |].
  - now apply Forall_rev.
  - now apply trimmed_last.
Qed.

Lemma not_J a : isAlpha a = false -> eqc (toUpper a) "J" = false.
Proof.
  intros H. apply not_true_is_false. intros E. unfold eqc in E. apply Z.eqb_eq in E.
  change (code "J") with 74 in E.
  assert (U : isUpper (toUpper a) = true) by (apply isUpper_code; lia).
  rewrite <- isAlpha_toUpper in H. now rewrite (upper_alpha _ U) in H.
Qed.

Lemma space_not_alpha a : isSpace a = true -> isAlpha a = false.
Proof.
  intros S. apply isSpace_code in S. apply not_true_is_false. intros H.
  apply isAlpha_cases in H as [H|H]; [apply isUpper_code in H|apply isLower_code in H]; lia.
Qed.

(** After the three backticks, a text whose first character is no letter is
    left as it is by the optional [json], and loses its leading white
    space. *)
Lemma stripOpeningFence_plain ws l :
  Forall (fun a => isSpace a = true) ws ->
  match l with a :: _ => isSpace a = false /\ isAlpha a = false | [] => True end ->
  stripOpeningFence (fence ++ ws ++ l) = l.
Proof.
  intros F H. unfold stripOpeningFence, fence. cbn [app].
  change (eqc "`" "`") with true. cbn [andb].
  assert (Hd : match ws ++ l with a :: _ => isAlpha a = false | [] => True end).
  { destruct ws as [|w ws]; simpl.
    - destruct l; [exact I|tauto].
    - apply Forall_inv in F. now apply space_not_alpha. }
  assert (E : match ws ++ l with
              | j :: s :: o :: n :: rest' =>
                  if eqc (toUpper j) "J" && eqc (toUpper s) "S"
                     && eqc (toUpper o) "O" && eqc (toUpper n) "N"
                  then rest' else ws ++ l
              | _ => ws ++ l
              end = ws ++ l).
  { destruct (ws ++ l) as [|j [|s [|o [|n rest']]]]; try reflexivity.
    now rewrite (not_J j Hd). }
  rewrite E. apply dropSpace_spaces; [exact F|]. destruct l; [exact I|tauto].
Qed.

Lemma stripOpeningFence_json (tag : text) ws l :
  map toUpper tag = ["J"; "S"; "O"; "N"]%char ->
  Forall (fun a => isSpace a = true) ws ->
  match l with a :: _ => isSpace a = false | [] => True end ->
  stripOpeningFence (fence ++ tag ++ ws ++ l) = l.
Proof.
  intros Ht F H. destruct tag as [|j [|s [|o [|n [|x tag]]]]]; try discriminate.
  injection Ht as Hj Hs Ho Hn.
  unfold stripOpeningFence, fence. cbn [app].
  change (eqc "`" "`") with true. cbn [andb].
  rewrite Hj, Hs, Ho, Hn. change (eqc "J" "J") with true. change (eqc "S" "S") with true.
  change (eqc "O" "O") with true. change (eqc "N" "N") with true. cbn [andb].
  now apply dropSpace_spaces.
Qed.

Lemma stripClosingFence_fence l : stripClosingFence (l ++ fence) = l.
Proof.
  unfold stripClosingFence, fence. rewrite rev_app_distr. cbn [rev app].
  change (eqc "`" "`") with true. cbn [andb]. apply rev_involutive.
Qed.

Lemma stripClosingFence_other l b :
  eqc b "`" = false -> stripClosingFence (l ++ [b]) = l ++ [b].
Proof.
  intros H. unfold stripClosingFence. rewrite rev_app_distr. cbn [rev app].
  destruct (rev l) as [|x [|y r]]; try reflexivity. now rewrite H.
Qed.

Lemma space_not_backtick b : isSpace b = true -> eqc b "`" = false.
Proof.
  intros S. apply isSpace_code in S. apply not_true_is_false. intros E.
  unfold eqc in E. apply Z.eqb_eq in E. change (code "`") with 96 in E. lia.
Qed.

Lemma trimmed_fence_end core ws :
  trimmed core -> trimmed (core ++ ws ++ fence).
Proof.
  intros T. pose proof (trimmed_head _ T) as H. unfold trimmed.
  destruct core as [|a core]; [done|]. cbn [app].
  rewrite app_comm_cons, !app_assoc, rev_app_distr. cbn [fence rev app].
  split; [exact H|reflexivity].
Qed.

(** What [cleanToJsonString] makes of a fenced answer.  The text [body]
    is ASCII, starts and ends with no white space and does not start with a
    letter (a JSON document does not); it comes between an opening fence, with or
    without [json] in any case, and a closing fence, with white space
    around.
    - When the closing fence ends the text, the result is [body].
    - When white space (a final newline, say) follows the closing fence,
      the closing fence is not removed: the pattern is anchored at the end
      of the text and the white space is trimmed only afterwards.  The
      result is [body], its trailing white space and the fence.
    - A text without fences is trimmed. *)
Theorem cleanToJsonString_and_fences (tag ws1 body ws2 ws3 : text) :
  tag = [] \/ map toUpper tag = ["J"; "S"; "O"; "N"]%char ->
  Forall (fun a => isSpace a = true) ws1 ->
  Forall (fun a => isSpace a = true) ws2 ->
  Forall (fun a => isSpace a = true) ws3 ->
  Forall (fun a => code a < 128) body ->
  trimmed body ->
  match body with a :: _ => isAlpha a = false | [] => True end ->
  cleanToJsonString (fence ++ tag ++ ws1 ++ body ++ ws2 ++ fence) = body /\
  (ws3 <> [] ->
   cleanToJsonString (fence ++ tag ++ ws1 ++ body ++ ws2 ++ fence ++ ws3)
   = body ++ ws2 ++ fence) /\
  (head body <> Some "`"%char -> head (rev body) <> Some "`"%char ->
   cleanToJsonString (ws1 ++ body ++ ws2) = body).
Proof.
  intros Htag F1 F2 F3 _ T Ha.
  pose proof (trimmed_head _ T) as Hh.
  assert (Open : forall rest,
            stripOpeningFence (fence ++ tag ++ ws1 ++ body ++ rest) = body ++ rest).
  { intros rest. destruct Htag as [->|Htag].
    - apply (stripOpeningFence_plain ws1 (body ++ rest)); [exact F1|].
      destruct body as [|a body]; [done|]. simpl. tauto.
    - apply (stripOpeningFence_json tag ws1 (body ++ rest)); [exact Htag|exact F1|].
      destruct body as [|a body]; [done|]. exact Hh. }
  split; [|split].
  - unfold cleanToJsonString. rewrite Open.
    rewrite app_assoc, stripClosingFence_fence.
    apply (trim_core [] body ws2); [constructor|exact F2|exact T].
  - intros Hne. unfold cleanToJsonString. rewrite Open.
    destruct ws3 as [|w ws3] using rev_ind; [done|]. clear IHws3.
    apply Forall_app in F3 as [F3 Fw]. apply Forall_inv in Fw.
    rewrite !app_assoc. rewrite stripClosingFence_other by now apply space_not_backtick.
    rewrite <- !app_assoc.
    replace (body ++ ws2 ++ fence ++ ws3 ++ [w])
      with ([] ++ (body ++ ws2 ++ fence) ++ (ws3 ++ [w])) by now rewrite <- !app_assoc.
    apply trim_core; [constructor| |now apply trimmed_fence_end].
    apply Forall_app. split; [exact F3|now constructor].
  - intros Hb1 Hb2. unfold cleanToJsonString.
    assert (Hbody : exists a l b l', body = a :: l /\ body = rev l' ++ [b]).
    { unfold trimmed in T. destruct body as [|a l]; [done|].
      destruct (rev (a :: l)) as [|b l'] eqn:Er; [done|].
      exists a, l, b, l'. split; [reflexivity|].
      rewrite <- (rev_involutive (a :: l)), Er. reflexivity. }
    destruct Hbody as (a & l & b & l' & Ea & Eb).
    assert (Na : eqc a "`" = false).
    { apply not_true_is_false. intros E. apply Hb1. rewrite Ea. simpl. f_equal.
      apply code_inj. now apply Z.eqb_eq. }
    assert (Nb : eqc b "`" = false).
    { apply not_true_is_false. intros E. apply Hb2. rewrite Eb, rev_app_distr. simpl.
      f_equal. apply code_inj. now apply Z.eqb_eq. }
    assert (E1 : stripOpeningFence (ws1 ++ body ++ ws2) = ws1 ++ body ++ ws2).
    { unfold stripOpeningFence.
      destruct (ws1 ++ body ++ ws2) as [|x [|y [|z rest]]] eqn:E; try reflexivity.
      assert (eqc x "`" = false) as ->; [|reflexivity].
      destruct ws1 as [|w ws1].
      - rewrite Ea in E. simpl in E. now injection E as <- _.
      - simpl in E. injection E as <- _. apply Forall_inv in F1.
        now apply space_not_backtick. }
    rewrite E1.
    assert (E2 : stripClosingFence (ws1 ++ body ++ ws2) = ws1 ++ body ++ ws2).
    { destruct ws2 as [|w ws2 _] using rev_ind.
      - rewrite app_nil_r. rewrite Eb at 1 2. rewrite !app_assoc.
        now apply stripClosingFence_other.
      - apply Forall_app in F2 as [_ Fw]. apply Forall_inv in Fw.
        rewrite !app_assoc. apply stripClosingFence_other. now apply space_not_backtick. }
    rewrite E2. now apply trim_core.
Qed.

Lemma cleanToJsonString_witness :
  cleanToJsonString (txt "```json" ++ [ascii_of_nat 10] ++ txt "{}" ++ [ascii_of_nat 10]
                       ++ fence)
  = txt "{}" /\
  cleanToJsonString (txt "```json" ++ [ascii_of_nat 10] ++ txt "{}" ++ [ascii_of_nat 10]
                       ++ fence ++ [ascii_of_nat 10])
  = txt "{}" ++ [ascii_of_nat 10] ++ fence.
Proof.
  destruct (cleanToJsonString_and_fences (txt "json") [ascii_of_nat 10] (txt "{}")
              [ascii_of_nat 10] [ascii_of_nat 10]) as (H1 & H2 & _).
  - right. reflexivity.
  - repeat constructor.
  - repeat constructor.
  - repeat constructor.
  - repeat constructor.
  - split; reflexivity.
  - reflexivity.
  - split; [exact H1|]. apply H2. discriminate.
Defined.

(** ** There is no redo *)

(** The inverse that [setCells] records is [noop]: the undo of a [setCells]
    event pops the event and restores nothing.  The sheets, the
    checkpoints and the provenance store are those that [setCells] left,
    and the log is the log before [setCells].  As [undo] itself works
    through [setCells], a second [undo] does not redo what the first
    undid. *)
Theorem undo_of_setCells_only_pops
    (range : RangeRef) (cells : list (list Cell)) (st : Model) (u : unit) (st1 : Model) :
  setCells range cells st = Ok u st1 ->
  exists ev,
    undo st1 = Ok (Some ev) (setEvents (fun _ => events (wb st)) st1) /\
    op ev = "setCells"%string /\ inverse ev = ("noop"%string, ArgsEmpty).
Proof.
  intros E. unfold setCells in E.
  apply bind_Ok in E as (sh & s1 & E1 & E).
  apply bind_Ok in E as ([] & s2 & E2 & E).
  apply bind_Ok in E as ([] & s3 & E3 & E).
  apply bind_Ok in E as (ev & s4 & E4 & E).
  injection E as _ <-.
  unfold appendEvent, bind, modify in E4. injection E4 as <- <-.
  assert (L : sameLog st s3).
  { transitivity s1; [eapply keeps_Ok; [|exact E1]; apply keeps_getSheet; apply _|].
    transitivity s2; [apply grown_sameLog; eapply keeps_Ok;
                       [apply keeps_ensureSize_grown|exact E2]|].
    eapply keeps_Ok; [|exact E3].
    apply keeps_forEachI; [apply _|]. intros i xs _.
    apply keeps_forEachI; [apply _|]. intros j x _. apply keeps_writeCell_sameLog. }
  destruct L as (LE & _).
  eexists. split.
  - unfold undo, bind, get. cbn [events wb setEvents].
    rewrite rev_app_distr. cbn [rev app inverse fst snd modify].
    change (dispatch "noop" ArgsEmpty true) with (ret (St:=Model) tt). unfold ret.
    rewrite rev_involutive, LE. reflexivity.
  - split; reflexivity.
Qed.

Lemma undo_of_setCells_witness :
  exists ev st2,
    undo (stateOf (setCells cellA1 [[literal (VNum 5)]] stampedModel)) = Ok (Some ev) st2 /\
    op ev = "setCells"%string /\
    events (wb st2) = events (wb stampedModel) /\
    lookupCell st2 "Sheet1" 0 0 = Some (literal (VNum 5)).
Proof.
  destruct (undo_of_setCells_only_pops cellA1 [[literal (VNum 5)]] stampedModel tt
              (stateOf (setCells cellA1 [[literal (VNum 5)]] stampedModel)) eq_refl)
    as (ev & E & Hop & _).
  eexists ev, _. split; [exact E|]. split; [exact Hop|]. split; vm_compute; reflexivity.
Defined.

(** ** [ensureSize] and [snapshot] *)





(** ** [linkProvenance] links every cell of the rectangle *)

Lemma pushes_S k prov : pushes k prov ++ prov = pushes (S k) prov.
Proof.
  unfold pushes. induction k as [|k IH]; simpl.
  - now rewrite app_nil_r.
  - now rewrite <- app_assoc, IH.
Qed.

Lemma pushes_add j k prov : pushes j prov ++ pushes k prov = pushes (j + k) prov.
Proof.
  unfold pushes. induction j as [|j IH]; simpl; [reflexivity|].
  now rewrite <- app_assoc, IH.
Qed.

#[local] Instance linked_preorder W prov : PreOrder (linked W prov).
Proof.
  split.
  - intros st. split; [auto|]. split; [auto|]. intros a l Ha. exists 0%nat.
    unfold pushes; simpl. now rewrite app_nil_r.
  - intros a b c (C1 & N1 & S1) (C2 & N2 & S2). split; [|split].
    + intros key r c0 x Hn Hx. eauto.
    + intros key r c0 x Hn Hx. destruct (N2 _ _ _ _ Hn Hx) as [H|H]; eauto.
    + intros i l Hi. destruct (S1 _ _ Hi) as (k1 & H1).
      destruct (S2 _ _ H1) as (k2 & H2). exists (k1 + k2)%nat.
      now rewrite H2, <- app_assoc, pushes_add.
Qed.

Lemma frame_linked W prov st st' : frame W st st' -> linked W prov st st'.
Proof.
  intros (C & N & S). split; [exact C|]. split; [exact N|].
  intros a l Ha. exists 0%nat. unfold pushes; simpl. rewrite app_nil_r. now apply S.
Qed.

Lemma linked_mono (W W' : Positions) prov st st' :
  (forall key r c, W key r c -> W' key r c) -> linked W prov st st' -> linked W' prov st st'.
Proof.
  intros H (C & N & S). split; [|split; [|exact S]].
  - intros key r c x Hn. apply C. intros HW. exact (Hn (H _ _ _ HW)).
  - intros key r c x Hn. apply N. intros HW. exact (Hn (H _ _ _ HW)).
Qed.

Lemma linked_orEmpty (W : Positions) prov key r c s s' :
  ~ W key r c -> linked W prov s s' ->
  orEmpty (lookupCell s' key r c) = orEmpty (lookupCell s key r c).
Proof.
  intros Hn (C & N & _).
  destruct (lookupCell s key r c) as [x|] eqn:E.
  - now rewrite (C _ _ _ _ Hn E).
  - destruct (lookupCell s' key r c) as [y|] eqn:E'; [|reflexivity].
    destruct (N _ _ _ _ Hn E') as [H|H]; [congruence|]. now subst y.
Qed.

Lemma keeps_pushAll_linked W prov a : keeps (linked W prov) (pushAll a prov).
Proof.
  intros st. split; [auto|]. split; [auto|]. intros b l Hb. cbn.
  destruct (decide (a = b)) as [->|Hne].
  - exists 1%nat. rewrite list_lookup_alter_eq, Hb. cbn. unfold pushes. cbn.
    now rewrite app_nil_r.
  - exists 0%nat. rewrite list_lookup_alter_ne by exact Hne.
    unfold pushes; cbn. now rewrite app_nil_r.
Qed.

Lemma keeps_alloc_linked W prov l : keeps (linked W prov) (alloc l).
Proof.
  intros st. split; [auto|]. split; [auto|]. intros b l' Hb. cbn.
  exists 0%nat. unfold pushes; cbn. rewrite app_nil_r.
  now apply lookup_app_l_Some.
Qed.

Lemma keeps_writeCell_linked (W : Positions) prov key r c x :
  W key r c -> keeps (linked W prov) (writeCell key r c x).
Proof.
  intros HW. eapply keeps_weaken; [apply frame_linked|].
  now apply keeps_writeCell_frame.
Qed.

(** The loop body of [linkProvenance] changes the cell it visits, and
    pushes [prov]. *)
Lemma keeps_link_turn_linked (W : Positions) key r c prov :
  W key r c ->
  keeps (linked W prov)
    (o <- readCell key r c ;;
     match o with
     | None => throw TypeError
     | Some cell =>
         match provenance cell with
         | Some a => pushAll a prov
         | None =>
             a <- alloc [] ;;
             writeCell key r c
               {| value := value cell; formula := formula cell;
                  provenance := Some a; format := format cell |} ;;;
             pushAll a prov
         end
     end).
Proof.
  intros HW. apply keeps_readCell_then; [apply _|]. intros [cell|]; [|apply keeps_throw; apply _].
  destruct (provenance cell) as [a|]; [apply keeps_pushAll_linked|].
  apply keeps_bind; [apply _|apply keeps_alloc_linked|]. intros a.
  apply keeps_bind; [apply _|now apply keeps_writeCell_linked|]. intros _.
  apply keeps_pushAll_linked.
Qed.

(** The turn of the loop at a cell: the cell gets an array if it had none,
    and the entries are pushed onto its array. *)
Lemma link_turn key r c prov (x0 : Cell) (l0 : list CellProvenance) s s' :
  orEmpty (lookupCell s key r c) = x0 ->
  (forall a, provenance x0 = Some a ->
     exists k, provStore s !! a = Some (l0 ++ pushes k prov)) ->
  (provenance x0 = None -> l0 = []) ->
  (o <- readCell key r c ;;
   match o with
   | None => throw TypeError
   | Some cell =>
       match provenance cell with
       | Some a => pushAll a prov
       | None =>
           a <- alloc [] ;;
           writeCell key r c
             {| value := value cell; formula := formula cell;
                provenance := Some a; format := format cell |} ;;;
           pushAll a prov
       end
   end) s = Ok tt s' ->
  exists x' a k,
    lookupCell s' key r c = Some x' /\
    value x' = value x0 /\ formula x' = formula x0 /\ format x' = format x0 /\
    provenance x' = Some a /\ (forall b, provenance x0 = Some b -> b = a) /\
    provStore s' !! a = Some (l0 ++ pushes (S k) prov).
Proof.
  intros Hx Ha Hn E. apply bind_Ok in E as (o & s1 & E1 & E).
  rewrite readCell_run in E1.
  destruct (mapGet key (sheets (wb s))) as [sh|] eqn:Em; [|discriminate].
  destruct (rows sh !! r) as [row|] eqn:Er; [|discriminate].
  injection E1 as <- <-.
  destruct (lookupCell s key r c) as [cell|] eqn:El; [|discriminate].
  cbn [orEmpty] in Hx. subst x0.
  destruct (provenance cell) as [a|] eqn:Ep.
  - unfold pushAll, modify in E. injection E as <-.
    destruct (Ha a eq_refl) as (k & Hk). exists cell, a, k.
    split; [exact El|]. do 3 (split; [reflexivity|]). split; [exact Ep|].
    split; [now intros b [= ->]|]. cbn [provStore setStore].
    rewrite list_lookup_alter_eq, Hk. cbn. now rewrite <- app_assoc, pushes_S.
  - apply bind_Ok in E as (a & s2 & E2 & E).
    unfold alloc in E2. injection E2 as <- <-.
    apply bind_Ok in E as ([] & s3 & E3 & E).
    unfold pushAll, modify in E. injection E as <-.
    eexists _, (length (provStore s)), 0%nat.
    split.
    { change (lookupCell (setStore ?f s3) key r c) with (lookupCell s3 key r c).
      rewrite (writeCell_lookup _ _ _ _ _ _ _ _ _ E3). now rewrite decide_True. }
    do 3 (split; [reflexivity|]). split; [reflexivity|]. split; [discriminate|].
    pose proof (writeCell_rest key r c
                  {| value := value cell; formula := formula cell;
                     provenance := Some (length (provStore s)); format := format cell |}
                  (setStore (fun h => h ++ [[]]) s)) as (Hst & _).
    rewrite E3 in Hst. cbn [stateOf provStore setStore] in Hst.
    cbn [provStore setStore]. rewrite list_lookup_alter_eq, Hst.
    rewrite lookup_app_r by lia. rewrite Nat.sub_diag. cbn.
    rewrite (Hn eq_refl). unfold pushes. cbn. now rewrite app_nil_r.
Qed.

Lemma linkProvenance_loop_establishes range prov r c s s' :
  inRange range (sheet range) r c ->
  let prev := orEmpty (lookupCell s (sheet range) r c) in
  (forall a, provenance prev = Some a -> is_Some (provStore s !! a)) ->
  forEach (upto (r1 range) (r2 range)) (fun r =>
    forEach (upto (c1 range) (c2 range)) (fun c =>
      o <- readCell (sheet range) r c ;;
      match o with
      | None => throw TypeError
      | Some cell =>
          match provenance cell with
          | Some a => pushAll a prov
          | None =>
              a <- alloc [] ;;
              writeCell (sheet range) r c
                {| value := value cell; formula := formula cell;
                   provenance := Some a; format := format cell |} ;;;
              pushAll a prov
          end
      end)) s = Ok tt s' ->
  exists x' k,
    lookupCell s' (sheet range) r c = Some x' /\
    value x' = value prev /\ formula x' = formula prev /\ format x' = format prev /\
    (forall a, provenance prev = Some a -> provenance x' = Some a) /\
    provOf s' x' = provOf s prev ++ pushes (S k) prov.
Proof.
  intros (_ & Hr & Hc) prev Hal E.
  set (key := sheet range) in *.
  set (l0 := provOf s prev).
  set (others := fun k r' c' => inRange range k r' c' /\ ~ (r' = r /\ c' = c)).
  set (P := fun t : Model =>
         orEmpty (lookupCell t key r c) = prev /\
         forall a, provenance prev = Some a ->
           exists k, provStore t !! a = Some (l0 ++ pushes k prov)).
  set (Q := fun t : Model =>
         exists x' a k,
           lookupCell t key r c = Some x' /\
           value x' = value prev /\ formula x' = formula prev /\ format x' = format prev /\
           provenance x' = Some a /\ (forall b, provenance prev = Some b -> b = a) /\
           provStore t !! a = Some (l0 ++ pushes (S k) prov)).
  assert (Hn : ~ others key r c) by (intros [_ H]; tauto).
  assert (HP : forall t t', linked others prov t t' -> P t -> P t').
  { intros t t' L [Pt St]. split.
    - now rewrite (linked_orEmpty _ _ _ _ _ _ _ Hn L).
    - intros a Ha. destruct (St a Ha) as (k & Hk).
      destruct L as (_ & _ & HS). destruct (HS _ _ Hk) as (k' & Hk').
      exists (k + k')%nat. now rewrite Hk', <- app_assoc, pushes_add. }
  assert (HQ : forall t t', linked others prov t t' -> Q t -> Q t').
  { intros t t' (C & _ & HS) (x' & a & k & Hx & Hv & Hf & Hfm & Hp & Hb & Hs).
    destruct (HS _ _ Hs) as (k' & Hk'). exists x', a, (k + k')%nat.
    split; [now apply C|]. do 5 (split; [assumption|]).
    rewrite Hk', <- app_assoc, pushes_add. reflexivity. }
  assert (Ps : P s).
  { split; [reflexivity|]. intros a Ha. exists 0%nat.
    destruct (Hal a Ha) as [l Hl]. unfold l0, provOf. rewrite Ha, Hl. cbn.
    unfold pushes. cbn. now rewrite app_nil_r. }
  assert (Qs : Q s').
  { unfold forEach in E.
    assert (Li : upto (r1 range) (r2 range) !! (r - r1 range)%nat = Some r).
    { rewrite upto_lookup by lia. f_equal. lia. }
    assert (Lj : upto (c1 range) (c2 range) !! (c - c1 range)%nat = Some c).
    { rewrite upto_lookup by lia. f_equal. lia. }
    pose (turn := fun r' c' : nat =>
            (o <- readCell key r' c' ;;
             match o with
             | None => throw TypeError
             | Some cell =>
                 match provenance cell with
                 | Some a => pushAll a prov
                 | None =>
                     a <- alloc [] ;;
                     writeCell key r' c'
                       {| value := value cell; formula := formula cell;
                          provenance := Some a; format := format cell |} ;;;
                     pushAll a prov
                 end
             end) : Engine unit).
    apply (forEachFrom_establish (linked others prov) P Q (upto (r1 range) (r2 range))
             (fun _ r' => forEachFrom 0 (upto (c1 range) (c2 range)) (fun _ c' => turn r' c'))
             HP HQ 0 _ r Li) with (s := s); [| |exact Ps|exact E].
    - intros i' r' Hne Hi'. apply upto_lookup_inv in Hi' as [-> Hle].
      apply keeps_forEachFrom; [apply _|]. intros j' c' Hj'.
      apply upto_lookup_inv in Hj' as [-> Hle']. unfold turn.
      apply keeps_link_turn_linked. split; [|lia]. split; [reflexivity|]. lia.
    - apply (forEachFrom_establish (linked others prov) P Q (upto (c1 range) (c2 range)) _
               HP HQ 0 _ c Lj).
      + intros j' c' Hne Hj'. apply upto_lookup_inv in Hj' as [-> Hle']. unfold turn.
        apply keeps_link_turn_linked. split; [|lia]. split; [reflexivity|]. lia.
      + intros t t' [Pt St] Et. unfold turn in Et.
        apply (link_turn key r c prov prev l0 t t' Pt St); [|exact Et].
        intros Hnone. unfold l0, provOf. now rewrite Hnone. }
  destruct Qs as (x' & a & k & Hx & Hv & Hf & Hfm & Hp & Hb & Hs).
  exists x', k. split; [exact Hx|]. do 3 (split; [assumption|]).
  split; [intros b Hb'; now rewrite (Hb b Hb')|].
  unfold provOf at 1. now rewrite Hp, Hs.
Qed.

Lemma link_turn_returns key n r c prov st :
  hasRows key n st -> (r < n)%nat -> is_Some (lookupCell st key r c) ->
  exists st',
    (o <- readCell key r c ;;
     match o with
     | None => throw TypeError
     | Some cell =>
         match provenance cell with
         | Some a => pushAll a prov
         | None =>
             a <- alloc [] ;;
             writeCell key r c
               {| value := value cell; formula := formula cell;
                  provenance := Some a; format := format cell |} ;;;
             pushAll a prov
         end
     end) st = Ok tt st' /\
    hasRows key n st' /\
    forall r' c', is_Some (lookupCell st key r' c') -> is_Some (lookupCell st' key r' c').
Proof.
  intros Hrows Hr [cell Hcell].
  unfold bind at 1. rewrite (readCell_returns _ _ _ _ _ Hrows Hr), Hcell.
  destruct (provenance cell) as [a|].
  - eexists. split; [reflexivity|]. split; [exact Hrows|]. auto.
  - unfold bind at 1. unfold alloc at 1.
    set (x := {| value := value cell; formula := formula cell;
                 provenance := Some (length (provStore st)); format := format cell |}).
    set (st1 := setStore (fun h => h ++ [[]]) st).
    destruct (writeCell_returns key n r c x st1 Hrows Hr) as (st2 & E2 & H2).
    unfold bind. rewrite E2. eexists. split; [reflexivity|].
    split; [exact H2|]. intros r' c' Hs.
    change (is_Some (lookupCell st2 key r' c')).
    rewrite (writeCell_lookup _ _ _ _ _ _ _ _ _ E2).
    destruct (decide (key = key /\ r' = r /\ c' = c)); [eauto|exact Hs].
Qed.

Lemma linkProvenance_returns range prov st :
  is_Some (mapGet (sheet range) (sheets (wb st))) -> noHoles range st ->
  exists st', linkProvenance range prov st = Ok tt st'.
Proof.
  intros [sh Hsh] Hno. unfold linkProvenance.
  unfold bind at 1. rewrite snapshot_run, Hsh.
  set (s1 := withRows (sheet range) (padRows (r2 range + 1) (c2 range + 1)) st).
  assert (H1 : hasRows (sheet range) (r2 range + 1) s1).
  { unfold hasRows, s1. rewrite (withRows_mapGet _ _ _ _ Hsh). eexists. split; [reflexivity|].
    simpl. rewrite padRows_length. lia. }
  assert (C1 : forall r c, (r1 range <= r <= r2 range)%nat -> (c1 range <= c <= c2 range)%nat ->
                is_Some (lookupCell s1 (sheet range) r c)).
  { intros r c Hr Hc. unfold s1. rewrite lookupCell_withRows, decide_True, Hsh by reflexivity.
    rewrite cellAt_row. destruct (rows sh !! r) as [row|] eqn:Er.
    - rewrite (padRows_lookup_old _ _ _ _ _ Er), rowCell_pad.
      destruct (Nat.ltb_spec c (length row)) as [Hlt|Hge].
      + unfold rowCell. destruct (lookup_lt_is_Some_2 row c Hlt) as [o Ho]. rewrite Ho.
        destruct o as [x|]; [eauto|]. now destruct (Hno sh r row c Hsh Er Hr Hc).
      + destruct (Nat.ltb_spec c (c2 range + 1)) as [_|Hge']; [eauto|lia].
    - apply lookup_ge_None in Er. rewrite padRows_lookup_new by lia.
      unfold rowCell. rewrite lookup_replicate_2 by lia. eauto. }
  destruct H1 as (sh1 & Hsh1 & Hn1).
  unfold bind at 1. rewrite (getSheet_Some _ _ _ Hsh1). unfold forEach.
  set (I := fun t : Model =>
         hasRows (sheet range) (r2 range + 1) t /\
         forall r c, (r1 range <= r <= r2 range)%nat -> (c1 range <= c <= c2 range)%nat ->
                     is_Some (lookupCell t (sheet range) r c)).
  match goal with |- context [forEachFrom 0 (upto (r1 range) (r2 range)) ?f] =>
    destruct (forEachFrom_returns I (upto (r1 range) (r2 range)) f 0)
      with (s := s1) as (s3 & E3 & H3) end.
  { intros i r t Hi Ht. apply upto_lookup_inv in Hi as [Hi Hle].
    apply forEachFrom_returns; [|exact Ht].
    intros j c t' Hj [Hrows Hcells]. apply upto_lookup_inv in Hj as [Hj Hle'].
    destruct (link_turn_returns (sheet range) (r2 range + 1) r c prov t' Hrows)
      as (t'' & E & Hrows' & Hcells'); [lia|apply Hcells; lia|].
    exists t''. split; [exact E|]. split; [exact Hrows'|].
    intros r' c' Hr' Hc'. apply Hcells'. now apply Hcells. }
  { split; [exists sh1; auto|exact C1]. }
  unfold bind at 1. rewrite E3. eexists. reflexivity.
Qed.



(** ** A formula never evaluates to ["#REF!"] *)

Lemma evalExpr_Ok {rt : Runtime} expr s v s' :
  evalExpr expr s = Ok v s' -> (exists n, v = VNum n) \/ v = VStr "#ERROR!".
Proof.
  unfold evalExpr. destruct (jsEval (str expr)) as [[n|[n|]|]|]; intros E;
    try discriminate E; injection E as <- _; eauto.
Qed.


